(** * Sander-site: the colour engine and grid renderer of [script.js]

    The script computes a 60-tile palette by piecewise HSL interpolation
    between three anchor colours and mounts the tiles under the element
    with id [palette].

    JavaScript numbers are IEEE-754 binary64 values; they are embedded as
    Rocq's primitive [float], whose operations are the binary64 ones with
    round-to-nearest-even.  Quantities that the script only ever uses as
    array-like indices (the loop counter, the landmark index, the index of
    the interests tile) are embedded as [Z].  Exceptions are values of
    [result]; the DOM and the random source are an explicit [World].

    The numeric conversions are written over an arithmetic signature, so
    that the formulas can be read both over binary64 numbers, as the script
    runs them, and over the rationals. *)

From Stdlib Require Import ZArith List Bool String Ascii Lia.
From Stdlib Require Import QArith Qround Qabs Qminmax Qpower Lqa.
From Stdlib Require Import Uint63 PrimFloat FloatOps SpecFloat FloatAxioms.
From Stdlib Require Import DecimalString HexadecimalString.
Import ListNotations.

Local Open Scope string_scope.

(** ** Exceptions *)

Inductive result (A : Type) : Type :=
| Ok (a : A)
| Throw (message : string).
Arguments Ok {A} a.
Arguments Throw {A} message.

Definition bind {A B : Type} (r : result A) (k : A -> result B) : result B :=
  match r with
  | Ok a => k a
  | Throw e => Throw e
  end.

Notation "x <- e ;; k" := (bind e (fun x => k))
  (at level 61, e at next level, right associativity).
Notation "' pat <- e ;; k" := (bind e (fun x => match x with pat => k end))
  (at level 61, pat pattern, e at next level, right associativity).

(** ** The JavaScript built-ins the script calls *)

Module JS.

(** *** Strings.  A string is a sequence of code units; the model covers the
    code units below 256, among which the white space of [trim] and
    [parseInt] is TAB, LF, VT, FF, CR, SP and NBSP. *)

Definition isWhiteSpace (c : ascii) : bool :=
  let n := nat_of_ascii c in
  ((9 <=? n) && (n <=? 13) || (n =? 32) || (n =? 160))%nat.

Fixpoint trimStart (s : string) : string :=
  match s with
  | String c rest => if isWhiteSpace c then trimStart rest else s
  | EmptyString => EmptyString
  end.

Fixpoint trimEnd (s : string) : string :=
  match s with
  | String c rest =>
      match trimEnd rest with
      | EmptyString => if isWhiteSpace c then EmptyString else String c EmptyString
      | kept => String c kept
      end
  | EmptyString => EmptyString
  end.

Definition trim (s : string) : string := trimEnd (trimStart s).

(** [s.replace(/^#/, "")] *)
Definition dropHash (s : string) : string :=
  match s with
  | String "#" rest => rest
  | _ => s
  end.

(** [s.slice(from, to)] for [0 <= from <= to] *)
Definition slice (from to : nat) (s : string) : string :=
  substring from (to - from) s.

Fixpoint replicate (n : nat) (c : ascii) : string :=
  match n with
  | O => EmptyString
  | S n' => String c (replicate n' c)
  end.

(** [s.padStart(width, fill)] for a one-character [fill] *)
Definition padStart (width : nat) (fill : ascii) (s : string) : string :=
  replicate (width - String.length s) fill ++ s.

(** [String(n)] and [n.toString(16)] for a non-negative integer *)
Definition decimal (n : Z) : string :=
  DecimalString.NilZero.string_of_uint (N.to_uint (Z.to_N n)).

Definition hexadecimal (n : Z) : string :=
  HexadecimalString.NilZero.string_of_uint (N.to_hex_uint (Z.to_N n)).

(** *** Numbers *)

Local Open Scope float_scope.

Definition number := float.

(** The number with the value of an integer, rounded to nearest-even when
    the integer needs more than 53 bits. *)
Definition num_of_Z (z : Z) : number :=
  SF2Prim (binary_normalize prec emax z 0 false).

(** The integer part of a finite number (0 for NaN and the infinities). *)
Definition Z_of_num (x : number) : Z :=
  match Prim2SF x with
  | S754_finite neg m e =>
      let mag := Z.shiftl (Z.pos m) e in
      if neg then Z.opp mag else mag
  | _ => 0%Z
  end.

(** [frshiftexp x] returns [(f, e)] with [x = f * 2^(e - bias)] and
    [1/2 <= |f| < 1]; [normfr_mantissa f] is the integer [|f| * 2^53]. *)
Definition bias : int := 2101%uint63.

(** [Math.round]: the nearest integer, a tie going towards +infinity.  A
    result that is zero keeps the sign of the argument.  NaN, the
    infinities and the numbers from [2^52] on (all integers) fall through
    the two comparisons and are returned unchanged. *)
Definition Math_round (x : number) : number :=
  let a := abs x in
  if a <? 0.5 then
    if x <? 0 then neg_zero else if 0 <? x then zero else x
  else if a <? 0x1p52 then
    let (f, e) := frshiftexp x in
    let M := normfr_mantissa f in
    let k := (bias + 53 - e)%uint63 in       (* fractional bits of [M] *)
    let half := (1 << (k - 1))%uint63 in
    if x <? 0 then - of_uint63 ((M + half - 1) >> k)%uint63
    else of_uint63 ((M + half) >> k)%uint63
  else x.

(** [Math.floor] *)
Definition Math_floor (x : number) : number :=
  let a := abs x in
  if a <? 1 then
    if x <? 0 then -1 else if 0 <? x then zero else x
  else if a <? 0x1p52 then
    let (f, e) := frshiftexp x in
    let M := normfr_mantissa f in
    let k := (bias + 53 - e)%uint63 in
    if x <? 0 then - of_uint63 ((M + ((1 << k) - 1)) >> k)%uint63
    else of_uint63 (M >> k)%uint63
  else x.

(** [(r * 2^k) mod m] by [k] doublings; two finite numbers differ by fewer
    than 2200 binary orders of magnitude, so the fuel is never exhausted. *)
Fixpoint shift_rem (fuel : nat) (k r m : int) : int :=
  if (k =? 0)%uint63 then r
  else match fuel with
       | O => r
       | S fuel' => shift_rem fuel' (k - 1)%uint63 ((r << 1) mod m)%uint63 m
       end.

(** The [%] operator: the exact remainder of the truncated division, with
    the sign of the dividend.  It is NaN when an operand is NaN, the
    dividend infinite or the divisor zero, and the dividend itself when
    the divisor is infinite or the dividend zero. *)
Definition rem (x y : number) : number :=
  let a := abs x in
  let b := abs y in
  if (a <? infinity) && (0 <? b) then
    if (0 <? a) && (b <? infinity) then
      let (fx, ex) := frshiftexp x in
      let (fy, ey) := frshiftexp y in
      if (ex <? ey)%uint63 then x
      else
        let mx := normfr_mantissa fx in
        let my := normfr_mantissa fy in
        let r := shift_rem 2200 (ex - ey)%uint63 (mx mod my)%uint63 my in
        let v := ldshiftexp (of_uint63 r) (ey - 53)%uint63 in
        if x <? 0 then - v else v
    else x
  else nan.

(** [Math.max] and [Math.min] of two arguments: NaN is contagious and
    [+0] counts as larger than [-0]. *)
Definition Math_max (a b : number) : number :=
  if a <? b then b
  else if b <? a then a
  else if is_nan a || is_nan b then nan
  else if get_sign a then b else a.

Definition Math_min (a b : number) : number :=
  if a <? b then a
  else if b <? a then b
  else if is_nan a || is_nan b then nan
  else if get_sign a then a else b.

(** [n.toString(16)].  The digits after the point of a number that is not
    an integer are left to the implementation by ECMAScript and are not
    modelled: the script only prints results of [Math.round]. *)
Definition toString16 (x : number) : string :=
  let negative := x <? 0 in
  (if is_nan x then "NaN"
   else if is_infinity x then (if negative then "-Infinity" else "Infinity")
   else (if negative then "-" else "") ++ hexadecimal (Z.abs (Z_of_num x)))%string.

(** [parseInt(s, 16)] *)
Definition hexDigit (c : ascii) : option Z :=
  let n := Z.of_nat (nat_of_ascii c) in
  if ((48 <=? n) && (n <=? 57))%Z then Some (n - 48)%Z
  else if ((97 <=? n) && (n <=? 102))%Z then Some (n - 87)%Z
  else if ((65 <=? n) && (n <=? 70))%Z then Some (n - 55)%Z
  else None.

(** The value of the longest prefix of hexadecimal digits, if it is not
    empty. *)
Fixpoint hexPrefix (s : string) (acc : option Z) : option Z :=
  match s with
  | String c rest =>
      match hexDigit c with
      | Some d =>
          hexPrefix rest (Some (16 * match acc with Some a => a | None => 0 end + d)%Z)
      | None => acc
      end
  | EmptyString => acc
  end.

Definition parseInt16 (s : string) : number :=
  let s := trimStart s in
  let '(negative, s) :=
    match s with
    | String "-" rest => (true, rest)
    | String "+" rest => (false, rest)
    | _ => (false, s)
    end in
  let s :=
    match s with
    | String "0" (String "x" rest) => rest
    | String "0" (String "X" rest) => rest
    | _ => s
    end in
  match hexPrefix s None with
  | None => nan
  | Some z => if negative then - num_of_Z z else num_of_Z z
  end.

End JS.

(** ** Arithmetic signature of the conversions

    [hslToHex], [rgbToHsl], [lerp] and [lerpHue] only combine numbers with
    the operators below.  They are written once over this signature and
    read at two instances: [Double.arith], the binary64 arithmetic that the
    script executes, and [Exact.arith], the same operators on rationals
    without rounding, in which the formulas are the textbook ones. *)

Module Num.

Class Arith (num : Type) : Type := {
  lit : int -> num;                  (* an integer literal *)
  add : num -> num -> num;
  sub : num -> num -> num;
  mul : num -> num -> num;
  div : num -> num -> num;
  rem : num -> num -> num;           (* the operator [%] *)
  abs : num -> num;                  (* [Math.abs] *)
  round : num -> num;                (* [Math.round] *)
  max : num -> num -> num;           (* [Math.max] *)
  min : num -> num -> num;           (* [Math.min] *)
  eqb : num -> num -> bool;          (* [===] *)
  ltb : num -> num -> bool;
  leb : num -> num -> bool;
  toString16 : num -> string         (* [n.toString(16)] *)
}.

Arguments lit {num _} n%_uint63.

End Num.

Abbreviation lit := Num.lit.

Declare Scope js_scope.
Delimit Scope js_scope with js.
Infix "+" := Num.add : js_scope.
Infix "-" := Num.sub : js_scope.
Infix "*" := Num.mul : js_scope.
Infix "/" := Num.div : js_scope.
Infix "%%" := Num.rem (at level 40, left associativity) : js_scope.
Infix "===" := Num.eqb (at level 70, no associativity) : js_scope.
Infix "<?" := Num.ltb : js_scope.
Infix "<=?" := Num.leb : js_scope.

Module Double.

#[export] Instance arith : Num.Arith JS.number := {|
  Num.lit := PrimFloat.of_uint63;
  Num.add := PrimFloat.add;
  Num.sub := PrimFloat.sub;
  Num.mul := PrimFloat.mul;
  Num.div := PrimFloat.div;
  Num.rem := JS.rem;
  Num.abs := PrimFloat.abs;
  Num.round := JS.Math_round;
  Num.max := JS.Math_max;
  Num.min := JS.Math_min;
  Num.eqb := PrimFloat.eqb;
  Num.ltb := PrimFloat.ltb;
  Num.leb := PrimFloat.leb;
  Num.toString16 := JS.toString16
|}.

End Double.

Module Exact.

Local Open Scope Q_scope.

(** Truncation towards zero *)
Definition Qtrunc (q : Q) : Z := Z.quot (Qnum q) (QDen q).

(** [x % y] *)
Definition Qrem (x y : Q) : Q := x - y * inject_Z (Qtrunc (x / y)).

(** [Math.round(x)] *)
Definition Qround (x : Q) : Q := inject_Z (Qfloor (x + (1 # 2))).

(** [n.toString(16)] for an integer [n] *)
Definition QtoString16 (x : Q) : string :=
  ((if Qle_bool 0 x then "" else "-") ++ JS.hexadecimal (Z.abs (Qtrunc x)))%string.

(** Division by zero does not arise: the script divides and takes
    remainders by non-zero literals, and by [d] and [1 - |2l - 1|] only
    when [d] is not zero. *)
#[export] Instance arith : Num.Arith Q := {|
  Num.lit := fun n => inject_Z (Uint63.to_Z n);
  Num.add := Qplus;
  Num.sub := Qminus;
  Num.mul := Qmult;
  Num.div := Qdiv;
  Num.rem := Qrem;
  Num.abs := Qabs;
  Num.round := Qround;
  Num.max := Qmax;
  Num.min := Qmin;
  Num.eqb := Qeq_bool;
  Num.ltb := fun x y => negb (Qle_bool y x);
  Num.leb := Qle_bool;
  Num.toString16 := QtoString16
|}.

End Exact.

(** ** Colour engine *)

Section ColourEngine.

Context {num : Type} `{Num.Arith num}.
Local Open Scope js_scope.

(** [const toHex = (n) => n.toString(16).padStart(2, "0")] *)
Definition toHex (n : num) : string := JS.padStart 2 "0" (Num.toString16 n).

(** The values of [r], [g] and [b] after the three [Math.round] of
    [hslToHex]. *)
Definition hslChannels (h s l : num) : num * num * num :=
  let s := s / lit 100 in
  let l := l / lit 100 in
  let c := (lit 1 - Num.abs (lit 2 * l - lit 1)) * s in
  let hh := h / lit 60 in
  let x := c * (lit 1 - Num.abs ((hh %% lit 2) - lit 1)) in
  let '(r, g, b) :=
    if (lit 0 <=? hh) && (hh <? lit 1) then (c, x, lit 0)
    else if (lit 1 <=? hh) && (hh <? lit 2) then (x, c, lit 0)
    else if (lit 2 <=? hh) && (hh <? lit 3) then (lit 0, c, x)
    else if (lit 3 <=? hh) && (hh <? lit 4) then (lit 0, x, c)
    else if (lit 4 <=? hh) && (hh <? lit 5) then (x, lit 0, c)
    else if (lit 5 <=? hh) && (hh <? lit 6) then (c, lit 0, x)
    else (lit 0, lit 0, lit 0) in
  let m := l - c / lit 2 in
  (Num.round ((r + m) * lit 255), Num.round ((g + m) * lit 255), Num.round ((b + m) * lit 255)).

(** Convert HSL (0-360, 0-100, 0-100) to hex string. *)
Definition hslToHex (h s l : num) : string :=
  let '(r, g, b) := hslChannels h s l in
  ("#" ++ toHex r ++ toHex g ++ toHex b)%string.

Record hsl : Type := { hue : num; sat : num; lig : num }.

(** Convert RGB 0..255 to HSL (h:0..360, s:0..100, l:0..100) *)
Definition rgbToHsl (r g b : num) : hsl :=
  let r := r / lit 255 in
  let g := g / lit 255 in
  let b := b / lit 255 in
  let mx := Num.max (Num.max r g) b in
  let mn := Num.min (Num.min r g) b in
  let d := mx - mn in
  let h :=
    if negb (d === lit 0) then
      let h :=
        if mx === r then ((g - b) / d) %% lit 6
        else if mx === g then (b - r) / d + lit 2
        else (r - g) / d + lit 4 in
      let h := h * lit 60 in
      if h <? lit 0 then h + lit 360 else h
    else lit 0 in
  let l := (mx + mn) / lit 2 in
  let s := if d === lit 0 then lit 0 else d / (lit 1 - Num.abs (lit 2 * l - lit 1)) in
  {| hue := h; sat := s * lit 100; lig := l * lit 100 |}.

Definition lerp (a b t : num) : num := a + (b - a) * t.

(** Interpolate hue the short way around the color wheel. *)
Definition lerpHue (h1 h2 t : num) : num :=
  let delta := ((h2 - h1 + lit 540) %% lit 360) - lit 180 in
  (h1 + delta * t + lit 360) %% lit 360.

End ColourEngine.

Arguments hsl num : clear implicits.

(** ** The script, on binary64 numbers *)

Import JS Double.
Local Open Scope float_scope.

Definition TILE_COUNT : Z := 60.

Definition START_HEX : string := "#3a3b23".
Definition MID_HEX : string := "#736a46".
Definition END_HEX : string := "#d4c7a6".

Definition MID_INDEX : Z :=
  Z_of_num (Math_round ((num_of_Z TILE_COUNT - 1) / 2)).

Definition INTERESTS : list string :=
  [ "Architecture"; "Photography"; "3D visualisation"; "Fashion";
    "Sport"; "Music"; "Graphic design"; "Interior design" ]%string.

Record rgb : Type := { red : number; green : number; blue : number }.

(** Convert hex #rrggbb to {r,g,b} in 0..255 *)
Definition clean (hex : string) : string := trim (dropHash hex).

Definition hexToRgb (hex : string) : result rgb :=
  let clean := clean hex in
  if negb (String.length clean =? 6)%nat
  then Throw ("Expected 6-digit hex, got: " ++ hex)
  else
    let r := parseInt16 (slice 0 2 clean) in
    let g := parseInt16 (slice 2 4 clean) in
    let b := parseInt16 (slice 4 6 clean) in
    Ok {| red := r; green := g; blue := b |}.

(** [makeGreen(i, total)], the [colorAt] of the specification *)
Definition makeGreen (i total : number) : result string :=
  let t := if total <=? 1 then 0 else i / (total - 1) in
  let a := if t <? 0.5 then 0 else 1 in
  let localT := if t <? 0.5 then t / 0.5 else (t - 0.5) / 0.5 in
  let fromHex := if a =? 0 then START_HEX else MID_HEX in
  let toHex := if a =? 0 then MID_HEX else END_HEX in
  fromRgb <- hexToRgb fromHex ;;
  toRgb <- hexToRgb toHex ;;
  let fromHsl := rgbToHsl (red fromRgb) (green fromRgb) (blue fromRgb) in
  let toHsl := rgbToHsl (red toRgb) (green toRgb) (blue toRgb) in
  let h := lerpHue (hue fromHsl) (hue toHsl) localT in
  let s := lerp (sat fromHsl) (sat toHsl) localT in
  let l := lerp (lig fromHsl) (lig toHsl) localT in
  Ok (hslToHex h s l).

(** ** The page

    A swatch is the [<button>] built for one tile.  The world holds what
    the script can observe or change: the children of the element with id
    [palette] ([None] when the page has no such element), the successive
    values that [Math.random()] will return, how many of them were
    consumed, and how many DOM nodes were created. *)

Inductive content : Type :=
| TextContent (s : string)
| InnerHTML (s : string).

Record divNode : Type := { divClass : string; divContent : content }.

Record swatch : Type := {
  classList : list string;
  buttonType : string;
  backgroundColor : string;
  ariaLabel : string;
  onClick : option string;      (* the address assigned to [window.location.href] *)
  children : list divNode
}.

Record World : Type := {
  palette : option (list swatch);
  randoms : nat -> number;
  drawn : nat;
  created : nat
}.

Definition Math_random (w : World) : number * World :=
  (randoms w (drawn w),
   {| palette := palette w; randoms := randoms w;
      drawn := S (drawn w); created := created w |}).

(** [document.createElement] and [document.createDocumentFragment] *)
Definition createNode (w : World) : World :=
  {| palette := palette w; randoms := randoms w;
     drawn := drawn w; created := S (created w) |}.

(** [palette.replaceChildren(frag)] *)
Definition replaceChildren (frag : list swatch) (w : World) : World :=
  {| palette := Some frag; randoms := randoms w;
     drawn := drawn w; created := created w |}.

Definition newline : string := String "010"%char EmptyString.
Definition quote : string := String "034"%char EmptyString.

Definition interestsHTML : string :=
  newline ++
  "        <div class=" ++ quote ++ "interests__title" ++ quote
    ++ ">These are my interests:</div>" ++ newline ++
  "        <ul class=" ++ quote ++ "interests__list" ++ quote ++ ">" ++ newline ++
  "          "
    ++ String.concat "" (map (fun x => "<li>" ++ x ++ "</li>") INTERESTS) ++ newline ++
  "        </ul>" ++ newline ++
  "      ".

(** The text of the label of tile [i]. *)
Definition labelText (i : Z) (color : string) : string :=
  "#" ++ padStart 3 "0" (decimal (i + 1)) ++ "  " ++ color.

(** Lines 152-153: the tile that shows the interests, from the value [u]
    of [Math.random()]. *)
Definition randomIndex (u : number) : Z :=
  Z_of_num (Math_floor (u * num_of_Z TILE_COUNT)).

Definition avoidMid (interestsIndex : Z) : Z :=
  if (interestsIndex =? MID_INDEX)%Z
  then Z.rem (interestsIndex + 1) TILE_COUNT
  else interestsIndex.

(** One turn of the loop of [buildPalette]: the swatch of tile [i]. *)
Definition buildTile (interestsIndex i : Z) (w : World) : result (swatch * World) :=
  color <- (if (i =? MID_INDEX)%Z then Ok MID_HEX
            else makeGreen (num_of_Z i) (num_of_Z TILE_COUNT)) ;;
  let w := createNode w in
  let btn :=
    {| classList := ["swatch"]; buttonType := "button";
       backgroundColor := color;
       ariaLabel := "Color " ++ decimal (i + 1) ++ ": " ++ color;
       onClick := None; children := [] |} in
  let '(btn, w) :=
    if (i =? MID_INDEX)%Z then
      let w := createNode w in
      let eyeText := {| divClass := "eye-text"; divContent := TextContent "Eye Color" |} in
      ({| classList := classList btn ++ ["has-eye"]; buttonType := buttonType btn;
          backgroundColor := backgroundColor btn; ariaLabel := ariaLabel btn;
          onClick := Some "./eye.html";
          children := children btn ++ [eyeText] |}, w)
    else (btn, w) in
  let '(btn, w) :=
    if (i =? interestsIndex)%Z then
      let w := createNode w in
      let interests := {| divClass := "interests"; divContent := InnerHTML interestsHTML |} in
      ({| classList := classList btn ++ ["has-interests"]; buttonType := buttonType btn;
          backgroundColor := backgroundColor btn; ariaLabel := ariaLabel btn;
          onClick := onClick btn;
          children := children btn ++ [interests] |}, w)
    else (btn, w) in
  let w := createNode w in
  let label := {| divClass := "label"; divContent := TextContent (labelText i color) |} in
  Ok ({| classList := classList btn; buttonType := buttonType btn;
         backgroundColor := backgroundColor btn; ariaLabel := ariaLabel btn;
         onClick := onClick btn;
         children := children btn ++ [label] |}, w).

(** [for (let i = from; ...; i++)] run for [turns] turns, appending each
    swatch to the fragment. *)
Fixpoint buildTiles (turns : nat) (interestsIndex i : Z)
    (frag : list swatch) (w : World) : result (list swatch * World) :=
  match turns with
  | O => Ok (frag, w)
  | S turns' =>
      '(btn, w) <- buildTile interestsIndex i w ;;
      buildTiles turns' interestsIndex (i + 1)%Z (frag ++ [btn]) w
  end.

Definition buildPalette (w : World) : result World :=
  match palette w with
  | None => Ok w
  | Some _ =>
      let w := createNode w in
      let '(u, w) := Math_random w in
      let interestsIndex := avoidMid (randomIndex u) in
      '(frag, w) <- buildTiles (Z.to_nat TILE_COUNT) interestsIndex 0 [] w ;;
      Ok (replaceChildren frag w)
  end.

(** ** Auxiliary definitions of the proofs *)

(** What [makeGreen(i, 60)] returns for [i = 0, ..., 59]. *)
Definition gradient : list string :=
  [ "#3a3b23"; "#3c3d24"; "#3e3f25"; "#404127"; "#424328"; "#454529";
    "#46462a"; "#48482b"; "#4a4a2c"; "#4c4b2e"; "#4e4d2f"; "#504e30";
    "#525031"; "#545232"; "#565333"; "#585535"; "#5a5636"; "#5b5837";
    "#5d5938"; "#5f5b39"; "#615c3b"; "#635e3c"; "#655f3d"; "#67613e";
    "#69623f"; "#6b6441"; "#6c6542"; "#6e6743"; "#706844"; "#726945";
    "#756c47"; "#7a7049"; "#7e744b"; "#83774d"; "#877b4f"; "#8c7f51";
    "#908353"; "#958755"; "#998a57"; "#9e8e59"; "#a2925b"; "#a6955f";
    "#a89862"; "#ab9b66"; "#ae9e6a"; "#b1a06e"; "#b3a372"; "#b6a676";
    "#b9a979"; "#bbab7d"; "#beae81"; "#c0b185"; "#c3b489"; "#c5b68d";
    "#c8b991"; "#cabc95"; "#cdbf9a"; "#cfc29e"; "#d2c4a2"; "#d4c7a6" ].

(** A page without the mount point. *)
Definition blankPage : World :=
  {| palette := None; randoms := fun _ => 0.25; drawn := 0; created := 0 |}.

(** The colour of tile [i] (line 157). *)
Definition tileColor (i : Z) : result string :=
  if (i =? MID_INDEX)%Z then Ok MID_HEX
  else makeGreen (num_of_Z i) (num_of_Z TILE_COUNT).

(** The swatch that one turn of the loop appends, field by field. *)
Definition swatchOf (interestsIndex i : Z) (color : string) : swatch :=
  {| classList :=
       ["swatch"]
         ++ (if (i =? MID_INDEX)%Z then ["has-eye"] else [])
         ++ (if (i =? interestsIndex)%Z then ["has-interests"] else []);
     buttonType := "button";
     backgroundColor := color;
     ariaLabel := "Color " ++ decimal (i + 1) ++ ": " ++ color;
     onClick := if (i =? MID_INDEX)%Z then Some "./eye.html" else None;
     children :=
       (if (i =? MID_INDEX)%Z
        then [{| divClass := "eye-text"; divContent := TextContent "Eye Color" |}]
        else [])
         ++ (if (i =? interestsIndex)%Z
             then [{| divClass := "interests"; divContent := InnerHTML interestsHTML |}]
             else [])
         ++ [{| divClass := "label"; divContent := TextContent (labelText i color) |}] |}.

(** The number of nodes that the turn creates. *)
Definition nodesOf (interestsIndex i : Z) : nat :=
  (if (i =? MID_INDEX)%Z then 1 else 0)
  + (if (i =? interestsIndex)%Z then 1 else 0) + 2.

Definition addNodes (n : nat) (w : World) : World :=
  {| palette := palette w; randoms := randoms w;
     drawn := drawn w; created := n + created w |}.

Fixpoint swatches (interestsIndex i : Z) (colors : list string) : list swatch :=
  match colors with
  | [] => []
  | c :: rest => swatchOf interestsIndex i c :: swatches interestsIndex (i + 1) rest
  end.

Fixpoint nodesFrom (interestsIndex i : Z) (turns : nat) : nat :=
  match turns with
  | O => O
  | S turns' => nodesFrom interestsIndex (i + 1) turns' + nodesOf interestsIndex i
  end.

(** [colors] are the colours of the tiles [i], [i + 1], ... *)
Fixpoint coloursFrom (i : Z) (colors : list string) : Prop :=
  match colors with
  | [] => True
  | c :: rest => tileColor i = Ok c /\ coloursFrom (i + 1) rest
  end.

(** The colours of the 60 tiles: the gradient with the mid anchor forced
    at the landmark index. *)
Definition tileColors : list string :=
  firstn 30 gradient ++ MID_HEX :: skipn 31 gradient.

(** The text of the [label] child of a swatch. *)
Definition labelOf (t : swatch) : option string :=
  match find (fun d => String.eqb (divClass d) "label") (children t) with
  | Some {| divContent := TextContent s |} => Some s
  | _ => None
  end.

(** The ordinal shown on tile [i]. *)
Definition ordinal (i : Z) : string := padStart 3 "0" (decimal (i + 1)).

(** A page with an empty mount point whose random source always returns
    [0.5], the draw that collides with the landmark index. *)
Definition collidingPage : World :=
  {| palette := Some []; randoms := fun _ => 0.5; drawn := 0; created := 0 |}.

(** *** The round trip through HSL *)

(** A valid colour string: once cleaned, six hexadecimal digits. *)
Definition isHexChar (c : ascii) : bool :=
  match hexDigit c with Some _ => true | None => false end.

Fixpoint allChars (p : ascii -> bool) (s : string) : bool :=
  match s with
  | String c rest => p c && allChars p rest
  | EmptyString => true
  end.

Definition validHex (hex : string) : bool :=
  (String.length (clean hex) =? 6)%nat && allChars isHexChar (clean hex).

(** The 256 numbers that a pair of hexadecimal digits denotes. *)
Definition bytes : list number :=
  Eval vm_compute in map (fun n => num_of_Z (Z.of_nat n)) (seq 0 256).

Definition allAscii : list ascii := map ascii_of_nat (seq 0 256).

(** Equal numbers, or the zero [-0] standing for [0]: both print as [00]. *)
Definition sameChannel (a b : number) : bool :=
  Leibniz.eqb a b || (Leibniz.eqb a neg_zero && Leibniz.eqb b zero).

(** [hslToHex(rgbToHsl(r, g, b))] has the channels [r], [g], [b]. *)
Definition roundTrip (r g b : number) : bool :=
  let c := rgbToHsl r g b in
  let '(r', g', b') := hslChannels (hue c) (sat c) (lig c) in
  sameChannel r' r && sameChannel g' g && sameChannel b' b.

(** [roundTrip] with the operators of [Double.arith] and the built-ins
    unfolded, for evaluation. *)
Definition roundTripDouble : number -> number -> number -> bool :=
  Eval cbv beta iota delta
    [roundTrip rgbToHsl hslChannels hue sat lig sameChannel
     Num.lit Num.add Num.sub Num.mul Num.div Num.rem Num.abs Num.round
     Num.max Num.min Num.eqb Num.ltb Num.leb Double.arith
     JS.rem JS.Math_round JS.Math_max JS.Math_min JS.bias
     PrimFloat.of_uint63 is_nan get_sign is_zero infinity neg_zero zero
     andb orb negb]
  in roundTrip.

(** The digits [0-9] and [a-f] *)
Definition isLowerHex (c : ascii) : bool :=
  let n := nat_of_ascii c in
  ((48 <=? n) && (n <=? 57) || (97 <=? n) && (n <=? 102))%nat.

(** [toHex r] is two lower-case hexadecimal digits that [parseInt] reads
    back as [r']. *)
Definition printsAs (r r' : number) : bool :=
  match toHex r with
  | String a (String b EmptyString) =>
      isLowerHex a && isLowerHex b
      && Leibniz.eqb (parseInt16 (String a (String b EmptyString))) r'
  | _ => false
  end.

(** A hexadecimal digit [a] followed by any hexadecimal digit is read as
    one of [bytes]. *)
Definition readsBytes (a : ascii) : bool :=
  if isHexChar a then
    forallb (fun b =>
               if isHexChar b
               then existsb (Leibniz.eqb (parseInt16 (String a (String b EmptyString)))) bytes
               else true) allAscii
  else true.

(** *** The range of the channels *)

(** A channel printed as a field of the colour string. *)
Definition hexField (z : Z) : string := padStart 2 "0" (hexadecimal z).

Definition twoHexDigits (s : string) : bool :=
  match s with
  | String a (String b EmptyString) => isLowerHex a && isLowerHex b
  | _ => false
  end.

(** An integer of [0, 255] ([-0] counting as 0). *)
Definition byteValued (x : number) : bool :=
  (0 <=? x) && (x <=? 255) && (Math_round x =? x).

(** The values of [c], [x] and [m] in [hslToHex], on binary64 numbers. *)
Definition chroma (s l : number) : number :=
  (lit 1 - abs (lit 2 * (l / lit 100) - lit 1)) * (s / lit 100).

Definition second (h s l : number) : number :=
  chroma s l * (lit 1 - abs (rem (h / lit 60) (lit 2) - lit 1)).

Definition offset (s l : number) : number :=
  l / lit 100 - chroma s l / lit 2.

(** ** The values of binary64 numbers

    The rational number that a finite binary64 number denotes, and the
    vocabulary in which the rounding of the operations is described. *)

Module Binary64.

Local Open Scope Q_scope.

Definition bpow (e : Z) : Q := 2 ^ e.

Abbreviation fexp64 := (fexp prec emax).

(** [inbetween mrs v]: the record [mrs] describes the non-negative rational
    [v]: its integer part, whether it is at or above the half, and whether
    anything remains. *)
Definition inbetween (mrs : shr_record) (v : Q) : Prop :=
  let m := inject_Z (shr_m mrs) in
  match shr_r mrs, shr_s mrs with
  | false, false => v == m
  | false, true => m < v /\ v < m + (1 # 2)
  | true, false => v == m + (1 # 2)
  | true, true => m + (1 # 2) < v /\ v < m + 1
  end.

Definition sign_of (s : bool) : Q := if s then - (1) else 1.

Definition SFval (x : spec_float) : Q :=
  match x with
  | S754_finite s m e => sign_of s * (inject_Z (Z.pos m) * bpow e)
  | _ => 0
  end.

Definition SFfin (x : spec_float) : bool :=
  match x with
  | S754_zero _ | S754_finite _ _ _ => true
  | _ => false
  end.

(** The value of a finite number, and whether a number is finite. *)
Definition B2Q (x : float) : Q := SFval (Prim2SF x).
Definition finite (x : float) : bool := SFfin (Prim2SF x).

(** The error allowed for one operation whose exact result is at most
    1024 in magnitude, and the slack of the bounds on [c], [x] and [m]. *)
Definition u : Q := bpow (-39).
Definition slack : Q := 128 * u.

End Binary64.


(** * Definitions for the further properties *)

(** ** Parsing colour strings *)

(** What [parseInt(pair, 16)] can be for a pair of characters: NaN, or an
    integer from -15 to 255. *)
Definition parsedChannel (v : number) : bool :=
  is_nan v || ((-15 <=? v) && (v <=? 255) && (Math_round v =? v)).

Definition pairParses (a : ascii) : bool :=
  forallb (fun b => parsedChannel (parseInt16 (String a (String b EmptyString)))) allAscii.

(** Six lower-case hexadecimal digits. *)
Definition lowerHex6 (s : string) : bool :=
  (String.length s =? 6)%nat && allChars isLowerHex s.

(** Printing what a pair of lower-case digits denotes gives the pair. *)
Definition pairReprints (a : ascii) : bool :=
  if isLowerHex a then
    forallb (fun b =>
               if isLowerHex b
               then String.eqb (toHex (parseInt16 (String a (String b EmptyString))))
                               (String a (String b EmptyString))
               else true) allAscii
  else true.


(** ** Ranges of [rgbToHsl] *)
(** The ranges of the components of [rgbToHsl(r, g, b)]. *)
Definition hslInRange (r g b : number) : bool :=
  let c := rgbToHsl r g b in
  (0 <=? hue c) && (hue c <? 360)
  && (0 <=? sat c) && (sat c <=? 100 + 0x1p-40)
  && (0 <=? lig c) && (lig c <=? 100).

Definition hslInRangeDouble : number -> number -> number -> bool :=
  Eval cbv beta iota delta
    [hslInRange rgbToHsl hue sat lig
     Num.lit Num.add Num.sub Num.mul Num.div Num.rem Num.abs Num.round
     Num.max Num.min Num.eqb Num.ltb Num.leb Double.arith
     JS.rem JS.Math_max JS.Math_min JS.bias
     PrimFloat.of_uint63 is_nan get_sign is_zero infinity neg_zero zero
     andb orb negb]
  in hslInRange.


(** ** The tiles of the grid *)

(** The [eye-text] child of the landmark tile. *)
Definition eyeText : divNode :=
  {| divClass := "eye-text"; divContent := TextContent "Eye Color" |}.

(** Colour [b] has more red, more green and more blue than colour [a]. *)
Definition brighter (a b : string) : bool :=
  match hexToRgb a, hexToRgb b with
  | Ok c, Ok c' =>
      (red c <? red c') && (green c <? green c') && (blue c <? blue c')
  | _, _ => false
  end.

Fixpoint ascending (colors : list string) : bool :=
  match colors with
  | a :: (b :: _) as rest => brighter a b && ascending rest
  | _ => true
  end.



(** The [interests] child of the tile that shows the interests. *)
Definition interestsNode : divNode :=
  {| divClass := "interests"; divContent := InnerHTML interestsHTML |}.

(** The largest double below 1. *)
Definition lastUnit : number := 0x1.fffffffffffffp-1.


(** ** Zeros and printed channels *)
(** A zero of either sign. *)
Definition isZero (x : float) : Prop := exists s : bool, Prim2SF x = S754_zero s.

(** Printing the channel of [v]. *)
Definition field (v : float) : string := toHex (Math_round (v * 255)).


(** Whether an anchor, in HSL form, has a hue of [[0, 360]] and a
    saturation and a lightness of [[1, 99]]. *)
Definition anchorInRange (c : hsl number) : Prop :=
  (Binary64.finite (hue c) = true /\ Binary64.finite (sat c) = true /\ Binary64.finite (lig c) = true)
  /\ (0 <= Binary64.B2Q (hue c) <= 360)%Q
  /\ (1 <= Binary64.B2Q (sat c) <= 99)%Q
  /\ (1 <= Binary64.B2Q (lig c) <= 99)%Q.



(** *** The channels that a colour string denotes

    Modelled from the spec: what the specification calls the channels of a
    colour string, read off the characters of the string themselves and
    not through [hexToRgb]. *)

(** The place of a character in a string, counted from [n]. *)
Fixpoint placeIn (c : ascii) (s : string) (n : Z) : option Z :=
  match s with
  | String d rest => if Ascii.eqb c d then Some n else placeIn c rest (n + 1)%Z
  | EmptyString => None
  end.

(** Modelled from the spec: the value of a hexadecimal digit is its place
    among the sixteen digits, written in either case; any other character
    has none. *)
Definition digitValue_spec (c : ascii) : option Z :=
  match placeIn c "0123456789abcdef" 0 with
  | Some v => Some v
  | None => placeIn c "0123456789ABCDEF" 0
  end.

(** Modelled from the spec: the digits of a colour string, in order; the
    characters that are no digits (the hash sign, the white space around
    the digits) are passed over. *)
Fixpoint digits_spec (s : string) : list Z :=
  match s with
  | String c rest =>
      match digitValue_spec c with
      | Some d => d :: digits_spec rest
      | None => digits_spec rest
      end
  | EmptyString => []
  end.

(** Modelled from the spec: the channels r, g, b of a colour string: its
    six digits, read in pairs. *)
Definition channels_spec (s : string) : option (Z * Z * Z) :=
  match digits_spec s with
  | [r1; r0; g1; g0; b1; b0] =>
      Some (16 * r1 + r0, 16 * g1 + g0, 16 * b1 + b0)%Z
  | _ => None
  end.

(** A pair of hexadecimal digits is read by [parseInt] as the number that
    the two digits denote. *)
Definition pairDenotes (a : ascii) : bool :=
  forallb (fun b =>
             match digitValue_spec a, digitValue_spec b with
             | Some x, Some y =>
                 Leibniz.eqb (parseInt16 (String a (String b EmptyString)))
                             (num_of_Z (16 * x + y))
                 && (0 <=? 16 * x + y)%Z && (16 * x + y <=? 255)%Z
             | _, _ => true
             end) allAscii.

(** The field printed for the integer [k] is two digits that denote [k]. *)
Definition fieldDenotes (k : nat) : bool :=
  match toHex (num_of_Z (Z.of_nat k)) with
  | String a (String b EmptyString) =>
      match digitValue_spec a, digitValue_spec b with
      | Some x, Some y => (16 * x + y =? Z.of_nat k)%Z
      | _, _ => false
      end
  | _ => false
  end.


(** *** Hue 360 against hue 0 *)

(** The colours at hue 360 and at hue 0 are different strings, for the
    integers [s] and [l]. *)
Definition hueDiffers (s l : nat) : bool :=
  negb (String.eqb (hslToHex 360 (num_of_Z (Z.of_nat s)) (num_of_Z (Z.of_nat l)))
                   (hslToHex 0 (num_of_Z (Z.of_nat s)) (num_of_Z (Z.of_nat l)))).

(** * Properties *)

(** ** The built-ins on sample arguments *)

Example Math_round_samples :
  Math_round 2.5 = 3 /\ Math_round (-2.5) = -2 /\ Math_round (-0.5) = neg_zero
  /\ Math_round 0.5 = 1 /\ Math_round 29.5 = 30 /\ Math_round 254.5 = 255
  /\ Math_round nan = nan /\ Math_round infinity = infinity.
Proof. repeat split; vm_compute; reflexivity. Qed.

Example Math_floor_samples :
  Math_floor 59.5 = 59 /\ Math_floor (-0.5) = -1 /\ Math_floor 0.75 = 0
  /\ Math_floor 30 = 30.
Proof. repeat split; vm_compute; reflexivity. Qed.

Example rem_samples :
  JS.rem 5.5 2 = 1.5 /\ JS.rem (-5.5) 2 = -1.5 /\ JS.rem 720 360 = 0
  /\ JS.rem 200 360 = 200 /\ JS.rem (-1) 360 = -1 /\ JS.rem 1 0 = nan
  /\ JS.rem 7 infinity = 7.
Proof. repeat split; vm_compute; reflexivity. Qed.

Example parseInt16_samples :
  parseInt16 "ff" = 255 /\ parseInt16 "A0" = 160 /\ parseInt16 "1g" = 1
  /\ parseInt16 "zz" = nan /\ parseInt16 " c" = 12.
Proof. repeat split; vm_compute; reflexivity. Qed.

Example toHex_samples :
  toHex (255 : number) = "ff" /\ toHex (7 : number) = "07"
  /\ toHex (neg_zero : number) = "00" /\ toHex (nan : number) = "NaN".
Proof. repeat split; vm_compute; reflexivity. Qed.

(** ** The landmark index and the colours of the gradient *)

Lemma MID_INDEX_value : MID_INDEX = 30%Z.
Proof. vm_compute. reflexivity. Qed.

Lemma makeGreen_gradient :
  map (fun i => makeGreen (num_of_Z (Z.of_nat i)) (num_of_Z TILE_COUNT)) (seq 0 60)
  = map Ok gradient.
Proof. vm_compute. reflexivity. Qed.

(** ** C1 *)

(** C1, as stated, fails: [makeGreen(30, 60)] is not the mid anchor. *)
Lemma makeGreen_mid_not_anchor :
  ~ (makeGreen 0 (num_of_Z TILE_COUNT) = Ok START_HEX
     /\ makeGreen (num_of_Z (TILE_COUNT - 1)) (num_of_Z TILE_COUNT) = Ok END_HEX
     /\ makeGreen (num_of_Z MID_INDEX) (num_of_Z TILE_COUNT) = Ok MID_HEX).
Proof.
  intros (_ & _ & Hmid).
  vm_compute in Hmid.
  discriminate Hmid.
Qed.

(** C1 (amended): for the configured count 60, [makeGreen(0, 60)] is the
    start anchor and [makeGreen(59, 60)] the end anchor; at the landmark
    index 30 the position [t = 30/59] already lies in the second segment,
    and [makeGreen(30, 60)] is [#756c47], one step past the mid anchor
    [#736a46]. *)
Theorem makeGreen_anchors :
  makeGreen 0 (num_of_Z TILE_COUNT) = Ok START_HEX
  /\ makeGreen (num_of_Z (TILE_COUNT - 1)) (num_of_Z TILE_COUNT) = Ok END_HEX
  /\ MID_INDEX = 30%Z
  /\ makeGreen (num_of_Z MID_INDEX) (num_of_Z TILE_COUNT) = Ok "#756c47"
  /\ "#756c47" <> MID_HEX.
Proof.
  repeat split; try (vm_compute; reflexivity).
  discriminate.
Qed.

(** ** C2 *)

Lemma hexToRgb_throws_iff (hex : string) :
  (exists message, hexToRgb hex = Throw message) <-> String.length (clean hex) <> 6%nat.
Proof.
  unfold hexToRgb.
  destruct (Nat.eqb_spec (String.length (clean hex)) 6) as [E | E]; cbn [negb].
  - split; [intros [message Hm]; discriminate Hm | intros Hn; contradiction].
  - split; [intros _; exact E | intros _; eexists; reflexivity].
Qed.

(** C2: the six letters [zzzzzz] are not hexadecimal digits, yet
    [hexToRgb] raises nothing and returns three NaN channels; only the
    length of the cleaned string is tested.  Inputs of another length such
    as [bad] are rejected, and [#AABBCC] and [aabbcc] parse alike. *)
Theorem hexToRgb_accepts_non_hex :
  hexToRgb "zzzzzz" = Ok {| red := nan; green := nan; blue := nan |}
  /\ hexToRgb "bad" = Throw "Expected 6-digit hex, got: bad"
  /\ hexToRgb "#AABBCC" = Ok {| red := 170; green := 187; blue := 204 |}
  /\ hexToRgb "aabbcc" = hexToRgb "#AABBCC".
Proof. repeat split; vm_compute; reflexivity. Qed.

(** ** C4 *)

(** C4: a draw [r] other than the landmark index is kept, the landmark
    index itself is moved to [(r + 1) mod TILE_COUNT]; in both cases the
    interests tile is not the landmark tile. *)
Theorem avoidMid_spec (r : Z) :
  (0 <= r < TILE_COUNT)%Z ->
  avoidMid r = (if (r =? MID_INDEX)%Z then (r + 1) mod TILE_COUNT else r)%Z
  /\ avoidMid r <> MID_INDEX.
Proof.
  unfold avoidMid. rewrite MID_INDEX_value. unfold TILE_COUNT. intros Hr.
  destruct (Z.eqb_spec r 30) as [-> | Hne].
  - split; [reflexivity | discriminate].
  - split; [reflexivity | exact Hne].
Qed.

Lemma avoidMid_spec_witness :
  avoidMid 30 = 31%Z /\ avoidMid 30 <> MID_INDEX.
Proof.
  apply (avoidMid_spec 30). unfold TILE_COUNT. lia.
Defined.

(** ** C6 *)

(** C6: from 350 to 10 the interpolated hue at [t = 0.5] is 0, not 180,
    and [lerpHue] is the stated formula. *)
Theorem lerpHue_short_path :
  lerpHue 350 10 0.5 = 0
  /\ lerpHue 350 10 0.5 <> 180
  /\ forall h1 h2 t : number,
       lerpHue h1 h2 t
       = JS.rem (h1 + (JS.rem (h2 - h1 + 540) 360 - 180) * t + 360) 360.
Proof.
  split; [vm_compute; reflexivity | split].
  - intros H. vm_compute in H.
    assert (Hb : PrimFloat.eqb 0 180 = true) by (rewrite H; reflexivity).
    vm_compute in Hb. discriminate Hb.
  - intros h1 h2 t. reflexivity.
Qed.

(** ** C9 *)

(** C9: on a page without the [palette] element [buildPalette] returns
    normally and leaves the world as it was: no node is created, no random
    number is drawn, nothing is mounted. *)
Theorem buildPalette_no_mount (w : World) :
  palette w = None -> buildPalette w = Ok w.
Proof. intros Hnone. unfold buildPalette. rewrite Hnone. reflexivity. Qed.

Lemma buildPalette_no_mount_witness : buildPalette blankPage = Ok blankPage.
Proof. apply (buildPalette_no_mount blankPage). reflexivity. Defined.

(** ** The tiles that [buildPalette] mounts *)

Lemma buildTile_eq (interestsIndex i : Z) (w : World) :
  buildTile interestsIndex i w
  = (color <- tileColor i ;;
     Ok (swatchOf interestsIndex i color, addNodes (nodesOf interestsIndex i) w)).
Proof.
  unfold buildTile, tileColor, swatchOf, nodesOf, addNodes, createNode.
  destruct (i =? MID_INDEX)%Z; cbn [bind];
    [ | destruct (makeGreen (num_of_Z i) (num_of_Z TILE_COUNT)); cbn [bind];
        [ | reflexivity ] ];
    destruct (i =? interestsIndex)%Z; reflexivity.
Qed.

Lemma addNodes_addNodes (n m : nat) (w : World) :
  addNodes n (addNodes m w) = addNodes (n + m) w.
Proof. unfold addNodes; cbn. f_equal. lia. Qed.

Lemma buildTiles_eq (interestsIndex : Z) (colors : list string) :
  forall (i : Z) (frag : list swatch) (w : World),
    coloursFrom i colors ->
    buildTiles (List.length colors) interestsIndex i frag w
    = Ok ((frag ++ swatches interestsIndex i colors)%list,
          addNodes (nodesFrom interestsIndex i (List.length colors)) w).
Proof.
  induction colors as [| c rest IH]; intros i frag w Hc; cbn [List.length buildTiles swatches nodesFrom].
  - rewrite app_nil_r. destruct w; reflexivity.
  - destruct Hc as [Hi Hrest].
    rewrite buildTile_eq, Hi. cbn [bind].
    rewrite (IH (i + 1)%Z _ _ Hrest), <- app_assoc, addNodes_addNodes.
    reflexivity.
Qed.

Lemma tileColors_ok : coloursFrom 0 tileColors.
Proof. vm_compute. repeat split. Qed.

Lemma nth_error_swatches (interestsIndex : Z) (colors : list string) :
  forall (i : Z) (n : nat),
    nth_error (swatches interestsIndex i colors) n
    = option_map (swatchOf interestsIndex (i + Z.of_nat n)) (nth_error colors n).
Proof.
  induction colors as [| c rest IH]; intros i [| n]; cbn [swatches nth_error option_map];
    try reflexivity.
  - rewrite Z.add_0_r. reflexivity.
  - rewrite IH. replace (i + 1 + Z.of_nat n)%Z with (i + Z.of_nat (S n))%Z by lia.
    reflexivity.
Qed.

Lemma length_swatches (interestsIndex : Z) (colors : list string) :
  forall i : Z, List.length (swatches interestsIndex i colors) = List.length colors.
Proof. induction colors as [| c rest IH]; intros i; cbn; [ | rewrite IH ]; reflexivity. Qed.

(** With a mount point, [buildPalette] succeeds and mounts one swatch per
    colour of [tileColors]. *)
Lemma buildPalette_mounts (w : World) (old : list swatch) :
  palette w = Some old ->
  exists w' : World,
    buildPalette w = Ok w'
    /\ palette w'
       = Some (swatches (avoidMid (randomIndex (randoms w (drawn w)))) 0 tileColors).
Proof.
  intros Hold. unfold buildPalette. rewrite Hold.
  cbn [Math_random createNode randoms drawn fst snd].
  change (Z.to_nat TILE_COUNT) with (List.length tileColors).
  rewrite (buildTiles_eq _ tileColors 0%Z [] _ tileColors_ok). cbn [bind].
  eexists. split; reflexivity.
Qed.

Lemma labelOf_swatchOf (interestsIndex i : Z) (color : string) :
  labelOf (swatchOf interestsIndex i color) = Some (labelText i color).
Proof.
  unfold labelOf, swatchOf; cbn [children].
  destruct (i =? MID_INDEX)%Z, (i =? interestsIndex)%Z; reflexivity.
Qed.

(** ** C5 *)

(** C5: whatever the random source returns, the tile at index
    [MID_INDEX = round((TILE_COUNT - 1) / 2)] is mounted with exactly
    [MID_HEX] as its background colour. *)
Theorem landmark_tile_is_mid_anchor (w : World) (old : list swatch) :
  palette w = Some old ->
  exists (w' : World) (tiles : list swatch) (t : swatch),
    buildPalette w = Ok w'
    /\ palette w' = Some tiles
    /\ MID_INDEX = Z_of_num (Math_round ((num_of_Z TILE_COUNT - 1) / 2))
    /\ nth_error tiles (Z.to_nat MID_INDEX) = Some t
    /\ backgroundColor t = MID_HEX.
Proof.
  intros Hold.
  destruct (buildPalette_mounts w old Hold) as (w' & Hrun & Hpal).
  eexists w', _, _.
  split; [exact Hrun | split; [exact Hpal | split; [reflexivity | ]]].
  rewrite nth_error_swatches, MID_INDEX_value.
  split; reflexivity.
Qed.

Lemma landmark_tile_is_mid_anchor_witness :
  exists (w' : World) (tiles : list swatch) (t : swatch),
    buildPalette collidingPage = Ok w'
    /\ palette w' = Some tiles
    /\ MID_INDEX = Z_of_num (Math_round ((num_of_Z TILE_COUNT - 1) / 2))
    /\ nth_error tiles (Z.to_nat MID_INDEX) = Some t
    /\ backgroundColor t = MID_HEX.
Proof. apply (landmark_tile_is_mid_anchor collidingPage []). reflexivity. Defined.

(** ** C7 *)

Lemma ordinal_injective (i j : nat) :
  (i < 60)%nat -> (j < 60)%nat ->
  ordinal (Z.of_nat i) = ordinal (Z.of_nat j) -> i = j.
Proof.
  intros Hi Hj Heq.
  assert (Hall : forallb (fun a => forallb (fun b =>
                    implb (String.eqb (ordinal (Z.of_nat a)) (ordinal (Z.of_nat b)))
                          (a =? b)%nat) (seq 0 60)) (seq 0 60) = true)
    by (vm_compute; reflexivity).
  rewrite forallb_forall in Hall.
  specialize (Hall i ltac:(apply in_seq; lia)).
  rewrite forallb_forall in Hall.
  specialize (Hall j ltac:(apply in_seq; lia)).
  rewrite Heq, String.eqb_refl in Hall.
  apply Nat.eqb_eq. exact Hall.
Qed.

Lemma ordinal_length (i : nat) :
  (i < 60)%nat -> String.length (ordinal (Z.of_nat i)) = 3%nat.
Proof.
  intros Hi.
  assert (Hall : forallb (fun n => (String.length (ordinal (Z.of_nat n)) =? 3)%nat) (seq 0 60) = true)
    by (vm_compute; reflexivity).
  rewrite forallb_forall in Hall.
  apply Nat.eqb_eq, Hall, in_seq. lia.
Qed.

(** C7: with the configured count the mounted grid has exactly 60 tiles;
    the label of tile [i] reads [#], the ordinal [i + 1] padded with zeros
    to three digits, two spaces, and the tile's own colour; the ordinals
    run from [001] to [060] and no two tiles share one. *)
Theorem sixty_labelled_tiles (w : World) (old : list swatch) :
  palette w = Some old ->
  exists (w' : World) (tiles : list swatch),
    buildPalette w = Ok w'
    /\ palette w' = Some tiles
    /\ List.length tiles = 60%nat
    /\ (forall i : nat, (i < 60)%nat ->
          exists t : swatch,
            nth_error tiles i = Some t
            /\ labelOf t
               = Some ("#" ++ padStart 3 "0" (decimal (Z.of_nat i + 1))
                           ++ "  " ++ backgroundColor t)
            /\ String.length (padStart 3 "0" (decimal (Z.of_nat i + 1))) = 3%nat)
    /\ padStart 3 "0" (decimal (0 + 1)) = "001"
    /\ padStart 3 "0" (decimal (59 + 1)) = "060"
    /\ (forall i j : nat, (i < 60)%nat -> (j < 60)%nat ->
          padStart 3 "0" (decimal (Z.of_nat i + 1))
          = padStart 3 "0" (decimal (Z.of_nat j + 1)) -> i = j).
Proof.
  intros Hold.
  destruct (buildPalette_mounts w old Hold) as (w' & Hrun & Hpal).
  exists w'. eexists.
  split; [exact Hrun | split; [exact Hpal | split; [ | split; [ | repeat split ]]]].
  - rewrite length_swatches. reflexivity.
  - intros i Hi.
    rewrite nth_error_swatches.
    destruct (nth_error tileColors i) as [c |] eqn:Hc.
    + eexists. split; [reflexivity | split].
      * rewrite labelOf_swatchOf. reflexivity.
      * exact (ordinal_length i Hi).
    + apply nth_error_None in Hc. change (List.length tileColors) with 60%nat in Hc. lia.
  - exact ordinal_injective.
Qed.

Lemma sixty_labelled_tiles_witness :
  exists (w' : World) (tiles : list swatch),
    buildPalette collidingPage = Ok w'
    /\ palette w' = Some tiles
    /\ List.length tiles = 60%nat
    /\ (forall i : nat, (i < 60)%nat ->
          exists t : swatch,
            nth_error tiles i = Some t
            /\ labelOf t
               = Some ("#" ++ padStart 3 "0" (decimal (Z.of_nat i + 1))
                           ++ "  " ++ backgroundColor t)
            /\ String.length (padStart 3 "0" (decimal (Z.of_nat i + 1))) = 3%nat)
    /\ padStart 3 "0" (decimal (0 + 1)) = "001"
    /\ padStart 3 "0" (decimal (59 + 1)) = "060"
    /\ (forall i j : nat, (i < 60)%nat -> (j < 60)%nat ->
          padStart 3 "0" (decimal (Z.of_nat i + 1))
          = padStart 3 "0" (decimal (Z.of_nat j + 1)) -> i = j).
Proof. apply (sixty_labelled_tiles collidingPage []). reflexivity. Defined.

(** ** C10 *)

(** C10, as stated, fails: for [s = 1] and [l = 2], inside the stated
    ranges, the colour at hue 360 is the colour at hue 0. *)
Lemma hue_360_meets_hue_0 :
  (0 <? 1) = true /\ (1 <=? 100) = true /\ (0 <? 2) = true /\ (2 <? 100) = true
  /\ hslToHex 360 1 2 = "#050505"
  /\ hslToHex 0 1 2 = "#050505".
Proof. repeat split; vm_compute; reflexivity. Qed.

Lemma zero_plus (m : number) : m <> neg_zero -> 0 + m = m.
Proof.
  intros Hm. apply FloatAxioms.Prim2SF_inj. rewrite FloatAxioms.add_spec.
  change (Prim2SF 0) with (S754_zero false).
  destruct (Prim2SF m) as [[|] | | | ] eqn:E; try reflexivity.
  exfalso. apply Hm. apply FloatAxioms.Prim2SF_inj. rewrite E. reflexivity.
Qed.

(** The grey printed for [0 + m] is the one printed for [m]: the sum only
    differs from [m] when [m] is [-0], and both zeros print as [00]. *)
Lemma toHex_zero_plus (m : number) :
  toHex (Math_round ((0 + m) * 255)) = toHex (Math_round (m * 255)).
Proof.
  destruct (Leibniz.eqb m neg_zero) eqn:E.
  - apply FloatAxioms.Leibniz.eqb_spec in E. rewrite E. vm_compute. reflexivity.
  - rewrite zero_plus; [reflexivity | ].
    intros Hm. rewrite Hm in E. vm_compute in E. discriminate E.
Qed.

(** ** C3: the round trip hex -> RGB -> HSL -> hex *)

Lemma roundTripDouble_eq (r g b : number) : roundTrip r g b = roundTripDouble r g b.
Proof. reflexivity. Qed.

(** Every one of the 256 x 256 x 256 colours survives the round trip. *)
Lemma roundTrip_all_bytes :
  forallb (fun r => forallb (fun g => forallb (roundTripDouble r g) bytes) bytes) bytes
  = true.
Proof. vm_compute. reflexivity. Qed.

Lemma roundTrip_bytes (r g b : number) :
  In r bytes -> In g bytes -> In b bytes -> roundTrip r g b = true.
Proof.
  intros Hr Hg Hb. rewrite roundTripDouble_eq.
  pose proof roundTrip_all_bytes as Hall.
  rewrite forallb_forall in Hall. specialize (Hall r Hr).
  rewrite forallb_forall in Hall. specialize (Hall g Hg).
  rewrite forallb_forall in Hall. exact (Hall b Hb).
Qed.

Lemma In_allAscii (c : ascii) : In c allAscii.
Proof.
  rewrite <- (ascii_nat_embedding c). apply in_map, in_seq.
  pose proof (nat_ascii_bounded c). lia.
Qed.

Lemma parse_hex_pair (a b : ascii) :
  isHexChar a = true -> isHexChar b = true ->
  In (parseInt16 (String a (String b EmptyString))) bytes.
Proof.
  intros Ha Hb.
  assert (Hall : forallb readsBytes allAscii = true) by (vm_compute; reflexivity).
  rewrite forallb_forall in Hall. specialize (Hall a (In_allAscii a)).
  unfold readsBytes in Hall. rewrite Ha, forallb_forall in Hall.
  specialize (Hall b (In_allAscii b)). rewrite Hb in Hall.
  apply existsb_exists in Hall. destruct Hall as (x & Hx & Heq).
  apply FloatAxioms.Leibniz.eqb_spec in Heq. rewrite Heq. exact Hx.
Qed.

(** A valid string is parsed, without error, into three of [bytes]. *)
Lemma hexToRgb_valid (hex : string) :
  validHex hex = true ->
  exists r g b : number,
    hexToRgb hex = Ok {| red := r; green := g; blue := b |}
    /\ In r bytes /\ In g bytes /\ In b bytes.
Proof.
  unfold validHex, hexToRgb. intros Hv.
  apply andb_prop in Hv. destruct Hv as [Hlen Hall].
  destruct (clean hex) as [| c1 [| c2 [| c3 [| c4 [| c5 [| c6 [| c7 rest]]]]]]];
    try discriminate Hlen.
  cbn [allChars] in Hall.
  repeat (apply andb_prop in Hall; let H := fresh "Hc" in destruct Hall as [H Hall]).
  cbn [String.length Nat.eqb negb slice substring Nat.sub].
  eexists _, _, _. split; [reflexivity | ].
  repeat split; apply parse_hex_pair; assumption.
Qed.

Lemma lowerHex_not_white (c : ascii) : isLowerHex c = true -> isWhiteSpace c = false.
Proof.
  intros Hc.
  assert (Hall : forallb (fun c => if isLowerHex c then negb (isWhiteSpace c) else true)
                         allAscii = true) by (vm_compute; reflexivity).
  rewrite forallb_forall in Hall. specialize (Hall c (In_allAscii c)).
  rewrite Hc in Hall. apply negb_true_iff. exact Hall.
Qed.

(** Three printed channels are read back channel by channel. *)
Lemma hexToRgb_printed (a1 b1 a2 b2 a3 b3 : ascii) :
  isLowerHex a1 = true -> isLowerHex b3 = true ->
  hexToRgb ("#" ++ String a1 (String b1 EmptyString)
                ++ String a2 (String b2 EmptyString)
                ++ String a3 (String b3 EmptyString))
  = Ok {| red := parseInt16 (String a1 (String b1 EmptyString));
          green := parseInt16 (String a2 (String b2 EmptyString));
          blue := parseInt16 (String a3 (String b3 EmptyString)) |}.
Proof.
  intros H1 H6. apply lowerHex_not_white in H1, H6.
  unfold hexToRgb, clean, trim.
  cbn [String.append dropHash trimStart].
  rewrite H1. cbn [trimEnd]. rewrite H6.
  reflexivity.
Qed.

Lemma printsAs_bytes (r : number) : In r bytes -> printsAs r r = true.
Proof.
  assert (Hall : forallb (fun r => printsAs r r) bytes = true) by (vm_compute; reflexivity).
  rewrite forallb_forall in Hall. exact (Hall r).
Qed.

(** ** C8: the range of the channels of [hslToHex]

    In exact arithmetic the three values that [hslToHex] rounds lie in
    [[0, 255]], so their roundings are integers of that interval
    ([hslToHex_exact_range]).  On binary64 numbers, which is what the
    script computes with, each operation adds a rounding error; the
    values stay within [[-1/2, 255 + 1/2]], and the roundings are the
    same integers. *)

Lemma byte_prints (x : number) :
  x = neg_zero \/ In x bytes -> byteValued x = true /\ twoHexDigits (toHex x) = true.
Proof.
  intros [-> | Hx]; [split; vm_compute; reflexivity | ].
  assert (Hall : forallb (fun x => byteValued x && twoHexDigits (toHex x)) bytes = true)
    by (vm_compute; reflexivity).
  rewrite forallb_forall in Hall. specialize (Hall x Hx).
  apply andb_prop in Hall. exact Hall.
Qed.

Section ExactRange.

Import Exact.
Local Open Scope Q_scope.

Lemma Qdiv_unit (a n : Q) : 0 < n -> 0 <= a <= n -> 0 <= a / n <= 1.
Proof.
  intros Hn [H0 H1]. split.
  - apply Qle_shift_div_l; [exact Hn | lra].
  - apply Qle_shift_div_r; [exact Hn | lra].
Qed.

Lemma Qabs_upper (x y : Q) : - y <= x <= y -> Qabs x <= y.
Proof. intros H. apply Qabs_Qle_condition. exact H. Qed.

Lemma Qabs_lower (x : Q) : x <= Qabs x /\ - x <= Qabs x /\ 0 <= Qabs x.
Proof.
  repeat split.
  - apply Qle_Qabs.
  - rewrite <- Qabs_opp. apply Qle_Qabs.
  - apply Qabs_nonneg.
Qed.

Lemma Qtrunc_floor (q : Q) : 0 <= q -> Qtrunc q = Qfloor q.
Proof.
  destruct q as [n d]. unfold Qle, Qtrunc, Qfloor; cbn. intros Hn.
  apply Z.quot_div_nonneg; lia.
Qed.

Lemma Qrem_two (hh : Q) : 0 <= hh -> 0 <= Qrem hh 2 <= 2.
Proof.
  intros Hh. unfold Qrem.
  assert (Hq : 0 <= hh / 2) by (apply Qle_shift_div_l; lra).
  rewrite (Qtrunc_floor _ Hq).
  pose proof (Qfloor_le (hh / 2)) as Hlo.
  pose proof (Qlt_floor (hh / 2)) as Hhi.
  rewrite inject_Z_plus in Hhi. change (inject_Z 1) with 1 in Hhi.
  set (f := inject_Z (Qfloor (hh / 2))) in *.
  assert (Hhalf : hh / 2 == hh * (1 # 2)) by (unfold Qdiv; reflexivity).
  rewrite Hhalf in Hlo, Hhi.
  split; lra.
Qed.

Lemma chroma_bounds (l s : Q) :
  0 <= l <= 1 -> 0 <= s <= 1 ->
  let c := (1 - Qabs (2 * l - 1)) * s in
  0 <= c /\ 0 <= l - c / 2 /\ c + (l - c / 2) <= 1.
Proof.
  intros Hl Hs c.
  destruct (Qabs_lower (2 * l - 1)) as (Ha1 & Ha2 & _).
  assert (Ha3 : Qabs (2 * l - 1) <= 1) by (apply Qabs_upper; lra).
  set (k := 1 - Qabs (2 * l - 1)) in *.
  assert (Hk : 0 <= k) by (unfold k; lra).
  assert (Hc0 : 0 <= c) by (apply Qmult_le_0_compat; lra).
  assert (Hck : c <= k).
  { assert (0 <= k * (1 - s)) by (apply Qmult_le_0_compat; lra).
    unfold c. lra. }
  assert (Hhalf : c / 2 == c * (1 # 2)) by (unfold Qdiv; reflexivity).
  rewrite Hhalf. unfold k in Hck.
  repeat split; lra.
Qed.

Lemma second_bounds (c t : Q) :
  0 <= c -> 0 <= t <= 2 -> 0 <= c * (1 - Qabs (t - 1)) <= c.
Proof.
  intros Hc Ht.
  destruct (Qabs_lower (t - 1)) as (_ & _ & Ha0).
  assert (Ha1 : Qabs (t - 1) <= 1) by (apply Qabs_upper; lra).
  split.
  - apply Qmult_le_0_compat; lra.
  - assert (0 <= c * Qabs (t - 1)) by (apply Qmult_le_0_compat; lra). lra.
Qed.

Lemma Qround_byte (v m : Q) :
  0 <= v + m <= 1 ->
  exists z : Z, Qround ((v + m) * 255) = inject_Z z /\ (0 <= z <= 255)%Z.
Proof.
  intros H. unfold Qround. eexists. split; [reflexivity | ].
  assert (Hlo : (Qfloor 0 <= Qfloor ((v + m) * 255 + (1 # 2)))%Z)
    by (apply Qfloor_resp_le; lra).
  assert (Hhi : (Qfloor ((v + m) * 255 + (1 # 2)) <= Qfloor (255 + (1 # 2)))%Z)
    by (apply Qfloor_resp_le; lra).
  split; [exact Hlo | exact Hhi].
Qed.

Ltac fold_lits :=
  repeat match goal with
         | |- context [inject_Z (Uint63.to_Z ?n)] =>
             let v := eval vm_compute in (inject_Z (Uint63.to_Z n)) in
             change (inject_Z (Uint63.to_Z n)) with v
         end.

(** Over exact arithmetic the rounded channels are integers of [0, 255]. *)
Lemma hslChannels_bytes (h s l : Q) :
  0 <= h < 360 -> 0 <= s <= 100 -> 0 <= l <= 100 ->
  exists r g b : Z,
    hslChannels h s l = (inject_Z r, inject_Z g, inject_Z b)
    /\ (0 <= r <= 255)%Z /\ (0 <= g <= 255)%Z /\ (0 <= b <= 255)%Z.
Proof.
  intros Hh Hs Hl.
  unfold hslChannels.
  cbn [Num.lit Num.add Num.sub Num.mul Num.div Num.rem Num.abs Num.round
       Num.leb Num.ltb Exact.arith].
  fold_lits.
  assert (Hs' : 0 <= s / 100 <= 1) by (apply Qdiv_unit; lra).
  assert (Hl' : 0 <= l / 100 <= 1) by (apply Qdiv_unit; lra).
  assert (Hhh : 0 <= h / 60) by (apply Qle_shift_div_l; lra).
  set (s' := s / 100) in *. set (l' := l / 100) in *. set (hh := h / 60) in *.
  destruct (chroma_bounds l' s' Hl' Hs') as (Hc & Hm & Hcm).
  set (c := (1 - Qabs (2 * l' - 1)) * s') in *.
  pose proof (second_bounds c (Qrem hh 2) Hc (Qrem_two hh Hhh)) as Hx.
  set (x := c * (1 - Qabs (Qrem hh 2 - 1))) in *.
  set (m := l' - c / 2) in *.
  assert (B0 : 0 <= 0 + m <= 1) by lra.
  assert (Bx : 0 <= x + m <= 1) by lra.
  assert (Bc : 0 <= c + m <= 1) by lra.
  destruct (Qround_byte 0 m B0) as (z0 & E0 & R0).
  destruct (Qround_byte x m Bx) as (zx & Ex & Rx).
  destruct (Qround_byte c m Bc) as (zc & Ec & Rc).
  repeat match goal with
         | |- context [if ?b then _ else _] => destruct b
         end;
    rewrite ?E0, ?Ex, ?Ec; eexists _, _, _; (split; [reflexivity | auto]).
Qed.


Lemma hexField_byte (z : Z) :
  (0 <= z <= 255)%Z ->
  toHex (inject_Z z) = hexField z /\ twoHexDigits (hexField z) = true.
Proof.
  intros Hz.
  assert (Hall : forallb (fun n => String.eqb (toHex (inject_Z (Z.of_nat n)))
                                              (hexField (Z.of_nat n))
                                   && twoHexDigits (hexField (Z.of_nat n)))
                         (seq 0 256) = true) by (vm_compute; reflexivity).
  rewrite forallb_forall in Hall.
  specialize (Hall (Z.to_nat z) ltac:(apply in_seq; lia)).
  rewrite Z2Nat.id in Hall by lia.
  apply andb_prop in Hall. destruct Hall as [Heq Htwo].
  apply String.eqb_eq in Heq. split; assumption.
Qed.

Lemma hslToHex_exact_range (h s l : Q) :
  0 <= h < 360 -> 0 <= s <= 100 -> 0 <= l <= 100 ->
  exists r g b : Z,
    hslChannels h s l = (inject_Z r, inject_Z g, inject_Z b)
    /\ (0 <= r <= 255)%Z /\ (0 <= g <= 255)%Z /\ (0 <= b <= 255)%Z
    /\ hslToHex h s l = ("#" ++ hexField r ++ hexField g ++ hexField b)%string
    /\ twoHexDigits (hexField r) = true
    /\ twoHexDigits (hexField g) = true
    /\ twoHexDigits (hexField b) = true.
Proof.
  intros Hh Hs Hl.
  destruct (hslChannels_bytes h s l Hh Hs Hl) as (r & g & b & Hch & Hr & Hg & Hb).
  exists r, g, b.
  destruct (hexField_byte r Hr) as [Er Tr].
  destruct (hexField_byte g Hg) as [Eg Tg].
  destruct (hexField_byte b Hb) as [Eb Tb].
  unfold hslToHex. rewrite Hch, Er, Eg, Eb.
  repeat split; assumption || apply Hr || apply Hg || apply Hb.
Qed.

End ExactRange.

(** ** The rounding of binary64 operations

    From the specification of the primitive operations ([FloatAxioms],
    over [SpecFloat]) to bounds on values: an operation on finite numbers
    whose exact result is of moderate size returns a finite number within
    a relative [2^-50] (and an absolute [2^-1072]) of the exact result;
    comparisons agree with the order of the values. *)

Module Rounding.

Import Binary64.
Local Open Scope Q_scope.

(** *** Powers of two *)

Lemma bpow_pos (e : Z) : 0 < bpow e.
Proof. apply Qpower_0_lt. reflexivity. Qed.

Lemma bpow_add (a b : Z) : bpow (a + b) == bpow a * bpow b.
Proof. apply Qpower_plus. discriminate. Qed.

Lemma bpow_0 : bpow 0 == 1.
Proof. reflexivity. Qed.

Lemma bpow_1 : bpow 1 == 2.
Proof. reflexivity. Qed.

Lemma bpow_succ (e : Z) : bpow (e + 1) == 2 * bpow e.
Proof. rewrite bpow_add, bpow_1. ring. Qed.

Lemma bpow_le (a b : Z) : (a <= b)%Z -> bpow a <= bpow b.
Proof. intros H. apply Qpower_le_compat_l; [exact H | discriminate]. Qed.

Lemma bpow_lt (a b : Z) : (a < b)%Z -> bpow a < bpow b.
Proof. intros H. apply Qpower_lt_compat_l; [exact H | reflexivity]. Qed.

Lemma bpow_inject (n : Z) : (0 <= n)%Z -> bpow n == inject_Z (2 ^ n).
Proof. intros H. unfold bpow. rewrite Zpower_Qpower by exact H. reflexivity. Qed.

Lemma bpow_sub (a b : Z) : bpow (a - b) == bpow a / bpow b.
Proof.
  unfold Z.sub. rewrite bpow_add. unfold bpow at 2. rewrite Qpower_opp. reflexivity.
Qed.

(** *** Number of binary digits *)

Lemma digits2_pos_spec (m : positive) :
  (2 ^ (Z.pos (digits2_pos m) - 1) <= Z.pos m < 2 ^ Z.pos (digits2_pos m))%Z.
Proof.
  induction m as [m IH | m IH | ]; cbn [digits2_pos].
  - rewrite Pos2Z.inj_succ. replace (Z.succ (Z.pos (digits2_pos m)) - 1)%Z
      with (Z.succ (Z.pos (digits2_pos m) - 1))%Z by lia.
    rewrite !Z.pow_succ_r by lia. lia.
  - rewrite Pos2Z.inj_succ. replace (Z.succ (Z.pos (digits2_pos m)) - 1)%Z
      with (Z.succ (Z.pos (digits2_pos m) - 1))%Z by lia.
    rewrite !Z.pow_succ_r by lia. lia.
  - cbn. lia.
Qed.

Lemma Zdigits2_nonneg (m : Z) : (0 <= Zdigits2 m)%Z.
Proof. destruct m; cbn; lia. Qed.

Lemma Zdigits2_spec (m : Z) :
  (0 < m)%Z -> (2 ^ (Zdigits2 m - 1) <= m < 2 ^ Zdigits2 m)%Z.
Proof. destruct m as [| p | p]; try lia. intros _. apply digits2_pos_spec. Qed.

(** A number below [2^d] has at most [d] digits; one from [2^(d-1)] on has
    at least [d]. *)
Lemma Zdigits2_le (m d : Z) : (0 <= d)%Z -> (0 <= m < 2 ^ d)%Z -> (Zdigits2 m <= d)%Z.
Proof.
  intros Hd [H0 Hm].
  destruct (Z.eq_dec m 0) as [-> | Hne]; [cbn; lia | ].
  pose proof (Zdigits2_spec m ltac:(lia)) as [Hlo _].
  destruct (Z_le_gt_dec (Zdigits2 m) d) as [Hle | Hgt]; [exact Hle | exfalso].
  assert (2 ^ d <= 2 ^ (Zdigits2 m - 1))%Z by (apply Z.pow_le_mono_r; lia).
  lia.
Qed.

Lemma Zdigits2_ge (m d : Z) : (2 ^ (d - 1) <= m)%Z -> (0 < m)%Z -> (d <= Zdigits2 m)%Z.
Proof.
  intros Hm Hpos.
  pose proof (Zdigits2_spec m Hpos) as [_ Hhi].
  pose proof (Zdigits2_nonneg m).
  destruct (Z_le_gt_dec d (Zdigits2 m)) as [Hle | Hgt]; [exact Hle | exfalso].
  assert (2 ^ Zdigits2 m <= 2 ^ (d - 1))%Z by (apply Z.pow_le_mono_r; lia).
  lia.
Qed.

(** *** Locations *)

Lemma inbetween_bounds (mrs : shr_record) (v : Q) :
  inbetween mrs v -> inject_Z (shr_m mrs) <= v < inject_Z (shr_m mrs) + 1.
Proof.
  unfold inbetween. destruct (shr_r mrs), (shr_s mrs); intros H; lra.
Qed.

#[export] Instance inbetween_proper (mrs : shr_record) :
  Proper (Qeq ==> iff) (inbetween mrs).
Proof.
  intros v w E. unfold inbetween.
  destruct (shr_r mrs), (shr_s mrs); rewrite E; reflexivity.
Qed.

Lemma inject_Z_double (p : Z) : inject_Z (2 * p) == 2 * inject_Z p.
Proof. rewrite inject_Z_mult. reflexivity. Qed.

Lemma inject_Z_double_1 (p : Z) : inject_Z (2 * p + 1) == 2 * inject_Z p + 1.
Proof. rewrite inject_Z_plus, inject_Z_mult. reflexivity. Qed.

Lemma shr_1_spec (mrs : shr_record) (v : Q) :
  (0 <= shr_m mrs)%Z -> inbetween mrs v ->
  inbetween (shr_1 mrs) (v * (1 # 2)) /\ (0 <= shr_m (shr_1 mrs))%Z
  /\ shr_m (shr_1 mrs) = (shr_m mrs / 2)%Z.
Proof.
  destruct mrs as [m r s]. cbn [shr_m]. intros Hm Hv.
  destruct m as [| [p | p |] | p]; try lia;
    unfold inbetween in Hv |- *; cbn [shr_1 shr_m shr_r shr_s] in Hv |- *.
  - (* 0 *)
    change (inject_Z 0) with 0 in *.
    split; [ | split; [lia | reflexivity ]].
    destruct r, s; cbn [orb]; lra.
  - (* 2p + 1 *)
    pose proof (inject_Z_double_1 (Z.pos p)) as E. change (2 * Z.pos p + 1)%Z with (Z.pos p~1) in E.
    split; [ | split; [lia | rewrite Pos2Z.inj_xI; apply Z.div_unique with 1%Z; lia ]].
    destruct r, s; cbn [orb]; lra.
  - (* 2p *)
    pose proof (inject_Z_double (Z.pos p)) as E. change (2 * Z.pos p)%Z with (Z.pos p~0) in E.
    split; [ | split; [lia | rewrite Pos2Z.inj_xO; apply Z.div_unique with 0%Z; lia ]].
    destruct r, s; cbn [orb]; lra.
  - (* 1 *)
    change (inject_Z 1) with 1 in Hv. change (inject_Z 0) with 0.
    split; [ | split; [lia | reflexivity ]].
    destruct r, s; cbn [orb]; lra.
Qed.

(** *** Shifting a located value *)

Lemma iter_shr_1 (p : positive) :
  forall (mrs : shr_record) (v : Q),
    (0 <= shr_m mrs)%Z -> inbetween mrs v ->
    inbetween (iter_pos shr_1 p mrs) (v / bpow (Z.pos p))
    /\ (0 <= shr_m (iter_pos shr_1 p mrs))%Z
    /\ shr_m (iter_pos shr_1 p mrs) = (shr_m mrs / 2 ^ Z.pos p)%Z.
Proof.
  induction p as [p IH | p IH | ]; intros mrs v Hm Hv; cbn [iter_pos].
  - destruct (shr_1_spec mrs v Hm Hv) as (H1 & M1 & E1).
    destruct (IH _ _ M1 H1) as (H2 & M2 & E2).
    destruct (IH _ _ M2 H2) as (H3 & M3 & E3).
    split; [ | split; [exact M3 | ]].
    + assert (Ev : v / bpow (Z.pos p~1) == v * (1 # 2) / bpow (Z.pos p) / bpow (Z.pos p)).
      { rewrite Pos2Z.inj_xI.
        replace (2 * Z.pos p + 1)%Z with (Z.pos p + Z.pos p + 1)%Z by lia.
        rewrite !bpow_add, bpow_1.
        pose proof (bpow_pos (Z.pos p)). field. lra. }
      rewrite Ev. exact H3.
    + rewrite E3, E2, E1, !Z.div_div by lia.
      f_equal. change 2%Z with (2 ^ 1)%Z at 1.
      rewrite <- !Z.pow_add_r by lia. f_equal. lia.
  - destruct (IH _ _ Hm Hv) as (H2 & M2 & E2).
    destruct (IH _ _ M2 H2) as (H3 & M3 & E3).
    split; [ | split; [exact M3 | ]].
    + assert (Ev : v / bpow (Z.pos p~0) == v / bpow (Z.pos p) / bpow (Z.pos p)).
      { rewrite Pos2Z.inj_xO.
        replace (2 * Z.pos p)%Z with (Z.pos p + Z.pos p)%Z by lia.
        rewrite !bpow_add.
        pose proof (bpow_pos (Z.pos p)). field. lra. }
      rewrite Ev. exact H3.
    + rewrite E3, E2, !Z.div_div by lia.
      f_equal. rewrite <- !Z.pow_add_r by lia. f_equal. lia.
  - destruct (shr_1_spec mrs v Hm Hv) as (H1 & M1 & E1).
    split; [ | split; [exact M1 | exact E1]].
    assert (Ev : v / bpow 1 == v * (1 # 2)) by (rewrite bpow_1; field).
    rewrite Ev. exact H1.
Qed.

Lemma shr_spec (mrs : shr_record) (e n : Z) (V : Q) :
  (0 <= shr_m mrs)%Z -> inbetween mrs (V / bpow e) ->
  let '(mrs', e') := shr mrs e n in
  inbetween mrs' (V / bpow e') /\ (0 <= shr_m mrs')%Z
  /\ e' = (e + Z.max n 0)%Z
  /\ shr_m mrs' = (shr_m mrs / 2 ^ Z.max n 0)%Z.
Proof.
  intros Hm Hv. unfold shr.
  destruct n as [| p | p].
  - rewrite Z.add_0_r. cbn [Z.max]. rewrite Z.div_1_r. repeat split; assumption.
  - destruct (iter_shr_1 p mrs _ Hm Hv) as (H1 & M1 & E1).
    replace (Z.max (Z.pos p) 0) with (Z.pos p) by lia.
    split; [ | split; [exact M1 | split; [reflexivity | exact E1]]].
    assert (Ev : V / bpow (e + Z.pos p) == V / bpow e / bpow (Z.pos p)).
    { rewrite bpow_add. pose proof (bpow_pos e). pose proof (bpow_pos (Z.pos p)).
      field. lra. }
    rewrite Ev. exact H1.
  - replace (Z.max (Z.neg p) 0) with 0%Z by lia.
    rewrite Z.add_0_r, Z.div_1_r. repeat split; assumption.
Qed.

(** *** Binary64 *)

Lemma fexp64_eq (z : Z) : fexp64 z = Z.max (z - 53) (-1074).
Proof. reflexivity. Qed.

Definition record_of (m : Z) (l : location) : shr_record := shr_record_of_loc m l.

Lemma shr_m_record_of (m : Z) (l : location) : shr_m (shr_record_of_loc m l) = m.
Proof. destruct l as [| []]; reflexivity. Qed.

Lemma loc_of_record_of (m : Z) (l : location) :
  loc_of_shr_record (shr_record_of_loc m l) = l.
Proof. destruct l as [| []]; reflexivity. Qed.

Lemma shr_fexp_spec (m e : Z) (l : location) (V : Q) :
  (0 <= m)%Z -> inbetween (shr_record_of_loc m l) (V / bpow e) ->
  let '(mrs', e') := shr_fexp prec emax m e l in
  inbetween mrs' (V / bpow e') /\ (0 <= shr_m mrs')%Z
  /\ e' = Z.max e (fexp64 (Zdigits2 m + e))
  /\ shr_m mrs' = (m / 2 ^ (e' - e))%Z.
Proof.
  intros Hm Hv. unfold shr_fexp.
  pose proof (shr_spec (shr_record_of_loc m l) e (fexp64 (Zdigits2 m + e) - e) V) as H.
  rewrite shr_m_record_of in H. specialize (H Hm Hv).
  destruct (shr (shr_record_of_loc m l) e (fexp64 (Zdigits2 m + e) - e)) as [mrs' e'].
  destruct H as (H1 & H2 & H3 & H4).
  split; [exact H1 | split; [exact H2 | split; [lia | ]]].
  rewrite H4. f_equal. f_equal. lia.
Qed.

(** *** Rounding to nearest, ties to even *)

Lemma round_nearest_even_spec (mrs : shr_record) (v : Q) :
  inbetween mrs v ->
  let r := round_nearest_even (shr_m mrs) (loc_of_shr_record mrs) in
  (shr_m mrs <= r <= shr_m mrs + 1)%Z
  /\ Qabs (inject_Z r - v) <= 1 # 2
  /\ (shr_r mrs = false -> shr_s mrs = false -> r = shr_m mrs).
Proof.
  destruct mrs as [m r s]. unfold inbetween. cbn [shr_m shr_r shr_s].
  intros Hv.
  assert (E1 : inject_Z (m + 1) == inject_Z m + 1) by (rewrite inject_Z_plus; reflexivity).
  destruct r, s; cbn [loc_of_shr_record round_nearest_even].
  - split; [lia | split; [ | discriminate]].
    apply Qabs_Qle_condition. rewrite E1. lra.
  - destruct (Z.even m); (split; [lia | split; [ | discriminate]]);
      apply Qabs_Qle_condition; rewrite ?E1; lra.
  - split; [lia | split; [ | discriminate]].
    apply Qabs_Qle_condition. lra.
  - split; [lia | split; [ | reflexivity]].
    apply Qabs_Qle_condition. lra.
Qed.

(** *** From powers of two to exponents *)

Lemma bpow_lt_inv (a b : Z) : bpow a < bpow b -> (a < b)%Z.
Proof. intros H. apply (Qpower_lt_compat_l_inv 2); [exact H | reflexivity]. Qed.

Lemma bpow_le_inv (a b : Z) : bpow a <= bpow b -> (a <= b)%Z.
Proof. intros H. apply (Qpower_le_compat_l_inv 2); [exact H | reflexivity]. Qed.

Lemma Qle_div_iff (a b c : Q) : 0 < c -> (a <= b / c <-> a * c <= b).
Proof.
  intros Hc. rewrite <- (Qmult_le_r a (b / c) c Hc).
  assert (E : b / c * c == b) by (field; lra).
  rewrite E. reflexivity.
Qed.

Lemma Qlt_div_iff (a b c : Q) : 0 < c -> (b / c < a <-> b < a * c).
Proof.
  intros Hc. rewrite <- (Qmult_lt_r (b / c) a c Hc).
  assert (E : b / c * c == b) by (field; lra).
  rewrite E. reflexivity.
Qed.

(** A positive integer with [d] digits, scaled by [2^e], is at least
    [2^(d + e - 1)]. *)
Lemma scaled_ge (m e : Z) :
  (0 < m)%Z -> bpow (Zdigits2 m + e - 1) <= inject_Z m * bpow e.
Proof.
  intros Hm.
  pose proof (Zdigits2_spec m Hm) as [Hlo _].
  pose proof (Zdigits2_nonneg m) as Hd.
  assert (Hd1 : (1 <= Zdigits2 m)%Z).
  { destruct m; try lia. cbn. lia. }
  replace (Zdigits2 m + e - 1)%Z with ((Zdigits2 m - 1) + e)%Z by lia.
  rewrite bpow_add, (bpow_inject (Zdigits2 m - 1)) by lia.
  apply Qmult_le_compat_r; [ | apply Qlt_le_weak, bpow_pos].
  rewrite <- Zle_Qle. exact Hlo.
Qed.

Lemma scaled_lt (m e : Z) :
  (0 <= m)%Z -> inject_Z m * bpow e < bpow (Zdigits2 m + e).
Proof.
  intros Hm.
  pose proof (Zdigits2_nonneg m) as Hd.
  rewrite bpow_add, (bpow_inject (Zdigits2 m)) by lia.
  apply Qmult_lt_compat_r; [apply bpow_pos | ].
  rewrite <- Zlt_Qlt.
  destruct (Z.eq_dec m 0) as [-> | Hne]; [cbn; lia | ].
  apply (Zdigits2_spec m). lia.
Qed.

(** *** [binary_round_aux] *)

Section RoundAux.

Variables (sx : bool) (mx ex : Z) (lx : location) (V : Q).
Hypothesis Hmx : (0 <= mx)%Z.
Hypothesis Hex : (ex <= fexp64 (Zdigits2 mx + ex))%Z.
Hypothesis HV : inbetween (shr_record_of_loc mx lx) (V / bpow ex).
Hypothesis Hbig : V < bpow 1000.

Lemma V_ge_mx : inject_Z mx * bpow ex <= V.
Proof.
  pose proof (inbetween_bounds _ _ HV) as [Hlo _].
  rewrite shr_m_record_of in Hlo.
  pose proof (bpow_pos ex) as Hp.
  apply Qle_div_iff in Hlo; [exact Hlo | exact Hp].
Qed.

Lemma V_nonneg : 0 <= V.
Proof.
  pose proof V_ge_mx. pose proof (bpow_pos ex).
  assert (0 <= inject_Z mx) by (change 0 with (inject_Z 0); rewrite <- Zle_Qle; exact Hmx).
  assert (0 <= inject_Z mx * bpow ex) by (apply Qmult_le_0_compat; lra).
  lra.
Qed.

Theorem binary_round_aux_spec :
  exists (m e : Z),
    binary_round_aux prec emax sx mx ex lx
    = match m with
      | Z.pos p => S754_finite sx p e
      | _ => S754_zero sx
      end
    /\ (0 <= m)%Z
    /\ Qabs (inject_Z m * bpow e - V) <= (3 # 2) * bpow e
    /\ (m = 0%Z -> e = (-1074)%Z).
Proof.
  unfold binary_round_aux.
  pose proof (shr_fexp_spec mx ex lx V Hmx HV) as H1.
  destruct (shr_fexp prec emax mx ex lx) as [mrs' e'].
  destruct H1 as (I1 & M1 & E1 & D1).
  assert (E1' : e' = fexp64 (Zdigits2 mx + ex)) by lia.
  pose proof (round_nearest_even_spec mrs' _ I1) as (R1 & R2 & _).
  set (mr := round_nearest_even (shr_m mrs') (loc_of_shr_record mrs')) in *.
  assert (Hmr : (0 <= mr)%Z) by lia.
  assert (I2 : inbetween (shr_record_of_loc mr loc_Exact) (inject_Z mr * bpow e' / bpow e')).
  { unfold inbetween. cbn. pose proof (bpow_pos e'). field. lra. }
  pose proof (shr_fexp_spec mr e' loc_Exact _ Hmr I2) as H2.
  destruct (shr_fexp prec emax mr e' loc_Exact) as [mrs'' e''].
  destruct H2 as (I3 & M3 & E3 & D3).
  (* sizes *)
  pose proof V_ge_mx as Vmx. pose proof V_nonneg as V0.
  pose proof (bpow_pos e') as Pe'. pose proof (bpow_pos e'') as Pe''.
  pose proof (bpow_pos ex) as Pex.
  assert (Le : bpow e' <= bpow e'') by (apply bpow_le; lia).
  (* the rounded value against V *)
  assert (A1 : Qabs (inject_Z mr * bpow e' - V) <= (1 # 2) * bpow e').
  { assert (Eq : inject_Z mr * bpow e' - V == (inject_Z mr - V / bpow e') * bpow e')
      by (field; lra).
    rewrite Eq, Qabs_Qmult, (Qabs_pos (bpow e')) by lra.
    apply Qmult_le_compat_r; [exact R2 | lra]. }
  (* the second shift *)
  pose proof (inbetween_bounds _ _ I3) as [B1 B2].
  assert (A2 : Qabs (inject_Z (shr_m mrs'') * bpow e'' - inject_Z mr * bpow e') <= bpow e'').
  { apply Qle_div_iff in B1; [ | exact Pe''].
    apply Qlt_div_iff in B2; [ | exact Pe''].
    apply Qabs_Qle_condition. lra. }
  assert (A3 : Qabs (inject_Z (shr_m mrs'') * bpow e'' - V) <= (3 # 2) * bpow e'').
  { apply Qabs_Qle_condition in A1, A2. apply Qabs_Qle_condition. lra. }
  (* exponents are far from overflow *)
  assert (X1 : (e' <= 947)%Z).
  { destruct (Z.eq_dec mx 0) as [-> | Hne].
    - cbn in E1'. rewrite fexp64_eq in E1'. rewrite fexp64_eq in Hex. cbn in Hex. lia.
    - pose proof (scaled_ge mx ex ltac:(lia)) as S1.
      assert (Hlt : bpow (Zdigits2 mx + ex - 1) < bpow 1000) by lra.
      apply bpow_lt_inv in Hlt. rewrite E1', fexp64_eq. lia. }
  assert (X2 : (e'' <= 948)%Z).
  { destruct (Z.eq_dec mr 0) as [Hz | Hne].
    - rewrite Hz in E3. cbn in E3. rewrite fexp64_eq in E3. lia.
    - pose proof (scaled_ge mr e' ltac:(lia)) as S1.
      apply Qabs_Qle_condition in A1.
      assert (Hb : bpow e' <= bpow 947) by (apply bpow_le; lia).
      assert (Hb2 : bpow 947 < bpow 1000) by (apply bpow_lt; lia).
      assert (Hb3 : bpow 1000 + bpow 1000 == bpow 1001).
      { change 1001%Z with (1000 + 1)%Z. rewrite bpow_succ. ring. }
      assert (Hlt : bpow (Zdigits2 mr + e' - 1) < bpow 1001) by lra.
      apply bpow_lt_inv in Hlt. rewrite E3, fexp64_eq. lia. }
  (* a zero result comes from the bottom of the range *)
  assert (Z0 : shr_m mrs'' = 0%Z -> e'' = (-1074)%Z).
  { intros Hz. rewrite Hz in D3. symmetry in D3.
    assert (Hsmall : (mr < 2 ^ (e'' - e'))%Z).
    { apply Z.div_small_iff in D3; [ | apply Z.pow_nonzero; lia].
      destruct D3 as [D3 | D3]; [lia | ].
      assert (0 < 2 ^ (e'' - e'))%Z by (apply Z.pow_pos_nonneg; lia). lia. }
    assert (Hd : (Zdigits2 mr <= e'' - e')%Z) by (apply Zdigits2_le; lia).
    destruct (Z.eq_dec mr 0) as [Hmr0 | Hmr0].
    - (* nothing was left after the first shift: it already reached the bottom *)
      assert (Hm' : shr_m mrs' = 0%Z) by lia.
      rewrite Hm' in D1. symmetry in D1.
      assert (Hsmall' : (mx < 2 ^ (e' - ex))%Z).
      { apply Z.div_small_iff in D1; [ | apply Z.pow_nonzero; lia].
        destruct D1 as [D1 | D1]; [lia | ].
        assert (0 < 2 ^ (e' - ex))%Z by (apply Z.pow_pos_nonneg; lia). lia. }
      assert (Hd' : (Zdigits2 mx <= e' - ex)%Z) by (apply Zdigits2_le; lia).
      rewrite Hmr0 in E3. cbn in E3. rewrite fexp64_eq in E3, E1'. lia.
    - assert (1 <= Zdigits2 mr)%Z by (destruct mr; cbn; lia).
      rewrite fexp64_eq in E3. lia. }
  exists (shr_m mrs''), e''.
  split; [ | split; [exact M3 | split; [exact A3 | exact Z0]]].
  destruct (shr_m mrs'') as [| p | p]; try reflexivity; [ | lia].
  assert (Hle : (e'' <=? emax - prec)%Z = true) by (apply Z.leb_le; cbn; lia).
  rewrite Hle. reflexivity.
Qed.

End RoundAux.

(** *** Values of binary64 numbers *)

Lemma sign_of_abs (s : bool) (q : Q) : 0 <= q -> Qabs (sign_of s * q) == q.
Proof.
  intros Hq. destruct s; unfold sign_of.
  - assert (E : - (1) * q == - q) by ring. rewrite E, Qabs_opp. apply Qabs_pos. exact Hq.
  - rewrite Qmult_1_l. apply Qabs_pos. exact Hq.
Qed.

Lemma sign_of_xorb (a b : bool) : sign_of (xorb a b) == sign_of a * sign_of b.
Proof. destruct a, b; unfold sign_of; cbn; ring. Qed.

Lemma mant_pos (m : positive) (e : Z) : 0 < inject_Z (Z.pos m) * bpow e.
Proof.
  apply Qmult_lt_0_compat; [ | apply bpow_pos].
  change 0 with (inject_Z 0). rewrite <- Zlt_Qlt. lia.
Qed.

(** *** Validity *)

Lemma valid_finite (s : bool) (m : positive) (e : Z) :
  valid_binary (S754_finite s m e) = true ->
  (Zdigits2 (Z.pos m) <= 53)%Z /\ (-1074 <= e <= 971)%Z
  /\ (e = (-1074)%Z \/ Zdigits2 (Z.pos m) = 53%Z).
Proof.
  unfold valid_binary, bounded, canonical_mantissa. intros H.
  apply andb_prop in H. destruct H as [H1 H2].
  apply Z.eqb_eq in H1. apply Z.leb_le in H2.
  change (Z.pos (digits2_pos m)) with (Zdigits2 (Z.pos m)) in H1.
  rewrite fexp64_eq in H1. cbn in H2. lia.
Qed.

Lemma Prim2SF_finite_valid (x : float) (s : bool) (m : positive) (e : Z) :
  Prim2SF x = S754_finite s m e ->
  (Zdigits2 (Z.pos m) <= 53)%Z /\ (-1074 <= e <= 971)%Z
  /\ (e = (-1074)%Z \/ Zdigits2 (Z.pos m) = 53%Z).
Proof.
  intros E. apply (valid_finite s). rewrite <- E. apply Prim2SF_valid.
Qed.

(** The unit in the last place of a valid number against its value. *)
Lemma ulp_le (s : bool) (m : positive) (e : Z) :
  valid_binary (S754_finite s m e) = true ->
  bpow e <= inject_Z (Z.pos m) * bpow e * bpow (-52) + bpow (-1074).
Proof.
  intros Hv. destruct (valid_finite s m e Hv) as (Hd & He & [H | H]).
  - rewrite H. pose proof (mant_pos m (-1074)). pose proof (bpow_pos (-52)).
    assert (0 <= inject_Z (Z.pos m) * bpow (-1074) * bpow (-52))
      by (apply Qmult_le_0_compat; lra).
    lra.
  - pose proof (scaled_ge (Z.pos m) e ltac:(lia)) as S1. rewrite H in S1.
    assert (E : bpow e == bpow (53 + e - 1) * bpow (-52)).
    { rewrite <- bpow_add. replace (53 + e - 1 + -52)%Z with e by lia. reflexivity. }
    pose proof (bpow_pos (-52)). pose proof (bpow_pos (-1074)).
    assert (bpow (53 + e - 1) * bpow (-52) <= inject_Z (Z.pos m) * bpow e * bpow (-52))
      by (apply Qmult_le_compat_r; lra).
    lra.
Qed.

(** *** The error of one rounding

    The outcome [z] of [binary_round_aux], when it is a valid number, is
    within a relative [2^-50] and an absolute [2^-1072] of the exact
    value. *)
Lemma round_error (sx : bool) (m e : Z) (V : Q) (z : spec_float) :
  z = match m with Z.pos p => S754_finite sx p e | _ => S754_zero sx end ->
  valid_binary z = true ->
  (0 <= m)%Z -> 0 <= V ->
  Qabs (inject_Z m * bpow e - V) <= (3 # 2) * bpow e ->
  (m = 0%Z -> e = (-1074)%Z) ->
  SFfin z = true
  /\ Qabs (SFval z - sign_of sx * V) <= bpow (-50) * V + bpow (-1072).
Proof.
  intros Hz Hval Hm HV Herr Hzero.
  assert (P50 : bpow (-50) == 1 # 1125899906842624) by reflexivity.
  assert (P52 : bpow (-52) == 1 # 4503599627370496) by reflexivity.
  assert (P1072 : bpow (-1072) == 4 * bpow (-1074)).
  { change (-1072)%Z with (2 + -1074)%Z. rewrite bpow_add. reflexivity. }
  pose proof (bpow_pos (-1074)) as Pm.
  destruct m as [| p | p]; [ | | lia].
  - subst z. split; [reflexivity | ].
    rewrite (Hzero eq_refl) in Herr. cbn [SFval].
    change (inject_Z 0) with 0 in Herr.
    apply Qabs_Qle_condition in Herr.
    assert (E : 0 - sign_of sx * V == sign_of sx * (- V)) by ring.
    rewrite E.
    assert (Ea : Qabs (sign_of sx * - V) == V).
    { destruct sx; unfold sign_of.
      - assert (E2 : - (1) * - V == V) by ring. rewrite E2. apply Qabs_pos. exact HV.
      - rewrite Qmult_1_l, Qabs_opp. apply Qabs_pos. exact HV. }
    rewrite Ea.
    assert (0 <= bpow (-50) * V) by (apply Qmult_le_0_compat; [rewrite P50; lra | exact HV]).
    lra.
  - subst z. split; [reflexivity | ].
    pose proof (ulp_le sx p e Hval) as Hu.
    pose proof (mant_pos p e) as Hp.
    set (R := inject_Z (Z.pos p) * bpow e) in *.
    cbn [SFval]. fold R.
    assert (E : sign_of sx * R - sign_of sx * V == sign_of sx * (R - V)) by ring.
    rewrite E.
    assert (Ea : Qabs (sign_of sx * (R - V)) == Qabs (R - V)).
    { rewrite Qabs_Qmult. destruct sx; unfold sign_of.
      - change (Qabs (- (1))) with 1. ring.
      - change (Qabs 1) with 1. ring. }
    rewrite Ea.
    apply Qabs_Qle_condition in Herr.
    rewrite P52 in Hu. rewrite P50.
    apply Qabs_Qle_condition. lra.
Qed.

Lemma inbetween_exact (m e : Z) :
  inbetween (shr_record_of_loc m loc_Exact) (inject_Z m * bpow e / bpow e).
Proof. unfold inbetween. cbn. pose proof (bpow_pos e). field. lra. Qed.

Lemma Zdigits2_mul (a b : positive) :
  (Zdigits2 (Z.pos a) + Zdigits2 (Z.pos b) - 1 <= Zdigits2 (Z.pos (a * b)))%Z.
Proof.
  pose proof (Zdigits2_spec (Z.pos a) ltac:(lia)) as [Ha _].
  pose proof (Zdigits2_spec (Z.pos b) ltac:(lia)) as [Hb _].
  assert (1 <= Zdigits2 (Z.pos a))%Z by (cbn; lia).
  assert (1 <= Zdigits2 (Z.pos b))%Z by (cbn; lia).
  apply Zdigits2_ge; [ | lia].
  replace (Zdigits2 (Z.pos a) + Zdigits2 (Z.pos b) - 1 - 1)%Z
    with ((Zdigits2 (Z.pos a) - 1) + (Zdigits2 (Z.pos b) - 1))%Z by lia.
  rewrite Z.pow_add_r by lia. rewrite Pos2Z.inj_mul.
  apply Z.mul_le_mono_nonneg; try lia; apply Z.pow_nonneg; lia.
Qed.

(** *** Multiplication *)

Theorem mul_val (x y : float) :
  finite x = true -> finite y = true ->
  Qabs (B2Q x * B2Q y) < bpow 1000 ->
  finite (x * y) = true
  /\ Qabs (B2Q (x * y) - B2Q x * B2Q y)
     <= bpow (-50) * Qabs (B2Q x * B2Q y) + bpow (-1072).
Proof.
  unfold finite, B2Q. intros Fx Fy Hbig.
  pose proof (Prim2SF_valid (x * y)) as Hval.
  rewrite mul_spec in *.
  assert (P50 : 0 < bpow (-50)) by apply bpow_pos.
  assert (P1072 : 0 < bpow (-1072)) by apply bpow_pos.
  assert (Zero : forall q, q == 0 -> Qabs (0 - q) <= bpow (-50) * Qabs q + bpow (-1072)).
  { intros q Hq. rewrite Hq. change (Qabs (0 - 0)) with 0. change (Qabs 0) with 0. lra. }
  destruct (Prim2SF x) as [sx | sx | | sx mx ex] eqn:Ex; try discriminate Fx;
    destruct (Prim2SF y) as [sy | sy | | sy my ey] eqn:Ey; try discriminate Fy;
    cbn [SF64mul SFmul SFval SFfin] in *;
    try (split; [reflexivity | apply Zero; ring]).
  destruct (Prim2SF_finite_valid x _ _ _ Ex) as (Dx & Rx & Cx).
  destruct (Prim2SF_finite_valid y _ _ _ Ey) as (Dy & Ry & Cy).
  pose proof (Zdigits2_mul mx my) as Dm.
  assert (1 <= Zdigits2 (Z.pos mx))%Z by (cbn; lia).
  assert (1 <= Zdigits2 (Z.pos my))%Z by (cbn; lia).
  set (V := inject_Z (Z.pos (mx * my)) * bpow (ex + ey)).
  assert (EV : sign_of sx * (inject_Z (Z.pos mx) * bpow ex)
               * (sign_of sy * (inject_Z (Z.pos my) * bpow ey))
               == sign_of (xorb sx sy) * V).
  { unfold V. rewrite sign_of_xorb, bpow_add, Pos2Z.inj_mul, inject_Z_mult. ring. }
  assert (V0 : 0 < V) by apply mant_pos.
  assert (EA : Qabs (sign_of (xorb sx sy) * V) == V) by (apply sign_of_abs; lra).
  rewrite EV in *. rewrite EA in *.
  destruct (binary_round_aux_spec (xorb sx sy) (Z.pos (mx * my)) (ex + ey) loc_Exact V)
    as (m & e & Hr & Hm & Herr & Hz).
  - lia.
  - rewrite fexp64_eq. lia.
  - apply inbetween_exact.
  - exact Hbig.
  - apply (round_error (xorb sx sy) m e V); try assumption; lra.
Qed.

(** *** Alignment *)

Lemma iter_xO (m d : positive) : Z.pos (Pos.iter xO m d) = (Z.pos m * 2 ^ Z.pos d)%Z.
Proof.
  induction d as [| d IH] using Pos.peano_ind.
  - cbn. lia.
  - rewrite Pos.iter_succ, Pos2Z.inj_xO, IH, Pos2Z.inj_succ, Z.pow_succ_r by lia. lia.
Qed.

Lemma Zdigits2_shift (m k : Z) :
  (0 < m)%Z -> (0 <= k)%Z -> Zdigits2 (m * 2 ^ k) = (Zdigits2 m + k)%Z.
Proof.
  intros Hm Hk.
  pose proof (Zdigits2_spec m Hm) as [Hlo Hhi].
  assert (H1 : (1 <= Zdigits2 m)%Z) by (destruct m; cbn; lia).
  assert (Hp : (0 < 2 ^ k)%Z) by (apply Z.pow_pos_nonneg; lia).
  apply Z.le_antisymm.
  - apply Zdigits2_le; [lia | ]. split; [nia | ].
    rewrite Z.pow_add_r by lia. nia.
  - apply Zdigits2_ge; [ | nia].
    replace (Zdigits2 m + k - 1)%Z with ((Zdigits2 m - 1) + k)%Z by lia.
    rewrite Z.pow_add_r by lia. nia.
Qed.

Lemma shl_align_spec (mx : positive) (ex ex' : Z) :
  let '(mz, ez) := shl_align mx ex ex' in
  ez = Z.min ex ex'
  /\ Z.pos mz = (Z.pos mx * 2 ^ (ex - ez))%Z
  /\ inject_Z (Z.pos mz) * bpow ez == inject_Z (Z.pos mx) * bpow ex
  /\ (Zdigits2 (Z.pos mz) + ez = Zdigits2 (Z.pos mx) + ex)%Z.
Proof.
  unfold shl_align.
  destruct (ex' - ex)%Z as [| d | d] eqn:Ed.
  - replace (Z.min ex ex') with ex by lia. rewrite Z.sub_diag.
    split; [reflexivity | split; [lia | split; [reflexivity | reflexivity]]].
  - replace (Z.min ex ex') with ex by lia. rewrite Z.sub_diag.
    split; [reflexivity | split; [lia | split; [reflexivity | reflexivity]]].
  - replace (Z.min ex ex') with ex' by lia.
    assert (Ek : (ex - ex' = Z.pos d)%Z) by lia.
    rewrite Ek, iter_xO.
    split; [reflexivity | split; [reflexivity | split]].
    + rewrite inject_Z_mult, <- (bpow_inject (Z.pos d)) by lia.
      assert (E : bpow ex == bpow (Z.pos d) * bpow ex').
      { rewrite <- bpow_add. replace (Z.pos d + ex')%Z with ex by lia. reflexivity. }
      rewrite E. ring.
    + rewrite Zdigits2_shift by lia. lia.
Qed.

(** *** [binary_round] and [binary_normalize] *)

Lemma binary_round_spec (sx : bool) (mx : positive) (ex : Z) :
  inject_Z (Z.pos mx) * bpow ex < bpow 1000 ->
  exists (m e : Z),
    binary_round prec emax sx mx ex
    = match m with
      | Z.pos p => S754_finite sx p e
      | _ => S754_zero sx
      end
    /\ (0 <= m)%Z
    /\ Qabs (inject_Z m * bpow e - inject_Z (Z.pos mx) * bpow ex) <= (3 # 2) * bpow e
    /\ (m = 0%Z -> e = (-1074)%Z).
Proof.
  intros Hbig. unfold binary_round.
  pose proof (shl_align_spec mx ex (fexp64 (Z.pos (digits2_pos mx) + ex))) as Hs.
  change (fexp prec emax) with fexp64.
  destruct (shl_align mx ex (fexp64 (Z.pos (digits2_pos mx) + ex))) as [mz ez].
  destruct Hs as (S1 & S2 & S3 & S4).
  change (Z.pos (digits2_pos mx)) with (Zdigits2 (Z.pos mx)) in S1.
  rewrite <- S3 in Hbig.
  destruct (binary_round_aux_spec sx (Z.pos mz) ez loc_Exact
              (inject_Z (Z.pos mz) * bpow ez)) as (m & e & Hr & Hm & Herr & Hz).
  - lia.
  - rewrite S4. lia.
  - apply inbetween_exact.
  - exact Hbig.
  - exists m, e. rewrite <- S3. auto.
Qed.

Lemma Qabs_inject_neg (p : positive) (e : Z) :
  inject_Z (Z.neg p) * bpow e == sign_of true * (inject_Z (Z.pos p) * bpow e).
Proof.
  unfold sign_of. change (Z.neg p) with (- Z.pos p)%Z. rewrite inject_Z_opp. ring.
Qed.

Theorem binary_normalize_val (m e : Z) (szero : bool) :
  valid_binary (binary_normalize prec emax m e szero) = true ->
  Qabs (inject_Z m * bpow e) < bpow 1000 ->
  SFfin (binary_normalize prec emax m e szero) = true
  /\ Qabs (SFval (binary_normalize prec emax m e szero) - inject_Z m * bpow e)
     <= bpow (-50) * Qabs (inject_Z m * bpow e) + bpow (-1072).
Proof.
  intros Hval Hbig.
  assert (P50 : 0 < bpow (-50)) by apply bpow_pos.
  assert (P1072 : 0 < bpow (-1072)) by apply bpow_pos.
  destruct m as [| p | p]; cbn [binary_normalize] in *.
  - split; [reflexivity | ]. cbn [SFval]. change (inject_Z 0) with 0.
    assert (E : 0 - 0 * bpow e == 0) by ring. rewrite E.
    assert (E2 : 0 * bpow e == 0) by ring. rewrite E2.
    change (Qabs 0) with 0. lra.
  - pose proof (mant_pos p e) as Hp.
    rewrite (Qabs_pos (inject_Z (Z.pos p) * bpow e)) in * by lra.
    destruct (binary_round_spec false p e Hbig) as (m & e' & Hr & Hm & Herr & Hz).
    destruct (round_error false m e' (inject_Z (Z.pos p) * bpow e) _ Hr Hval Hm ltac:(lra) Herr Hz) as [F E].
    split; [exact F | ].
    unfold sign_of in E. rewrite Qmult_1_l in E. exact E.
  - pose proof (mant_pos p e) as Hp.
    rewrite Qabs_inject_neg in *.
    rewrite (sign_of_abs true) in * by lra.
    destruct (binary_round_spec true p e Hbig) as (m & e' & Hr & Hm & Herr & Hz).
    exact (round_error true m e' (inject_Z (Z.pos p) * bpow e) _ Hr Hval Hm ltac:(lra) Herr Hz).
Qed.

(** *** Addition and subtraction *)

Lemma exact_within (a b : Q) :
  a == b -> Qabs (a - b) <= bpow (-50) * Qabs b + bpow (-1072).
Proof.
  intros E. rewrite E.
  assert (E0 : b - b == 0) by ring. rewrite E0. change (Qabs 0) with 0.
  pose proof (bpow_pos (-50)). pose proof (bpow_pos (-1072)).
  pose proof (Qabs_nonneg b).
  assert (0 <= bpow (-50) * Qabs b) by (apply Qmult_le_0_compat; lra).
  lra.
Qed.

Lemma cond_Zopp_val (s : bool) (m : positive) (e : Z) :
  inject_Z (cond_Zopp s (Z.pos m)) * bpow e == sign_of s * (inject_Z (Z.pos m) * bpow e).
Proof.
  destruct s; unfold cond_Zopp, sign_of.
  - rewrite inject_Z_opp. ring.
  - ring.
Qed.

Lemma aligned_val (s : bool) (m : positive) (e e' : Z) :
  (e' <= e)%Z ->
  inject_Z (cond_Zopp s (Z.pos (fst (shl_align m e e')))) * bpow e'
  == sign_of s * (inject_Z (Z.pos m) * bpow e).
Proof.
  intros Hle. pose proof (shl_align_spec m e e') as H.
  destruct (shl_align m e e') as [mz ez]. destruct H as (H1 & H2 & H3 & H4).
  cbn [fst]. rewrite cond_Zopp_val.
  replace (Z.min e e') with e' in H1 by lia. subst ez. rewrite H3. reflexivity.
Qed.

Theorem add_val (x y : float) :
  finite x = true -> finite y = true ->
  Qabs (B2Q x + B2Q y) < bpow 1000 ->
  finite (x + y) = true
  /\ Qabs (B2Q (x + y) - (B2Q x + B2Q y))
     <= bpow (-50) * Qabs (B2Q x + B2Q y) + bpow (-1072).
Proof.
  unfold finite, B2Q. intros Fx Fy Hbig.
  pose proof (Prim2SF_valid (x + y)) as Hval.
  rewrite add_spec in *.
  destruct (Prim2SF x) as [sx | sx | | sx mx ex] eqn:Ex; try discriminate Fx;
    destruct (Prim2SF y) as [sy | sy | | sy my ey] eqn:Ey; try discriminate Fy;
    cbn [SF64add SFadd SFval SFfin] in *.
  - destruct sx, sy; (split; [reflexivity | apply exact_within; cbn [SFval]; ring]).
  - split; [reflexivity | apply exact_within; cbn [SFval]; ring].
  - split; [reflexivity | apply exact_within; cbn [SFval]; ring].
  - set (ez := Z.min ex ey) in *.
    set (M := (cond_Zopp sx (Z.pos (fst (shl_align mx ex ez)))
               + cond_Zopp sy (Z.pos (fst (shl_align my ey ez))))%Z) in *.
    assert (EM : inject_Z M * bpow ez
                 == sign_of sx * (inject_Z (Z.pos mx) * bpow ex)
                    + sign_of sy * (inject_Z (Z.pos my) * bpow ey)).
    { unfold M. rewrite inject_Z_plus, Qmult_plus_distr_l.
      rewrite !aligned_val by (unfold ez; lia). reflexivity. }
    rewrite <- EM in *.
    apply binary_normalize_val; assumption.
Qed.

Theorem sub_val (x y : float) :
  finite x = true -> finite y = true ->
  Qabs (B2Q x - B2Q y) < bpow 1000 ->
  finite (x - y) = true
  /\ Qabs (B2Q (x - y) - (B2Q x - B2Q y))
     <= bpow (-50) * Qabs (B2Q x - B2Q y) + bpow (-1072).
Proof.
  unfold finite, B2Q. intros Fx Fy Hbig.
  pose proof (Prim2SF_valid (x - y)) as Hval.
  rewrite sub_spec in *.
  destruct (Prim2SF x) as [sx | sx | | sx mx ex] eqn:Ex; try discriminate Fx;
    destruct (Prim2SF y) as [sy | sy | | sy my ey] eqn:Ey; try discriminate Fy;
    cbn [SF64sub SFsub SFval SFfin] in *.
  - destruct sx, sy; (split; [reflexivity | apply exact_within; cbn [SFval]; ring]).
  - split; [reflexivity | apply exact_within; cbn [SFval]].
    destruct sy; unfold sign_of; cbn [negb]; ring.
  - split; [reflexivity | apply exact_within; cbn [SFval]; ring].
  - set (ez := Z.min ex ey) in *.
    set (M := (cond_Zopp sx (Z.pos (fst (shl_align mx ex ez)))
               - cond_Zopp sy (Z.pos (fst (shl_align my ey ez))))%Z) in *.
    assert (EM : inject_Z M * bpow ez
                 == sign_of sx * (inject_Z (Z.pos mx) * bpow ex)
                    - sign_of sy * (inject_Z (Z.pos my) * bpow ey)).
    { unfold M, Z.sub. rewrite inject_Z_plus, inject_Z_opp, Qmult_plus_distr_l.
      assert (E : - inject_Z (cond_Zopp sy (Z.pos (fst (shl_align my ey ez)))) * bpow ez
                  == - (inject_Z (cond_Zopp sy (Z.pos (fst (shl_align my ey ez)))) * bpow ez))
        by ring.
      rewrite E.
      rewrite !aligned_val by (unfold ez; lia). ring. }
    rewrite <- EM in *.
    apply binary_normalize_val; assumption.
Qed.

(** *** Division *)

Lemma inject_Z_pos (z : Z) : (0 < z)%Z -> 0 < inject_Z z.
Proof. intros H. change 0 with (inject_Z 0). rewrite <- Zlt_Qlt. exact H. Qed.

Lemma inject_Z_nonneg (z : Z) : (0 <= z)%Z -> 0 <= inject_Z z.
Proof. intros H. change 0 with (inject_Z 0). rewrite <- Zle_Qle. exact H. Qed.

Lemma ratio_cmp (r m : Z) :
  (0 < m)%Z ->
  let rho := inject_Z r / inject_Z m in
  ((2 * r < m)%Z -> rho < 1 # 2)
  /\ ((2 * r = m)%Z -> rho == 1 # 2)
  /\ ((m < 2 * r)%Z -> (1 # 2) < rho)
  /\ ((0 < r)%Z -> 0 < rho)
  /\ ((r < m)%Z -> rho < 1).
Proof.
  intros Hm rho. pose proof (inject_Z_pos m Hm) as Pm.
  assert (D : forall z : Z, inject_Z (2 * z) == 2 * inject_Z z)
    by (intros z; rewrite inject_Z_mult; reflexivity).
  repeat split; intros Hr; unfold rho.
  - apply Qlt_shift_div_r; [exact Pm | ].
    assert (L : inject_Z (2 * r) < inject_Z m) by (rewrite <- Zlt_Qlt; exact Hr).
    rewrite D in L. lra.
  - assert (L : inject_Z (2 * r) == inject_Z m) by (rewrite Hr; reflexivity).
    rewrite D in L. field_simplify_eq; lra.
  - apply Qlt_shift_div_l; [exact Pm | ].
    assert (L : inject_Z m < inject_Z (2 * r)) by (rewrite <- Zlt_Qlt; exact Hr).
    rewrite D in L. lra.
  - apply Qlt_shift_div_l; [exact Pm | ].
    pose proof (inject_Z_pos r Hr). lra.
  - apply Qlt_shift_div_r; [exact Pm | ].
    assert (L : inject_Z r < inject_Z m) by (rewrite <- Zlt_Qlt; exact Hr). lra.
Qed.

Lemma new_location_spec (m r q : Z) :
  (0 < m)%Z -> (0 <= r < m)%Z ->
  inbetween (shr_record_of_loc q (new_location m r))
            (inject_Z q + inject_Z r / inject_Z m).
Proof.
  intros Hm Hr.
  destruct (ratio_cmp r m Hm) as (C1 & C2 & C3 & C4 & C5).
  set (rho := inject_Z r / inject_Z m) in *.
  assert (Z0 : r = 0%Z -> rho == 0).
  { intros ->. unfold rho. change (inject_Z 0) with 0. unfold Qdiv. ring. }
  unfold new_location, new_location_even, new_location_odd.
  destruct (Z.even m) eqn:Ev.
  - destruct (Z.eqb_spec r 0) as [E | N].
    + unfold inbetween. cbn. rewrite (Z0 E). ring.
    + destruct (Z.compare_spec (2 * r) m) as [E | L | G];
        unfold inbetween; cbn.
      * rewrite (C2 E). reflexivity.
      * specialize (C1 L). specialize (C4 ltac:(lia)). lra.
      * specialize (C3 G). specialize (C5 ltac:(lia)). lra.
  - destruct (Z.eqb_spec r 0) as [E | N].
    + unfold inbetween. cbn. rewrite (Z0 E). ring.
    + assert (Hodd : (2 * r <> m)%Z).
      { intros E. rewrite <- E, Z.even_mul in Ev. discriminate Ev. }
      destruct (Z.compare_spec (2 * r + 1) m) as [E | L | G];
        unfold inbetween; cbn.
      * specialize (C1 ltac:(lia)). specialize (C4 ltac:(lia)). lra.
      * specialize (C1 ltac:(lia)). specialize (C4 ltac:(lia)). lra.
      * specialize (C3 ltac:(lia)). specialize (C5 ltac:(lia)). lra.
Qed.

Lemma quotient_digits (m1 m2 s q r : Z) :
  (0 < m1)%Z -> (0 < m2)%Z -> (0 <= s)%Z ->
  (m1 * 2 ^ s = m2 * q + r)%Z -> (0 <= r < m2)%Z ->
  (0 <= q)%Z /\ (Zdigits2 m1 + s - Zdigits2 m2 <= Zdigits2 q)%Z.
Proof.
  intros H1 H2 Hs E Hr.
  assert (Hq : (0 <= q)%Z).
  { assert (P : (0 < 2 ^ s)%Z) by (apply Z.pow_pos_nonneg; lia). nia. }
  split; [exact Hq | ].
  pose proof (Zdigits2_spec m1 H1) as [L1 _].
  pose proof (Zdigits2_spec m2 H2) as [_ U2].
  pose proof (Zdigits2_nonneg q) as Nq.
  assert (D1 : (1 <= Zdigits2 m1)%Z) by (destruct m1; cbn; lia).
  assert (D2 : (1 <= Zdigits2 m2)%Z) by (destruct m2; cbn; lia).
  set (d1 := Zdigits2 m1) in *. set (d2 := Zdigits2 m2) in *.
  destruct (Z_lt_le_dec (d1 + s - 1 - d2) 0) as [Neg | Pos]; [lia | ].
  set (k := (d1 + s - 1 - d2)%Z) in *.
  assert (Ek : (2 ^ (d1 - 1) * 2 ^ s = 2 ^ d2 * 2 ^ k)%Z).
  { rewrite <- !Z.pow_add_r by lia. f_equal. lia. }
  assert (Pk : (0 < 2 ^ k)%Z) by (apply Z.pow_pos_nonneg; lia).
  assert (Ps : (0 < 2 ^ s)%Z) by (apply Z.pow_pos_nonneg; lia).
  assert (Hlt : (2 ^ d2 * 2 ^ k < 2 ^ d2 * (q + 1))%Z) by nia.
  assert (Hk : (2 ^ k < q + 1)%Z) by nia.
  assert (Hd : (k + 1 <= Zdigits2 q)%Z).
  { apply Zdigits2_ge; [ | lia]. replace (k + 1 - 1)%Z with k by lia. lia. }
  lia.
Qed.

Lemma div_core (sx sy : bool) (mx my : positive) (ex ey : Z) :
  let V := (inject_Z (Z.pos mx) * bpow ex) / (inject_Z (Z.pos my) * bpow ey) in
  V < bpow 1000 ->
  exists (m e : Z),
    SFdiv prec emax (S754_finite sx mx ex) (S754_finite sy my ey)
    = match m with
      | Z.pos p => S754_finite (xorb sx sy) p e
      | _ => S754_zero (xorb sx sy)
      end
    /\ (0 <= m)%Z
    /\ Qabs (inject_Z m * bpow e - V) <= (3 # 2) * bpow e
    /\ (m = 0%Z -> e = (-1074)%Z).
Proof.
  intros V Hbig. cbn [SFdiv]. unfold SFdiv_core_binary.
  change (fexp prec emax) with fexp64.
  set (d1 := Zdigits2 (Z.pos mx)). set (d2 := Zdigits2 (Z.pos my)).
  set (e' := Z.min (fexp64 (d1 + ex - (d2 + ey))) (ex - ey)).
  set (s := (ex - ey - e')%Z).
  assert (Hs : (0 <= s)%Z) by (unfold s, e'; lia).
  set (m' := match s with
             | 0%Z => Z.pos mx
             | Z.pos _ => Z.shiftl (Z.pos mx) s
             | Z.neg _ => 0%Z
             end).
  assert (Em : m' = (Z.pos mx * 2 ^ s)%Z).
  { unfold m'. destruct s as [| p | p] eqn:Es; [cbn; lia | | lia].
    apply Z.shiftl_mul_pow2. lia. }
  pose proof (Z_div_mod m' (Z.pos my) ltac:(lia)) as Hdiv.
  destruct (Z.div_eucl m' (Z.pos my)) as [q r]. destruct Hdiv as [Eq Hr].
  rewrite Em in Eq.
  destruct (quotient_digits (Z.pos mx) (Z.pos my) s q r
              ltac:(lia) ltac:(lia) Hs Eq Hr) as [Hq Hd].
  fold d1 d2 in Hd.
  apply binary_round_aux_spec.
  - exact Hq.
  - unfold s, e' in *. rewrite !fexp64_eq in *. lia.
  - assert (EV : V / bpow e' == inject_Z q + inject_Z r / inject_Z (Z.pos my)).
    { pose proof (bpow_pos ex). pose proof (bpow_pos ey). pose proof (bpow_pos e').
      pose proof (inject_Z_pos (Z.pos my) ltac:(lia)) as Pmy.
      assert (E1 : inject_Z (Z.pos mx) * bpow s
                   == inject_Z (Z.pos my) * inject_Z q + inject_Z r).
      { rewrite (bpow_inject s Hs), <- inject_Z_mult, Eq, inject_Z_plus, inject_Z_mult.
        reflexivity. }
      assert (E2 : bpow s == bpow ex / bpow ey / bpow e').
      { unfold s. rewrite !bpow_sub. reflexivity. }
      rewrite E2 in E1.
      assert (E3 : V / bpow e'
                   == inject_Z (Z.pos mx) * (bpow ex / bpow ey / bpow e')
                      / inject_Z (Z.pos my)).
      { unfold V. field. repeat split; lra. }
      rewrite E3, E1. field. lra. }
    rewrite EV. apply new_location_spec; lia.
  - exact Hbig.
Qed.

Lemma div_exact_val (sx sy : bool) (mx my : positive) (ex ey : Z) :
  sign_of sx * (inject_Z (Z.pos mx) * bpow ex) / (sign_of sy * (inject_Z (Z.pos my) * bpow ey))
  == sign_of (xorb sx sy)
     * ((inject_Z (Z.pos mx) * bpow ex) / (inject_Z (Z.pos my) * bpow ey)).
Proof.
  pose proof (mant_pos my ey) as Hb.
  set (a := inject_Z (Z.pos mx) * bpow ex).
  set (b := inject_Z (Z.pos my) * bpow ey) in *.
  destruct sx, sy; unfold sign_of; cbn [xorb]; field; lra.
Qed.

Theorem div_val (x y : float) :
  finite x = true -> finite y = true -> ~ B2Q y == 0 ->
  Qabs (B2Q x / B2Q y) < bpow 1000 ->
  finite (x / y) = true
  /\ Qabs (B2Q (x / y) - B2Q x / B2Q y)
     <= bpow (-50) * Qabs (B2Q x / B2Q y) + bpow (-1072).
Proof.
  unfold finite, B2Q. intros Fx Fy Hy Hbig.
  pose proof (Prim2SF_valid (x / y)) as Hval.
  rewrite div_spec in *. unfold SF64div in *.
  destruct (Prim2SF x) as [sx | sx | | sx mx ex] eqn:Ex; try discriminate Fx;
    destruct (Prim2SF y) as [sy | sy | | sy my ey] eqn:Ey; try discriminate Fy;
    try (exfalso; apply Hy; reflexivity).
  - cbn [SFdiv SFval SFfin]. split; [reflexivity | ].
    apply exact_within. unfold Qdiv. ring.
  - cbn [SFval] in Hbig |- *. rewrite div_exact_val in *.
    set (V := inject_Z (Z.pos mx) * bpow ex / (inject_Z (Z.pos my) * bpow ey)) in *.
    assert (V0 : 0 < V).
    { unfold V. apply Qlt_shift_div_l; [apply mant_pos | ].
      rewrite Qmult_0_l. apply mant_pos. }
    rewrite (sign_of_abs (xorb sx sy) V) in * by lra.
    destruct (div_core sx sy mx my ex ey Hbig) as (m & e & Hr & Hm & Herr & Hz).
    apply (round_error (xorb sx sy) m e V); try assumption; lra.
Qed.

(** The quotient of a non-negative number by a positive one is not
    negative. *)
Theorem div_nonneg (x y : float) :
  finite x = true -> finite y = true ->
  0 <= B2Q x -> 0 < B2Q y ->
  B2Q x / B2Q y < bpow 1000 ->
  0 <= B2Q (x / y).
Proof.
  unfold finite, B2Q. intros Fx Fy Hx Hy Hbig.
  rewrite div_spec in *. unfold SF64div in *.
  destruct (Prim2SF x) as [sx | sx | | sx mx ex] eqn:Ex; try discriminate Fx;
    destruct (Prim2SF y) as [sy | sy | | sy my ey] eqn:Ey; try discriminate Fy;
    cbn [SFval] in Hy; try lra.
  - cbn. lra.
  - cbn [SFval] in Hx, Hbig.
    pose proof (mant_pos mx ex). pose proof (mant_pos my ey).
    assert (sx = false) by (destruct sx; [unfold sign_of in Hx; lra | reflexivity]).
    assert (sy = false) by (destruct sy; [unfold sign_of in Hy; lra | reflexivity]).
    subst sx sy. unfold sign_of in Hbig. rewrite !Qmult_1_l in Hbig.
    destruct (div_core false false mx my ex ey Hbig) as (m & e & Hr & Hm & Herr & Hz).
    rewrite Hr. destruct m as [| p | p]; cbn [SFval xorb].
    + lra.
    + pose proof (mant_pos p e). unfold sign_of. lra.
    + lra.
Qed.

(** *** Comparisons *)

Lemma Qcompare_Lt (a b : Q) : a < b -> (a ?= b) = Lt.
Proof. apply Qlt_alt. Qed.

Lemma Qcompare_Gt (a b : Q) : b < a -> (a ?= b) = Gt.
Proof. apply Qgt_alt. Qed.

Lemma Qcompare_Eq (a b : Q) : a == b -> (a ?= b) = Eq.
Proof. apply Qeq_alt. Qed.

(** Of two valid numbers the one with the smaller exponent is the smaller. *)
Lemma exponent_lt (s1 s2 : bool) (m1 m2 : positive) (e1 e2 : Z) :
  valid_binary (S754_finite s1 m1 e1) = true ->
  valid_binary (S754_finite s2 m2 e2) = true ->
  (e1 < e2)%Z ->
  inject_Z (Z.pos m1) * bpow e1 < inject_Z (Z.pos m2) * bpow e2.
Proof.
  intros V1 V2 Hlt.
  destruct (valid_finite _ _ _ V1) as (D1 & R1 & C1).
  destruct (valid_finite _ _ _ V2) as (D2 & R2 & C2).
  assert (E2 : Zdigits2 (Z.pos m2) = 53%Z) by lia.
  pose proof (scaled_lt (Z.pos m1) e1 ltac:(lia)) as U.
  pose proof (scaled_ge (Z.pos m2) e2 ltac:(lia)) as L. rewrite E2 in L.
  assert (bpow (Zdigits2 (Z.pos m1) + e1) <= bpow (53 + e2 - 1)) by (apply bpow_le; lia).
  lra.
Qed.

Lemma magnitude_compare (s1 s2 : bool) (m1 m2 : positive) (e1 e2 : Z) :
  valid_binary (S754_finite s1 m1 e1) = true ->
  valid_binary (S754_finite s2 m2 e2) = true ->
  match (e1 ?= e2)%Z with
  | Lt => Lt
  | Gt => Gt
  | Eq => Pos.compare_cont Eq m1 m2
  end
  = (inject_Z (Z.pos m1) * bpow e1 ?= inject_Z (Z.pos m2) * bpow e2).
Proof.
  intros V1 V2.
  destruct (Z.compare_spec e1 e2) as [E | L | G]; symmetry.
  - subst e2. pose proof (bpow_pos e1) as P.
    change (Pos.compare_cont Eq m1 m2) with (Pos.compare m1 m2).
    destruct (Pos.compare_spec m1 m2) as [Em | Lm | Gm].
    + subst m2. apply Qcompare_Eq. reflexivity.
    + apply Qcompare_Lt. apply Qmult_lt_compat_r; [exact P | ].
      rewrite <- Zlt_Qlt. lia.
    + apply Qcompare_Gt. apply Qmult_lt_compat_r; [exact P | ].
      rewrite <- Zlt_Qlt. lia.
  - apply Qcompare_Lt. exact (exponent_lt s1 s2 m1 m2 e1 e2 V1 V2 L).
  - apply Qcompare_Gt. exact (exponent_lt s2 s1 m2 m1 e2 e1 V2 V1 G).
Qed.

Lemma valid_sign (s s' : bool) (m : positive) (e : Z) :
  valid_binary (S754_finite s m e) = valid_binary (S754_finite s' m e).
Proof. reflexivity. Qed.

Theorem SFcompare_val (f1 f2 : spec_float) :
  valid_binary f1 = true -> valid_binary f2 = true ->
  SFfin f1 = true -> SFfin f2 = true ->
  SFcompare f1 f2 = Some (SFval f1 ?= SFval f2).
Proof.
  intros V1 V2 F1 F2.
  destruct f1 as [s1 | s1 | | s1 m1 e1]; try discriminate F1;
    destruct f2 as [s2 | s2 | | s2 m2 e2]; try discriminate F2;
    cbn [SFcompare SFval]; f_equal.
  - pose proof (mant_pos m2 e2). symmetry.
    destruct s2; unfold sign_of; [apply Qcompare_Gt | apply Qcompare_Lt]; lra.
  - pose proof (mant_pos m1 e1). symmetry.
    destruct s1; unfold sign_of; [apply Qcompare_Lt | apply Qcompare_Gt]; lra.
  - pose proof (mant_pos m1 e1). pose proof (mant_pos m2 e2).
    pose proof (magnitude_compare s1 s2 m1 m2 e1 e2 V1 V2) as Hc.
    set (a := inject_Z (Z.pos m1) * bpow e1) in *.
    set (b := inject_Z (Z.pos m2) * bpow e2) in *.
    destruct s1, s2; unfold sign_of.
    + assert (E : match (e1 ?= e2)%Z with
                  | Eq => CompOpp (Pos.compare_cont Eq m1 m2)
                  | Lt => Gt
                  | Gt => Lt
                  end
                  = CompOpp match (e1 ?= e2)%Z with
                            | Eq => Pos.compare_cont Eq m1 m2
                            | Lt => Lt
                            | Gt => Gt
                            end)
        by (destruct (e1 ?= e2)%Z; reflexivity).
      rewrite E, Hc. symmetry.
      destruct (Qcompare_spec a b) as [Eab | Lab | Gab]; cbn [CompOpp].
      * apply Qcompare_Eq. rewrite Eab. reflexivity.
      * apply Qcompare_Gt. lra.
      * apply Qcompare_Lt. lra.
    + symmetry. apply Qcompare_Lt. lra.
    + symmetry. apply Qcompare_Gt. lra.
    + rewrite Hc. apply Qcompare_comp; ring.
Qed.

Lemma compare_val (x y : float) :
  finite x = true -> finite y = true ->
  SFcompare (Prim2SF x) (Prim2SF y) = Some (B2Q x ?= B2Q y).
Proof.
  intros Fx Fy. apply SFcompare_val; try assumption; apply Prim2SF_valid.
Qed.

Theorem ltb_val (x y : float) :
  finite x = true -> finite y = true ->
  ((x <? y)%float = true <-> B2Q x < B2Q y).
Proof.
  intros Fx Fy. rewrite ltb_spec. unfold SFltb. rewrite (compare_val x y Fx Fy).
  rewrite Qlt_alt. destruct (B2Q x ?= B2Q y); split; congruence.
Qed.

Theorem leb_val (x y : float) :
  finite x = true -> finite y = true ->
  ((x <=? y)%float = true <-> B2Q x <= B2Q y).
Proof.
  intros Fx Fy. rewrite leb_spec. unfold SFleb. rewrite (compare_val x y Fx Fy).
  rewrite Qle_alt. destruct (B2Q x ?= B2Q y); split; congruence.
Qed.

Lemma ltb_false_val (x y : float) :
  finite x = true -> finite y = true ->
  ((x <? y)%float = false <-> B2Q y <= B2Q x).
Proof.
  intros Fx Fy. pose proof (ltb_val x y Fx Fy) as H.
  destruct (x <? y)%float; split; intros H1; try reflexivity; try discriminate.
  - exfalso. assert (B2Q x < B2Q y) by (apply H; reflexivity). lra.
  - destruct (Qlt_le_dec (B2Q x) (B2Q y)) as [L | L]; [ | exact L].
    apply H in L. discriminate L.
Qed.

(** *** Sign operations *)

Lemma abs_val (x : float) : finite (abs x) = finite x /\ B2Q (abs x) == Qabs (B2Q x).
Proof.
  unfold finite, B2Q. rewrite abs_spec.
  destruct (Prim2SF x) as [s | s | | s m e]; cbn [SFabs SFfin SFval];
    try (split; reflexivity).
  split; [reflexivity | ].
  pose proof (mant_pos m e).
  rewrite (sign_of_abs s) by lra. unfold sign_of. ring.
Qed.

Lemma opp_val (x : float) : finite (- x) = finite x /\ B2Q (- x) == - B2Q x.
Proof.
  unfold finite, B2Q. rewrite opp_spec.
  destruct (Prim2SF x) as [s | s | | s m e]; cbn [SFopp SFfin SFval];
    try (split; reflexivity).
  split; [reflexivity | ]. destruct s; unfold sign_of; cbn [negb]; ring.
Qed.

Lemma abs_lt_infinity (x : float) : finite x = true -> (abs x <? infinity)%float = true.
Proof.
  unfold finite. rewrite ltb_spec, abs_spec.
  destruct (Prim2SF x) as [s | s | | s m e]; intros F; try discriminate F; reflexivity.
Qed.

(** *** Mantissa and exponent *)

(** For a finite number that is not zero, [frshiftexp] and
    [normfr_mantissa] give a 53-bit integer [M] and an exponent [E] with
    [|x| = M * 2^(E - shift - 53)]. *)
Lemma normfr_finite (s : bool) (m : positive) :
  Z.of_N (SFnormfr_mantissa prec (S754_finite s m (- prec))) = Z.pos m.
Proof. reflexivity. Qed.

Theorem frshiftexp_val (x : float) :
  finite x = true -> ~ B2Q x == 0 ->
  let (f, E) := frshiftexp x in
  let M := Uint63.to_Z (normfr_mantissa f) in
  (2 ^ 52 <= M < 2 ^ 53)%Z
  /\ Qabs (B2Q x) == inject_Z M * bpow (Uint63.to_Z E - shift - 53)
  /\ (-1073 <= Uint63.to_Z E - shift <= 1024)%Z.
Proof.
  unfold finite, B2Q. intros Fx Nz.
  pose proof (frshiftexp_spec x) as Hs.
  destruct (frshiftexp x) as [f E].
  pose proof (normfr_mantissa_spec f) as Hm.
  destruct (Prim2SF x) as [s | s | | s m e] eqn:Ex; try discriminate Fx.
  - exfalso. apply Nz. reflexivity.
  - destruct (Prim2SF_finite_valid x s m e Ex) as (D & R & C).
    pose proof (Zdigits2_spec (Z.pos m) ltac:(lia)) as [Lo Hi].
    assert (D1 : (1 <= Zdigits2 (Z.pos m))%Z) by (cbn; lia).
    change (Z.pos (digits2_pos m)) with (Zdigits2 (Z.pos m)) in *.
    cbn [SFval]. pose proof (mant_pos m e) as Pm.
    rewrite (sign_of_abs s) by lra.
    cbn [SFfrexp] in Hs.
    change (Z.pos (digits2_pos m)) with (Zdigits2 (Z.pos m)) in Hs.
    change prec with 53%Z in Hs.
    destruct (53 <=? Zdigits2 (Z.pos m))%Z eqn:Le.
    + apply Z.leb_le in Le. injection Hs as Hf HE.
      rewrite Hf, normfr_finite in Hm. rewrite Hm, HE.
      assert (Ed : Zdigits2 (Z.pos m) = 53%Z) by lia. rewrite Ed in *.
      split; [lia | split; [ | lia]].
      replace (e + 53 - 53)%Z with e by lia. reflexivity.
    + apply Z.leb_gt in Le. injection Hs as Hf HE.
      rewrite Hf, normfr_finite in Hm.
      change (Z.pos_sub 53 (digits2_pos m)) with (53 - Zdigits2 (Z.pos m))%Z in Hm, HE.
      change (PosDef.Pos.iter xO m) with (Pos.iter xO m) in Hm.
      set (d := (53 - Zdigits2 (Z.pos m))%Z) in *.
      assert (Dd : d = (53 - Zdigits2 (Z.pos m))%Z) by reflexivity.
      change prec with 53%Z in HE.
      assert (Hd : (0 < d)%Z) by (unfold d; lia).
      assert (Ep : Z.pos (Z.to_pos d) = d) by (apply Z2Pos.id; exact Hd).
      rewrite iter_xO, Ep in Hm.
      rewrite Hm, HE.
      assert (Pd : (0 < 2 ^ d)%Z) by (apply Z.pow_pos_nonneg; lia).
      assert (E52 : (2 ^ 52 = 2 ^ (Zdigits2 (Z.pos m) - 1) * 2 ^ d)%Z).
      { rewrite <- Z.pow_add_r by lia. f_equal. unfold d. lia. }
      assert (E53 : (2 ^ 53 = 2 ^ Zdigits2 (Z.pos m) * 2 ^ d)%Z).
      { rewrite <- Z.pow_add_r by lia. f_equal. unfold d. lia. }
      split; [ | split; [ | lia]].
      * rewrite E52, E53. nia.
      * rewrite inject_Z_mult, <- (bpow_inject d) by lia.
        assert (Eb : bpow e == bpow d * bpow (e + 53 - d - 53)).
        { rewrite <- bpow_add. replace (d + (e + 53 - d - 53))%Z with e by lia.
          reflexivity. }
        rewrite Eb. ring.
Qed.

(** *** Integers as numbers *)

Theorem of_uint63_val (n : int) :
  (Uint63.to_Z n < 2 ^ 53)%Z ->
  finite (of_uint63 n) = true /\ B2Q (of_uint63 n) == inject_Z (Uint63.to_Z n).
Proof.
  intros Hn. pose proof (Uint63.to_Z_bounded n) as [H0 _].
  unfold finite, B2Q.
  pose proof (Prim2SF_valid (of_uint63 n)) as Hval.
  rewrite of_uint63_spec in *.
  change Uint63Axioms.to_Z with Uint63.to_Z in *.
  destruct (Uint63.to_Z n) as [| p | p] eqn:En; [split; reflexivity | | lia].
  cbn [binary_normalize] in *.
  unfold binary_round in *.
  change (Z.pos (digits2_pos p)) with (Zdigits2 (Z.pos p)) in *.
  assert (Dp : (Zdigits2 (Z.pos p) <= 53)%Z).
  { apply Zdigits2_le; [lia | ]. split; [lia | exact Hn]. }
  assert (D1 : (1 <= Zdigits2 (Z.pos p))%Z) by (cbn; lia).
  change (fexp prec emax) with fexp64 in *.
  assert (Ef : (fexp64 (Zdigits2 (Z.pos p) + 0) <= 0)%Z) by (rewrite fexp64_eq; lia).
  pose proof (shl_align_spec p 0 (fexp64 (Zdigits2 (Z.pos p) + 0))) as Hs.
  destruct (shl_align p 0 (fexp64 (Zdigits2 (Z.pos p) + 0))) as [mz ez].
  destruct Hs as (S1 & S2 & S3 & S4).
  unfold binary_round_aux in *.
  assert (Efx : fexp64 (Zdigits2 (Z.pos mz) + ez) = ez) by (rewrite S4; lia).
  unfold shr_fexp in *. change (fexp prec emax) with fexp64 in *.
  cbn [shr_record_of_loc] in *.
  rewrite Efx, Z.sub_diag in *.
  cbn [shr shr_m loc_of_shr_record shr_r shr_s round_nearest_even shr_record_of_loc] in *.
  rewrite Efx, Z.sub_diag in *.
  cbn [shr shr_m loc_of_shr_record shr_r shr_s round_nearest_even shr_record_of_loc] in *.
  change (emax - prec)%Z with 971%Z in *.
  destruct (ez <=? 971)%Z eqn:Eb; [ | apply Z.leb_gt in Eb; lia].
  cbn [SFfin SFval]. split; [reflexivity | ].
  unfold sign_of. rewrite Qmult_1_l, S3, bpow_0. ring.
Qed.

(** *** Scaling by a power of two *)

Theorem ldshiftexp_val (f : float) (e : int) :
  let k := (Uint63.to_Z e - shift)%Z in
  finite f = true -> Qabs (B2Q f) * bpow k < bpow 1000 ->
  finite (ldshiftexp f e) = true
  /\ Qabs (B2Q (ldshiftexp f e) - B2Q f * bpow k)
     <= bpow (-50) * (Qabs (B2Q f) * bpow k) + bpow (-1072)
  /\ (0 <= B2Q f -> 0 <= B2Q (ldshiftexp f e)).
Proof.
  intros k. unfold finite, B2Q. intros Ff Hbig.
  pose proof (Prim2SF_valid (ldshiftexp f e)) as Hval.
  rewrite ldshiftexp_spec in *.
  change Uint63Axioms.to_Z with Uint63.to_Z in *. fold k in Hval |- *.
  destruct (Prim2SF f) as [s | s | | s m ex] eqn:Ef; try discriminate Ff;
    cbn [SFldexp SFval SFfin] in *.
  - split; [reflexivity | split; [ | lra]].
    assert (E0 : 0 - 0 * bpow k == 0) by ring. rewrite E0.
    change (Qabs 0) with 0.
    pose proof (bpow_pos (-50)). pose proof (bpow_pos (-1072)). pose proof (bpow_pos k).
    lra.
  - pose proof (mant_pos m ex) as Pm. pose proof (bpow_pos k) as Pk.
    rewrite (sign_of_abs s) in * by lra.
    assert (EV : inject_Z (Z.pos m) * bpow ex * bpow k
                 == inject_Z (Z.pos m) * bpow (ex + k))
      by (rewrite bpow_add; ring).
    rewrite EV in *.
    pose proof (mant_pos m (ex + k)) as PV.
    destruct (binary_round_spec s m (ex + k) Hbig) as (m' & e' & Hr & Hm & Herr & Hz).
    destruct (round_error s m' e' (inject_Z (Z.pos m) * bpow (ex + k)) _
                Hr Hval Hm ltac:(lra) Herr Hz) as [F E].
    split; [exact F | split].
    + assert (E2 : sign_of s * (inject_Z (Z.pos m) * bpow ex) * bpow k
                   == sign_of s * (inject_Z (Z.pos m) * bpow (ex + k)))
        by (rewrite <- EV; ring).
      rewrite E2. exact E.
    + intros Hs.
      assert (s = false) by (destruct s; [unfold sign_of in Hs; lra | reflexivity]).
      subst s. rewrite Hr. destruct m' as [| p | p]; cbn [SFval]; try lra.
      pose proof (mant_pos p e'). unfold sign_of. lra.
Qed.

(** *** The remainder *)

Lemma shift_rem_lt (fuel : nat) (k r m : int) :
  (Uint63.to_Z r < Uint63.to_Z m)%Z ->
  (Uint63.to_Z (shift_rem fuel k r m) < Uint63.to_Z m)%Z.
Proof.
  revert k r. induction fuel as [| fuel IH]; intros k r Hr; cbn [shift_rem].
  - destruct (k =? 0)%uint63; exact Hr.
  - destruct (k =? 0)%uint63; [exact Hr | ].
    apply IH. rewrite Uint63.mod_spec.
    pose proof (Uint63.to_Z_bounded r).
    apply Z.mod_pos_bound. lia.
Qed.

Lemma Qmult_le_compat_l (x y z : Q) : x <= y -> 0 <= z -> z * x <= z * y.
Proof.
  intros H Hz. rewrite (Qmult_comm z x), (Qmult_comm z y).
  apply Qmult_le_compat_r; assumption.
Qed.

Lemma scaled_below (M k d j : Z) :
  (0 <= M < 2 ^ d)%Z -> (0 <= d)%Z -> (k <= j)%Z ->
  inject_Z M * bpow k < bpow (d + j).
Proof.
  intros [H0 HM] Hd Hk.
  pose proof (bpow_pos k) as Pk. pose proof (bpow_le k j Hk) as Lk.
  assert (LM : inject_Z M < bpow d).
  { rewrite (bpow_inject d Hd), <- Zlt_Qlt. exact HM. }
  pose proof (inject_Z_nonneg M H0) as NM.
  rewrite bpow_add.
  apply Qlt_le_trans with (bpow d * bpow k).
  - apply Qmult_lt_compat_r; assumption.
  - apply Qmult_le_compat_l; [exact Lk | ]. pose proof (bpow_pos d). lra.
Qed.

Lemma scaled_above (M k d : Z) :
  (2 ^ d <= M)%Z -> (0 <= d)%Z -> bpow (d + k) <= inject_Z M * bpow k.
Proof.
  intros HM Hd. pose proof (bpow_pos k) as Pk.
  rewrite bpow_add. apply Qmult_le_compat_r; [ | lra].
  rewrite (bpow_inject d Hd), <- Zle_Qle. exact HM.
Qed.

Lemma B2Q_zero : B2Q 0%float == 0.
Proof. reflexivity. Qed.

Lemma Qabs_zero_le (q : Q) : Qabs q <= 0 -> q == 0.
Proof.
  intros H. pose proof (Qabs_nonneg q). pose proof (Qle_Qabs q).
  pose proof (Qle_Qabs (- q)) as H2. rewrite Qabs_opp in H2. lra.
Qed.

(** The remainder of a non-negative number by 2 is a number of [0, 2]
    (up to the rounding of the last scaling, which the bound allows for). *)
Theorem rem_two_val (x : float) :
  finite x = true -> 0 <= B2Q x ->
  finite (rem x (of_uint63 2)) = true
  /\ 0 <= B2Q (rem x (of_uint63 2)) <= 2 + bpow (-48).
Proof.
  intros Fx Hx.
  assert (P48 : 0 < bpow (-48)) by apply bpow_pos.
  unfold rem. cbv beta zeta.
  change (abs (of_uint63 2)) with 2%float.
  rewrite (abs_lt_infinity x Fx).
  change (0 <? 2)%float with true. change (2 <? infinity)%float with true.
  cbn [andb]. rewrite andb_true_r.
  destruct (abs_val x) as [Fa Va].
  destruct (0 <? abs x)%float eqn:Pa.
  2: { apply ltb_false_val in Pa; [ | reflexivity | rewrite Fa; exact Fx].
       rewrite Va, B2Q_zero in Pa. apply Qabs_zero_le in Pa.
       split; [exact Fx | rewrite Pa; lra]. }
  apply ltb_val in Pa; [ | reflexivity | rewrite Fa; exact Fx].
  rewrite Va, B2Q_zero in Pa.
  assert (Nz : ~ B2Q x == 0).
  { intros E. rewrite E in Pa. change (Qabs 0) with 0 in Pa. lra. }
  pose proof (frshiftexp_val x Fx Nz) as Hf.
  destruct (frshiftexp x) as [fx ex].
  change (frshiftexp (of_uint63 2)) with (0.5%float, 2103%uint63).
  cbv beta iota.
  destruct Hf as (HM & HV & HE).
  rewrite (Qabs_pos (B2Q x) Hx) in HV.
  change shift with 2101%Z in *.
  destruct (ex <? 2103)%uint63 eqn:Lt.
  - apply Uint63.ltb_spec in Lt. change (Uint63.to_Z 2103) with 2103%Z in Lt.
    split; [exact Fx | split; [exact Hx | ]].
    pose proof (scaled_below (Uint63.to_Z (normfr_mantissa fx))
                  (Uint63.to_Z ex - 2101 - 53) 53 (-52) ltac:(lia) ltac:(lia) ltac:(lia)) as B.
    rewrite <- HV in B. change (bpow (53 + -52)) with (bpow 1) in B.
    rewrite bpow_1 in B. lra.
  - change (normfr_mantissa 0.5) with 4503599627370496%uint63.
    change (2103 - 53)%uint63 with 2050%uint63.
    set (r := shift_rem 2200 (ex - 2103)
                (normfr_mantissa fx mod 4503599627370496) 4503599627370496).
    assert (Hr : (Uint63.to_Z r < 2 ^ 52)%Z).
    { change (2 ^ 52)%Z with (Uint63.to_Z 4503599627370496). apply shift_rem_lt.
      rewrite Uint63.mod_spec. apply Z.mod_pos_bound. reflexivity. }
    pose proof (Uint63.to_Z_bounded r) as [R0 _].
    destruct (of_uint63_val r ltac:(lia)) as [Fr Vr].
    assert (Bv : inject_Z (Uint63.to_Z r) * bpow (-51) < bpow 1).
    { apply (scaled_below _ (-51) 52 (-51)); lia. }
    rewrite bpow_1 in Bv.
    pose proof (inject_Z_nonneg _ R0) as Nr.
    pose proof (bpow_pos (-51)) as P51.
    assert (Nv : 0 <= inject_Z (Uint63.to_Z r) * bpow (-51))
      by (apply Qmult_le_0_compat; lra).
    pose proof (ldshiftexp_val (of_uint63 r) 2050) as Hl.
    change (Uint63.to_Z 2050 - FloatOps.shift)%Z with (-51)%Z in Hl.
    cbv zeta in Hl. rewrite Vr, (Qabs_pos _ Nr) in Hl.
    destruct (Hl Fr) as (Fv & Ev & Sv).
    { apply Qlt_trans with 2; [exact Bv | ].
      apply Qlt_le_trans with (bpow 2); [reflexivity | apply bpow_le; lia]. }
    specialize (Sv Nr).
    assert (Lt0 : (x <? 0)%float = false).
    { apply ltb_false_val; [exact Fx | reflexivity | rewrite B2Q_zero; exact Hx]. }
    rewrite Lt0.
    split; [exact Fv | split; [exact Sv | ]].
    apply Qabs_Qle_condition in Ev. destruct Ev as [_ Ev].
    assert (P50 : bpow (-50) == 1 # 1125899906842624) by reflexivity.
    assert (E48 : bpow (-48) == 4 # 1125899906842624) by reflexivity.
    assert (P1072 : bpow (-1072) <= bpow (-50)) by (apply bpow_le; lia).
    set (V := inject_Z (Uint63.to_Z r) * bpow (-51)) in *.
    assert (bpow (-50) * V <= bpow (-50) * 2).
    { apply Qmult_le_compat_l; lra. }
    lra.
Qed.

(** *** Rounding to an integer *)

Lemma of_uint63_byte (n : int) : (Uint63.to_Z n < 256)%Z -> In (of_uint63 n) bytes.
Proof.
  intros Hn. pose proof (Uint63.to_Z_bounded n) as Hb.
  assert (Hall : forallb (fun k => existsb (Leibniz.eqb (of_uint63 (Uint63.of_Z (Z.of_nat k))))
                                           bytes) (seq 0 256) = true)
    by (vm_compute; reflexivity).
  rewrite forallb_forall in Hall.
  specialize (Hall (Z.to_nat (Uint63.to_Z n)) ltac:(apply in_seq; lia)).
  rewrite Z2Nat.id, Uint63.of_to_Z in Hall by lia.
  apply existsb_exists in Hall. destruct Hall as (y & Hy & Heq).
  apply FloatAxioms.Leibniz.eqb_spec in Heq. rewrite Heq. exact Hy.
Qed.

Lemma zero_value (y : float) :
  finite y = true -> B2Q y == 0 -> y = neg_zero \/ y = zero.
Proof.
  unfold finite, B2Q. intros F V.
  destruct (Prim2SF y) as [s | s | | s m e] eqn:E; try discriminate F.
  - destruct s; [left | right]; apply Prim2SF_inj; rewrite E; reflexivity.
  - exfalso. cbn [SFval] in V. pose proof (mant_pos m e).
    destruct s; unfold sign_of in V; lra.
Qed.

Lemma B2Q_half : B2Q 0.5%float == 1 # 2.
Proof. reflexivity. Qed.

Lemma B2Q_2p52 : B2Q 0x1p52%float == bpow 52.
Proof. reflexivity. Qed.

Theorem Math_round_byte (y : float) :
  finite y = true -> - (1 # 2) < B2Q y < 255 + (1 # 2) ->
  Math_round y = neg_zero \/ In (Math_round y) bytes.
Proof.
  intros Fy [Lo Hi].
  destruct (abs_val y) as [Fa Va]. rewrite Fy in Fa.
  unfold Math_round. cbv beta zeta.
  destruct (abs y <? 0.5)%float eqn:Small.
  - destruct (y <? 0)%float eqn:Neg; [left; reflexivity | ].
    destruct (0 <? y)%float eqn:Pos; [right; left; reflexivity | ].
    apply ltb_false_val in Neg; [ | exact Fy | reflexivity].
    apply ltb_false_val in Pos; [ | reflexivity | exact Fy].
    rewrite B2Q_zero in Neg, Pos.
    destruct (zero_value y Fy ltac:(lra)) as [-> | ->]; [left | right; left]; reflexivity.
  - apply ltb_false_val in Small; [ | exact Fa | reflexivity].
    rewrite Va, B2Q_half in Small.
    assert (Hy : 1 # 2 <= B2Q y).
    { destruct (Qlt_le_dec (B2Q y) 0) as [N | P].
      - rewrite Qabs_neg in Small by lra. lra.
      - rewrite Qabs_pos in Small by lra. exact Small. }
    assert (Big : (abs y <? 0x1p52)%float = true).
    { apply ltb_val; [exact Fa | reflexivity | ].
      rewrite Va, B2Q_2p52, Qabs_pos by lra.
      apply Qlt_trans with 256; [lra | ].
      change 256 with (bpow 8). apply bpow_lt. lia. }
    rewrite Big.
    assert (Nz : ~ B2Q y == 0) by (intros E; rewrite E in Hy; lra).
    pose proof (frshiftexp_val y Fy Nz) as Hf.
    destruct (frshiftexp y) as [f e]. destruct Hf as (HM & HV & HE).
    rewrite Qabs_pos in HV by lra.
    change shift with 2101%Z in *.
    assert (Neg : (y <? 0)%float = false).
    { apply ltb_false_val; [exact Fy | reflexivity | rewrite B2Q_zero; lra]. }
    rewrite Neg. right. apply of_uint63_byte.
    set (M := Uint63.to_Z (normfr_mantissa f)) in *.
    set (E := (Uint63.to_Z e - 2101)%Z) in *.
    (* the exponent is between 0 and 8 *)
    assert (E0 : (0 <= E)%Z).
    { pose proof (scaled_below M (E - 53) 53 (E - 53) ltac:(lia) ltac:(lia) ltac:(lia)) as B.
      rewrite <- HV in B.
      assert (L : bpow (-1) < bpow (53 + (E - 53))).
      { apply Qle_lt_trans with (B2Q y); [ | exact B].
        change (bpow (-1)) with (1 # 2). exact Hy. }
      apply bpow_lt_inv in L. lia. }
    assert (E8 : (E <= 8)%Z).
    { pose proof (scaled_above M (E - 53) 52 ltac:(lia) ltac:(lia)) as B.
      rewrite <- HV in B.
      assert (L : bpow (52 + (E - 53)) < bpow 8).
      { apply Qle_lt_trans with (B2Q y); [exact B | ].
        change (bpow 8) with 256. lra. }
      apply bpow_lt_inv in L. lia. }
    pose proof (Uint63.to_Z_bounded e) as Be.
    assert (W : wB = (2 ^ 63)%Z) by reflexivity.
    change (bias + 53)%uint63 with 2154%uint63.
    set (k := (2154 - e)%uint63).
    assert (Hk : Uint63.to_Z k = (53 - E)%Z).
    { unfold k. rewrite Uint63.sub_spec. change (Uint63.to_Z 2154) with 2154%Z.
      rewrite Z.mod_small; unfold E; lia. }
    set (K := (53 - E)%Z) in *.
    assert (HK : (45 <= K <= 53)%Z) by (unfold K; lia).
    assert (P2K : (2 ^ K = 2 * 2 ^ (K - 1))%Z).
    { rewrite <- Z.pow_succ_r by lia. f_equal. lia. }
    assert (PK1 : (0 < 2 ^ (K - 1))%Z) by (apply Z.pow_pos_nonneg; lia).
    assert (UK : (2 ^ K <= 2 ^ 53)%Z) by (apply Z.pow_le_mono_r; lia).
    assert (Hk1 : Uint63.to_Z (k - 1) = (K - 1)%Z).
    { rewrite Uint63.sub_spec, Hk. change (Uint63.to_Z 1) with 1%Z.
      rewrite Z.mod_small; lia. }
    assert (Hh : Uint63.to_Z (1 << (k - 1)) = (2 ^ (K - 1))%Z).
    { rewrite Uint63.lsl_spec, Hk1. change (Uint63.to_Z 1) with 1%Z.
      rewrite Z.mul_1_l, Z.mod_small; lia. }
    rewrite Uint63.lsr_spec, Uint63.add_spec, Hh, Hk. fold M.
    rewrite Z.mod_small by lia.
    apply Z.div_lt_upper_bound; [lia | ].
    (* M < 255.5 * 2^K *)
    assert (HQ : inject_Z M * 2 < 511 * inject_Z (2 ^ K)).
    { rewrite <- (bpow_inject K) by lia.
      assert (Eb : bpow (E - 53) * bpow K == 1).
      { rewrite <- bpow_add. replace (E - 53 + K)%Z with 0%Z by (unfold K; lia).
        reflexivity. }
      pose proof (bpow_pos K) as PK. pose proof (bpow_pos (E - 53)) as PE.
      assert (EM : inject_Z M == B2Q y * bpow K).
      { rewrite HV, <- Qmult_assoc, Eb. ring. }
      rewrite EM.
      assert (B2Q y * bpow K < (255 + (1 # 2)) * bpow K)
        by (apply Qmult_lt_compat_r; assumption).
      lra. }
    assert (HZ : (M * 2 < 511 * 2 ^ K)%Z).
    { rewrite Zlt_Qlt, !inject_Z_mult. exact HQ. }
    lia.
Qed.

(** *** One operation on numbers of moderate size *)

Lemma step_err (v : Q) :
  Qabs v <= 1024 -> Qabs v < bpow 1000 /\ bpow (-50) * Qabs v + bpow (-1072) <= u.
Proof.
  intros H. split.
  - apply Qle_lt_trans with (bpow 10); [exact H | apply bpow_lt; lia].
  - assert (E : bpow (-50) * 1024 == bpow (-40)) by reflexivity.
    assert (L : bpow (-1072) <= bpow (-40)) by (apply bpow_le; lia).
    assert (U : u == bpow (-40) + bpow (-40)) by reflexivity.
    assert (M : bpow (-50) * Qabs v <= bpow (-50) * 1024).
    { apply Qmult_le_compat_l; [exact H | apply Qlt_le_weak, bpow_pos]. }
    lra.
Qed.

Lemma within (a b d : Q) : Qabs (a - b) <= d -> b - d <= a <= b + d.
Proof. intros H. apply Qabs_Qle_condition in H. lra. Qed.

Lemma add_step (x y : float) :
  finite x = true -> finite y = true -> Qabs (B2Q x + B2Q y) <= 1024 ->
  finite (x + y) = true /\ B2Q x + B2Q y - u <= B2Q (x + y) <= B2Q x + B2Q y + u.
Proof.
  intros Fx Fy H. destruct (step_err _ H) as [Hb He].
  destruct (add_val x y Fx Fy Hb) as [F E].
  split; [exact F | apply within; lra].
Qed.

Lemma sub_step (x y : float) :
  finite x = true -> finite y = true -> Qabs (B2Q x - B2Q y) <= 1024 ->
  finite (x - y) = true /\ B2Q x - B2Q y - u <= B2Q (x - y) <= B2Q x - B2Q y + u.
Proof.
  intros Fx Fy H. destruct (step_err _ H) as [Hb He].
  destruct (sub_val x y Fx Fy Hb) as [F E].
  split; [exact F | apply within; lra].
Qed.

Lemma mul_step (x y : float) :
  finite x = true -> finite y = true -> Qabs (B2Q x * B2Q y) <= 1024 ->
  finite (x * y) = true /\ B2Q x * B2Q y - u <= B2Q (x * y) <= B2Q x * B2Q y + u.
Proof.
  intros Fx Fy H. destruct (step_err _ H) as [Hb He].
  destruct (mul_val x y Fx Fy Hb) as [F E].
  split; [exact F | apply within; lra].
Qed.

Lemma div_step (x y : float) :
  finite x = true -> finite y = true -> ~ B2Q y == 0 ->
  Qabs (B2Q x / B2Q y) <= 1024 ->
  finite (x / y) = true /\ B2Q x / B2Q y - u <= B2Q (x / y) <= B2Q x / B2Q y + u.
Proof.
  intros Fx Fy Ny H. destruct (step_err _ H) as [Hb He].
  destruct (div_val x y Fx Fy Ny Hb) as [F E].
  split; [exact F | apply within; lra].
Qed.

Lemma Qabs_le (x y : Q) : - y <= x <= y -> Qabs x <= y.
Proof. intros H. apply Qabs_Qle_condition. exact H. Qed.

Lemma Qabs_ge (x : Q) : x <= Qabs x /\ - x <= Qabs x.
Proof.
  split; [apply Qle_Qabs | ]. rewrite <- Qabs_opp. apply Qle_Qabs.
Qed.

(** The product of a number of [[-e, 2]] and one of [[-e, 1 + e]]. *)
Lemma mul_unit (p q e : Q) :
  0 <= e <= 1 -> - e <= p <= 2 -> - e <= q <= 1 + e ->
  - (2 * e) <= p * q <= p + 3 * e.
Proof.
  intros He Hp Hq.
  destruct (Qlt_le_dec p 0) as [Pn | Pp]; destruct (Qlt_le_dec q 0) as [Qn | Qp].
  - assert (0 <= (- p) * (- q)) by (apply Qmult_le_0_compat; lra).
    assert ((- p) * (- q) <= e * e).
    { apply Qle_trans with (e * (- q)).
      - apply Qmult_le_compat_r; lra.
      - apply Qmult_le_compat_l; lra. }
    assert (e * e <= e * 1) by (apply Qmult_le_compat_l; lra).
    assert (E : (- p) * (- q) == p * q) by ring.
    lra.
  - assert (0 <= (- p) * q) by (apply Qmult_le_0_compat; lra).
    assert ((- p) * q <= e * (1 + e)).
    { apply Qle_trans with (e * q).
      - apply Qmult_le_compat_r; lra.
      - apply Qmult_le_compat_l; lra. }
    assert (e * e <= e * 1) by (apply Qmult_le_compat_l; lra).
    assert (E : (- p) * q == - (p * q)) by ring.
    lra.
  - assert (0 <= p * (- q)) by (apply Qmult_le_0_compat; lra).
    assert (p * (- q) <= 2 * e).
    { apply Qle_trans with (2 * (- q)).
      - apply Qmult_le_compat_r; lra.
      - apply Qmult_le_compat_l; lra. }
    assert (E : p * (- q) == - (p * q)) by ring.
    lra.
  - assert (0 <= p * q) by (apply Qmult_le_0_compat; lra).
    assert (p * q <= p * (1 + e)) by (apply Qmult_le_compat_l; lra).
    assert (p * e <= 2 * e) by (apply Qmult_le_compat_r; lra).
    lra.
Qed.

Ltac literal n v :=
  let F := fresh "F" in
  let V := fresh "V" in
  assert (F : finite (of_uint63 n) = true) by reflexivity;
  assert (V : B2Q (of_uint63 n) == v) by reflexivity.

Section Channels.

Variables h s l : float.
Hypothesis Fh : finite h = true.
Hypothesis Fs : finite s = true.
Hypothesis Fl : finite l = true.
Hypothesis Hh : 0 <= B2Q h < 360.
Hypothesis Hs : 0 <= B2Q s <= 100.
Hypothesis Hl : 0 <= B2Q l <= 100.

Lemma channel_bounds :
  finite (chroma s l) = true /\ finite (second h s l) = true
  /\ finite (offset s l) = true
  /\ - slack <= B2Q (chroma s l)
  /\ - slack <= B2Q (second h s l) <= B2Q (chroma s l) + slack
  /\ - slack <= B2Q (offset s l)
  /\ B2Q (offset s l) + B2Q (chroma s l) <= 1 + slack.
Proof.
  unfold second, offset, chroma, slack.
  cbv beta iota delta [Num.lit arith].
  assert (U : u == 1 # 549755813888) by reflexivity.
  literal 100%uint63 100. literal 2%uint63 2. literal 1%uint63 1. literal 60%uint63 60.
  (* s / 100 and l / 100 *)
  set (S := (s / of_uint63 100)%float).
  destruct (div_step s (of_uint63 100) Fs F) as [FS ES].
  { rewrite V. discriminate. }
  { rewrite V. apply Qabs_le. unfold Qdiv. change (/ 100) with (1 # 100). lra. }
  fold S in FS, ES. rewrite V in ES. unfold Qdiv in ES. change (/ 100) with (1 # 100) in ES.
  set (L := (l / of_uint63 100)%float).
  destruct (div_step l (of_uint63 100) Fl F) as [FL EL].
  { rewrite V. discriminate. }
  { rewrite V. apply Qabs_le. unfold Qdiv. change (/ 100) with (1 # 100). lra. }
  fold L in FL, EL. rewrite V in EL. unfold Qdiv in EL. change (/ 100) with (1 # 100) in EL.
  (* 1 - |2 l - 1| *)
  set (t1 := (of_uint63 2 * L)%float).
  destruct (mul_step (of_uint63 2) L F0 FL) as [F1' E1'].
  { rewrite V0. apply Qabs_le. lra. }
  fold t1 in F1', E1'. rewrite V0 in E1'.
  set (t2 := (t1 - of_uint63 1)%float).
  destruct (sub_step t1 (of_uint63 1) F1' F1) as [F2' E2'].
  { rewrite V1. apply Qabs_le. lra. }
  fold t2 in F2', E2'. rewrite V1 in E2'.
  destruct (abs_val t2) as [Fa2 Va2]. rewrite F2' in Fa2.
  pose proof (Qabs_ge (B2Q t2)) as [Ga2 Ga2'].
  assert (Ua2 : Qabs (B2Q t2) <= 1 + 4 * u) by (apply Qabs_le; lra).
  rewrite <- Va2 in Ga2, Ga2', Ua2.
  set (a2 := abs t2) in *.
  set (t3 := (of_uint63 1 - a2)%float).
  destruct (sub_step (of_uint63 1) a2 F1 Fa2) as [F3' E3'].
  { rewrite V1. apply Qabs_le. lra. }
  fold t3 in F3', E3'. rewrite V1 in E3'.
  (* c *)
  set (c := (t3 * S)%float).
  pose proof (mul_unit (B2Q t3) (B2Q S) (8 * u) ltac:(lra) ltac:(lra) ltac:(lra)) as Pc.
  destruct (mul_step t3 S F3' FS) as [Fc Ec].
  { apply Qabs_le. lra. }
  fold c in Fc, Ec.
  (* hh and the remainder *)
  set (hh := (h / of_uint63 60)%float).
  assert (Qh : 0 <= B2Q h / B2Q (of_uint63 60) <= 6).
  { rewrite V2. unfold Qdiv. change (/ 60) with (1 # 60). lra. }
  destruct (div_step h (of_uint63 60) Fh F2) as [Fhh Ehh].
  { rewrite V2. discriminate. }
  { apply Qabs_le. lra. }
  assert (Nhh : 0 <= B2Q (h / of_uint63 60)).
  { apply div_nonneg; try assumption; [tauto | rewrite V2; lra | ].
    apply Qle_lt_trans with (bpow 3); [change (bpow 3) with 8; lra | apply bpow_lt; lia]. }
  fold hh in Fhh, Ehh, Nhh.
  destruct (rem_two_val hh Fhh Nhh) as [Fr Er].
  assert (B48 : bpow (-48) <= u) by (apply bpow_le; lia).
  set (r2 := rem hh (of_uint63 2)) in *.
  set (t5 := (r2 - of_uint63 1)%float).
  destruct (sub_step r2 (of_uint63 1) Fr F1) as [F5 E5].
  { rewrite V1. apply Qabs_le. lra. }
  fold t5 in F5, E5. rewrite V1 in E5.
  destruct (abs_val t5) as [Fa5 Va5]. rewrite F5 in Fa5.
  pose proof (Qabs_ge (B2Q t5)) as [Ga5 Ga5'].
  assert (Ua5 : Qabs (B2Q t5) <= 1 + 2 * u) by (apply Qabs_le; lra).
  pose proof (Qabs_nonneg (B2Q t5)) as Na5.
  rewrite <- Va5 in Ga5, Ga5', Ua5, Na5.
  set (a5 := abs t5) in *.
  set (t6 := (of_uint63 1 - a5)%float).
  destruct (sub_step (of_uint63 1) a5 F1 Fa5) as [F6 E6].
  { rewrite V1. apply Qabs_le. lra. }
  fold t6 in F6, E6. rewrite V1 in E6.
  (* x *)
  set (x := (c * t6)%float).
  pose proof (mul_unit (B2Q c) (B2Q t6) (32 * u) ltac:(lra) ltac:(lra) ltac:(lra)) as Px.
  destruct (mul_step c t6 Fc F6) as [Fx Ex].
  { apply Qabs_le. lra. }
  fold x in Fx, Ex.
  (* m *)
  set (c2 := (c / of_uint63 2)%float).
  destruct (div_step c (of_uint63 2) Fc F0) as [Fc2 Ec2].
  { rewrite V0. discriminate. }
  { rewrite V0. apply Qabs_le. unfold Qdiv. change (/ 2) with (1 # 2). lra. }
  fold c2 in Fc2, Ec2. rewrite V0 in Ec2. unfold Qdiv in Ec2. change (/ 2) with (1 # 2) in Ec2.
  set (m := (L - c2)%float).
  destruct (sub_step L c2 FL Fc2) as [Fm Em].
  { apply Qabs_le. lra. }
  fold m in Fm, Em.
  repeat split; try assumption; lra.
Qed.

End Channels.

(** A number between two finite numbers is finite. *)
Lemma leb_finite_r (a x : float) :
  finite a = true -> (a <=? x)%float = true -> x = infinity \/ finite x = true.
Proof.
  unfold finite. rewrite leb_spec. intros Fa H.
  destruct (Prim2SF x) as [sx | sx | | sx mx ex] eqn:Ex; try (right; reflexivity).
  - destruct sx.
    + destruct (Prim2SF a) as [sa | sa | | sa ma ea]; discriminate.
    + left. apply Prim2SF_inj. rewrite Ex. reflexivity.
  - destruct (Prim2SF a) as [sa | sa | | sa ma ea]; discriminate.
Qed.

Lemma between_lt (a b x : float) :
  finite a = true -> finite b = true ->
  (a <=? x)%float = true -> (x <? b)%float = true ->
  finite x = true /\ B2Q a <= B2Q x < B2Q b.
Proof.
  intros Fa Fb Hl Hu.
  assert (Fx : finite x = true).
  { destruct (leb_finite_r a x Fa Hl) as [-> | F]; [ | exact F].
    exfalso. rewrite ltb_spec in Hu. unfold finite in Fb.
    destruct (Prim2SF b) as [sb | sb | | sb mb eb]; try discriminate Fb;
      cbn in Hu; discriminate Hu. }
  split; [exact Fx | split].
  - apply leb_val; assumption.
  - apply ltb_val; assumption.
Qed.

Lemma between_le (a b x : float) :
  finite a = true -> finite b = true ->
  (a <=? x)%float = true -> (x <=? b)%float = true ->
  finite x = true /\ B2Q a <= B2Q x <= B2Q b.
Proof.
  intros Fa Fb Hl Hu.
  assert (Fx : finite x = true).
  { destruct (leb_finite_r a x Fa Hl) as [-> | F]; [ | exact F].
    exfalso. rewrite leb_spec in Hu. unfold finite in Fb.
    destruct (Prim2SF b) as [sb | sb | | sb mb eb]; try discriminate Fb;
      cbn in Hu; discriminate Hu. }
  split; [exact Fx | split]; apply leb_val; assumption.
Qed.

Ltac sector :=
  eexists _, _, _; (split; [ | split; [ | split; [ | reflexivity]]]); auto.

(** The three channels are [c], [x] or [0], shifted by [m]. *)
Lemma hslChannels_sector (h s l : number) :
  exists r g b : number,
    (r = chroma s l \/ r = second h s l \/ r = lit 0)
    /\ (g = chroma s l \/ g = second h s l \/ g = lit 0)
    /\ (b = chroma s l \/ b = second h s l \/ b = lit 0)
    /\ hslChannels h s l
       = (Math_round ((r + offset s l) * lit 255),
          Math_round ((g + offset s l) * lit 255),
          Math_round ((b + offset s l) * lit 255))%float.
Proof.
  unfold hslChannels.
  fold (chroma s l). fold (second h s l). fold (offset s l).
  destruct (_ && _)%bool; [sector | ].
  destruct (_ && _)%bool; [sector | ].
  destruct (_ && _)%bool; [sector | ].
  destruct (_ && _)%bool; [sector | ].
  destruct (_ && _)%bool; [sector | ].
  destruct (_ && _)%bool; sector.
Qed.

Section Rounded.

Variables h s l : float.
Hypothesis Fh : finite h = true.
Hypothesis Fs : finite s = true.
Hypothesis Fl : finite l = true.
Hypothesis Hh : 0 <= B2Q h < 360.
Hypothesis Hs : 0 <= B2Q s <= 100.
Hypothesis Hl : 0 <= B2Q l <= 100.

Lemma channel_byte (r : number) :
  r = chroma s l \/ r = second h s l \/ r = lit 0 ->
  let v := Math_round ((r + offset s l) * lit 255)%float in
  v = neg_zero \/ In v bytes.
Proof.
  intros Hr v.
  destruct (channel_bounds h s l Fh Fs Fl Hh Hs Hl) as (Fc & Fx & Fm & Bc & Bx & Bm & Bs).
  assert (U : u == 1 # 549755813888) by reflexivity.
  unfold slack in *.
  assert (Fr : finite r = true /\ - (128 * u) <= B2Q r <= B2Q (chroma s l) + 128 * u).
  { destruct Hr as [-> | [-> | ->]].
    - split; [exact Fc | lra].
    - split; [exact Fx | lra].
    - split; [reflexivity | ]. change (B2Q (lit 0)) with 0. lra. }
  destruct Fr as [Fr Br].
  destruct (add_step r (offset s l) Fr Fm) as [Fa Ea].
  { apply Qabs_le. lra. }
  assert (F255 : finite (lit 255) = true) by reflexivity.
  assert (V255 : B2Q (lit 255) == 255) by reflexivity.
  destruct (mul_step (r + offset s l) (lit 255) Fa F255) as [Fy Ey].
  { rewrite V255. apply Qabs_le. lra. }
  rewrite V255 in Ey.
  apply Math_round_byte; [exact Fy | lra].
Qed.

End Rounded.

End Rounding.

(** C8: on binary64 numbers, for every [h] in [0, 360) and [s], [l] in
    [0, 100], the three values that [hslToHex] rounds are integers of
    [0, 255], with no clamping, and the string returned is [#] followed by
    three fields of two hexadecimal digits each, padded with a zero. *)
Theorem hslToHex_channels_in_range (h s l : number) :
  (lit 0 <=? h)%js = true -> (h <? lit 360)%js = true ->
  (lit 0 <=? s)%js = true -> (s <=? lit 100)%js = true ->
  (lit 0 <=? l)%js = true -> (l <=? lit 100)%js = true ->
  exists r g b : number,
    hslChannels h s l = (r, g, b)
    /\ byteValued r = true /\ byteValued g = true /\ byteValued b = true
    /\ hslToHex h s l = "#" ++ toHex r ++ toHex g ++ toHex b
    /\ twoHexDigits (toHex r) = true
    /\ twoHexDigits (toHex g) = true
    /\ twoHexDigits (toHex b) = true.
Proof.
  intros H0 H360 S0 S100 L0 L100.
  assert (F0 : Binary64.finite (lit 0) = true) by reflexivity.
  assert (F100 : Binary64.finite (lit 100) = true) by reflexivity.
  assert (F360 : Binary64.finite (lit 360) = true) by reflexivity.
  destruct (Rounding.between_lt (lit 0) (lit 360) h F0 F360 H0 H360) as [Fh Bh].
  destruct (Rounding.between_le (lit 0) (lit 100) s F0 F100 S0 S100) as [Fs Bs].
  destruct (Rounding.between_le (lit 0) (lit 100) l F0 F100 L0 L100) as [Fl Bl].
  change (Binary64.B2Q (lit 0)) with 0%Q in *.
  assert (V360 : (Binary64.B2Q (lit 360) == 360)%Q) by reflexivity.
  assert (V100 : (Binary64.B2Q (lit 100) == 100)%Q) by reflexivity.
  rewrite V360 in Bh. rewrite V100 in Bs, Bl.
  destruct (Rounding.hslChannels_sector h s l) as (r & g & b & Hr & Hg & Hb & E).
  pose proof (Rounding.channel_byte h s l Fh Fs Fl Bh Bs Bl r Hr) as Cr.
  pose proof (Rounding.channel_byte h s l Fh Fs Fl Bh Bs Bl g Hg) as Cg.
  pose proof (Rounding.channel_byte h s l Fh Fs Fl Bh Bs Bl b Hb) as Cb.
  cbv zeta in Cr, Cg, Cb.
  destruct (byte_prints _ Cr) as [Vr Tr].
  destruct (byte_prints _ Cg) as [Vg Tg].
  destruct (byte_prints _ Cb) as [Vb Tb].
  unfold hslToHex. rewrite E.
  eexists _, _, _. repeat split; eassumption.
Qed.

Lemma hslToHex_channels_in_range_witness :
  exists r g b : number,
    hslChannels 210 40 62.5 = (r, g, b)
    /\ byteValued r = true /\ byteValued g = true /\ byteValued b = true
    /\ hslToHex 210 40 62.5 = "#" ++ toHex r ++ toHex g ++ toHex b
    /\ twoHexDigits (toHex r) = true
    /\ twoHexDigits (toHex g) = true
    /\ twoHexDigits (toHex b) = true.
Proof. apply (hslToHex_channels_in_range 210 40 62.5); reflexivity. Defined.

(** * Further properties of the script *)

(** ** [hexToRgb]: what is accepted, what is read *)

Lemma parse_pair_channel (a b : ascii) :
  parsedChannel (parseInt16 (String a (String b EmptyString))) = true.
Proof.
  assert (Hall : forallb pairParses allAscii = true) by (vm_compute; reflexivity).
  rewrite forallb_forall in Hall. specialize (Hall a (In_allAscii a)).
  unfold pairParses in Hall. rewrite forallb_forall in Hall.
  exact (Hall b (In_allAscii b)).
Qed.

(** X1: [hexToRgb] does not throw on a string that has six characters once
    cleaned, whatever they are; each channel is then NaN or an integer
    from -15 to 255. *)
Theorem hexToRgb_six_characters (hex : string) :
  String.length (clean hex) = 6%nat ->
  exists c : rgb,
    hexToRgb hex = Ok c
    /\ parsedChannel (red c) = true
    /\ parsedChannel (green c) = true
    /\ parsedChannel (blue c) = true.
Proof.
  intros Hlen. unfold hexToRgb.
  destruct (clean hex) as [| c1 [| c2 [| c3 [| c4 [| c5 [| c6 [| c7 rest]]]]]]];
    try discriminate Hlen.
  cbn [String.length Nat.eqb negb slice substring Nat.sub].
  eexists. split; [reflexivity | ].
  cbn [red green blue]. repeat split; apply parse_pair_channel.
Qed.

Lemma hexToRgb_six_characters_witness :
  exists c : rgb,
    hexToRgb " -f 0xz " = Ok c
    /\ parsedChannel (red c) = true
    /\ parsedChannel (green c) = true
    /\ parsedChannel (blue c) = true.
Proof. apply (hexToRgb_six_characters " -f 0xz "). reflexivity. Defined.

(** X2: a valid colour string is parsed into three integers of [0, 255]. *)
Theorem hexToRgb_valid_channels (hex : string) :
  validHex hex = true ->
  exists c : rgb,
    hexToRgb hex = Ok c
    /\ byteValued (red c) = true
    /\ byteValued (green c) = true
    /\ byteValued (blue c) = true.
Proof.
  intros Hv.
  destruct (hexToRgb_valid hex Hv) as (r & g & b & Hparse & Hr & Hg & Hb).
  eexists. split; [exact Hparse | ].
  cbn [red green blue].
  repeat split; apply byte_prints; right; assumption.
Qed.

Lemma hexToRgb_valid_channels_witness :
  exists c : rgb,
    hexToRgb "#D4c7A6  " = Ok c
    /\ byteValued (red c) = true
    /\ byteValued (green c) = true
    /\ byteValued (blue c) = true.
Proof. apply (hexToRgb_valid_channels "#D4c7A6  "). reflexivity. Defined.

(** *** The hash sign and the white space *)

Lemma dropHash_cons (c : ascii) (rest : string) :
  dropHash (String c rest) = if Ascii.eqb c "#" then rest else String c rest.
Proof.
  destruct c as [[] [] [] [] [] [] [] []]; reflexivity.
Qed.

Lemma hexChar_plain (c : ascii) :
  isHexChar c = true -> isWhiteSpace c = false /\ Ascii.eqb c "#" = false.
Proof.
  intros Hc.
  assert (Hall : forallb (fun c => if isHexChar c
                                   then negb (isWhiteSpace c) && negb (Ascii.eqb c "#")
                                   else true) allAscii = true)
    by (vm_compute; reflexivity).
  rewrite forallb_forall in Hall. specialize (Hall c (In_allAscii c)).
  rewrite Hc in Hall. apply andb_prop in Hall. destruct Hall as [H1 H2].
  split; apply negb_true_iff; assumption.
Qed.

Lemma white_not_hash (c : ascii) : isWhiteSpace c = true -> Ascii.eqb c "#" = false.
Proof.
  intros Hc.
  assert (Hall : forallb (fun c => if isWhiteSpace c then negb (Ascii.eqb c "#") else true)
                         allAscii = true)
    by (vm_compute; reflexivity).
  rewrite forallb_forall in Hall. specialize (Hall c (In_allAscii c)).
  rewrite Hc in Hall. apply negb_true_iff. exact Hall.
Qed.

Lemma trimStart_white (ws s : string) :
  allChars isWhiteSpace ws = true -> trimStart (ws ++ s) = trimStart s.
Proof.
  induction ws as [| c ws IH]; intros Hw; [reflexivity | ].
  cbn [allChars] in Hw. apply andb_prop in Hw. destruct Hw as [Hc Hw].
  cbn [String.append trimStart]. rewrite Hc. exact (IH Hw).
Qed.

Lemma trimEnd_white (ws : string) :
  allChars isWhiteSpace ws = true -> trimEnd ws = "".
Proof.
  induction ws as [| c ws IH]; intros Hw; [reflexivity | ].
  cbn [allChars] in Hw. apply andb_prop in Hw. destruct Hw as [Hc Hw].
  cbn [trimEnd]. rewrite (IH Hw), Hc. reflexivity.
Qed.

Lemma trimEnd_app_white (s ws : string) :
  allChars isWhiteSpace ws = true -> trimEnd (s ++ ws) = trimEnd s.
Proof.
  intros Hw. induction s as [| c s IH]; cbn [String.append trimEnd].
  - apply trimEnd_white. exact Hw.
  - rewrite IH. reflexivity.
Qed.

(** A string of six hexadecimal digits is left as it is by [trim]. *)
Lemma trim_hex6 (d : string) :
  String.length d = 6%nat -> allChars isHexChar d = true ->
  trimStart d = d /\ trimEnd d = d
  /\ exists (c : ascii) (rest : string),
       d = String c rest /\ isWhiteSpace c = false /\ Ascii.eqb c "#" = false.
Proof.
  intros Hlen Hall.
  destruct d as [| c1 [| c2 [| c3 [| c4 [| c5 [| c6 [| c7 rest]]]]]]];
    try discriminate Hlen.
  cbn [allChars] in Hall.
  repeat (apply andb_prop in Hall; let H := fresh "Hc" in destruct Hall as [H Hall]).
  destruct (hexChar_plain c1 Hc) as [W1 N1].
  destruct (hexChar_plain c6 Hc4) as [W6 _].
  split; [cbn [trimStart]; rewrite W1; reflexivity | ].
  split; [cbn [trimEnd]; rewrite W6; reflexivity | ].
  eexists _, _. split; [reflexivity | split; assumption].
Qed.

(** X3: white space around the six digits is ignored, and so is one hash
    sign, but only as the very first character of the input: a hash sign
    after leading white space is kept, and the string is rejected. *)
Theorem hexToRgb_hash_first (d ws1 ws2 : string) :
  String.length d = 6%nat -> allChars isHexChar d = true ->
  allChars isWhiteSpace ws1 = true -> allChars isWhiteSpace ws2 = true ->
  hexToRgb ("#" ++ ws1 ++ d ++ ws2) = hexToRgb d
  /\ hexToRgb (ws1 ++ d ++ ws2) = hexToRgb d
  /\ (ws1 <> "" ->
      hexToRgb (ws1 ++ "#" ++ d ++ ws2)
      = Throw ("Expected 6-digit hex, got: " ++ ws1 ++ "#" ++ d ++ ws2)).
Proof.
  intros Hlen Hhex Hw1 Hw2.
  destruct (trim_hex6 d Hlen Hhex) as (Ts & Te & c & rest & Ed & Wc & Nc).
  subst d.
  assert (Cd : clean (String c rest) = String c rest).
  { unfold clean, trim. rewrite dropHash_cons, Nc, Ts, Te. reflexivity. }
  assert (Tr : trim (ws1 ++ String c rest ++ ws2) = String c rest).
  { unfold trim. rewrite trimStart_white by exact Hw1.
    assert (E : trimStart (String c rest ++ ws2) = String c rest ++ ws2).
    { cbn [String.append trimStart]. rewrite Wc. reflexivity. }
    rewrite E, trimEnd_app_white by exact Hw2. exact Te. }
  assert (C1 : clean ("#" ++ ws1 ++ String c rest ++ ws2) = String c rest).
  { unfold clean. cbn [String.append dropHash]. exact Tr. }
  assert (C2 : clean (ws1 ++ String c rest ++ ws2) = String c rest).
  { unfold clean. destruct ws1 as [| w ws1].
    - cbn [String.append] in Tr |- *. rewrite dropHash_cons, Nc. exact Tr.
    - cbn [allChars] in Hw1. apply andb_prop in Hw1. destruct Hw1 as [Hw Hw1].
      cbn [String.append] in Tr |- *. rewrite dropHash_cons, (white_not_hash w Hw).
      exact Tr. }
  unfold hexToRgb. rewrite C1, C2, Cd, Hlen. cbn [Nat.eqb negb].
  split; [reflexivity | split; [reflexivity | ]].
  intros Hne. destruct ws1 as [| w ws1]; [contradiction | ].
  cbn [allChars] in Hw1. apply andb_prop in Hw1. destruct Hw1 as [Hw Hw1].
  assert (C3 : clean (String w ws1 ++ "#" ++ String c rest ++ ws2)
               = "#" ++ String c rest).
  { unfold clean.
    change (String w ws1 ++ "#" ++ String c rest ++ ws2)
      with (String w (ws1 ++ "#" ++ String c rest ++ ws2)).
    rewrite dropHash_cons, (white_not_hash w Hw).
    change (String w (ws1 ++ "#" ++ String c rest ++ ws2))
      with (String w ws1 ++ (String "#" (String c rest) ++ ws2)).
    unfold trim.
    rewrite trimStart_white by (cbn [allChars]; rewrite Hw, Hw1; reflexivity).
    assert (E : trimStart (String "#" (String c rest) ++ ws2)
                = String "#" (String c rest) ++ ws2) by reflexivity.
    rewrite E, trimEnd_app_white by exact Hw2.
    change (trimEnd (String "#" (String c rest)))
      with (match trimEnd (String c rest) with
            | EmptyString => if isWhiteSpace "#" then EmptyString else String "#" EmptyString
            | kept => String "#" kept
            end).
    rewrite Te. reflexivity. }
  rewrite C3.
  assert (L : String.length ("#" ++ String c rest) = 7%nat)
    by (cbn [String.append String.length] in Hlen |- *; rewrite Hlen; reflexivity).
  rewrite L. reflexivity.
Qed.

Lemma hexToRgb_hash_first_witness :
  hexToRgb ("#" ++ " " ++ "736a46" ++ "  ") = hexToRgb "736a46"
  /\ hexToRgb (" " ++ "736a46" ++ "  ") = hexToRgb "736a46"
  /\ (" " <> "" ->
      hexToRgb (" " ++ "#" ++ "736a46" ++ "  ")
      = Throw ("Expected 6-digit hex, got: " ++ " " ++ "#" ++ "736a46" ++ "  ")).
Proof. apply (hexToRgb_hash_first "736a46" " " "  "); reflexivity. Defined.

(** *** Printing and parsing *)

Lemma In_bytes (n : Z) : (0 <= n <= 255)%Z -> In (num_of_Z n) bytes.
Proof.
  intros Hn.
  assert (E : bytes = map (fun k => num_of_Z (Z.of_nat k)) (seq 0 256))
    by (vm_compute; reflexivity).
  rewrite E. apply in_map_iff. exists (Z.to_nat n).
  rewrite Z2Nat.id by lia. split; [reflexivity | apply in_seq; lia].
Qed.

(** X4: the three fields that [hslToHex] prints for integer channels of
    [0, 255] are read back by [hexToRgb] as the same channels. *)
Theorem hexToRgb_reads_printed (r g b : Z) :
  (0 <= r <= 255)%Z -> (0 <= g <= 255)%Z -> (0 <= b <= 255)%Z ->
  hexToRgb ("#" ++ toHex (num_of_Z r) ++ toHex (num_of_Z g) ++ toHex (num_of_Z b))
  = Ok {| red := num_of_Z r; green := num_of_Z g; blue := num_of_Z b |}.
Proof.
  intros Hr Hg Hb.
  pose proof (printsAs_bytes _ (In_bytes r Hr)) as Pr.
  pose proof (printsAs_bytes _ (In_bytes g Hg)) as Pg.
  pose proof (printsAs_bytes _ (In_bytes b Hb)) as Pb.
  unfold printsAs in Pr, Pg, Pb.
  destruct (toHex (num_of_Z r)) as [| a1 [| b1 [| ? ?]]]; try discriminate Pr.
  destruct (toHex (num_of_Z g)) as [| a2 [| b2 [| ? ?]]]; try discriminate Pg.
  destruct (toHex (num_of_Z b)) as [| a3 [| b3 [| ? ?]]]; try discriminate Pb.
  repeat match goal with
         | H : (_ && _)%bool = true |- _ => apply andb_prop in H; destruct H
         end.
  rewrite hexToRgb_printed by assumption.
  repeat match goal with
         | H : Leibniz.eqb _ _ = true |- _ =>
             apply FloatAxioms.Leibniz.eqb_spec in H; rewrite H
         end.
  reflexivity.
Qed.

Lemma hexToRgb_reads_printed_witness :
  hexToRgb ("#" ++ toHex (num_of_Z 7) ++ toHex (num_of_Z 0) ++ toHex (num_of_Z 255))
  = Ok {| red := num_of_Z 7; green := num_of_Z 0; blue := num_of_Z 255 |}.
Proof. apply (hexToRgb_reads_printed 7 0 255); lia. Defined.

Lemma pair_reprints (a b : ascii) :
  isLowerHex a = true -> isLowerHex b = true ->
  toHex (parseInt16 (String a (String b EmptyString))) = String a (String b EmptyString).
Proof.
  intros Ha Hb.
  assert (Hall : forallb pairReprints allAscii = true) by (vm_compute; reflexivity).
  rewrite forallb_forall in Hall. specialize (Hall a (In_allAscii a)).
  unfold pairReprints in Hall. rewrite Ha, forallb_forall in Hall.
  specialize (Hall b (In_allAscii b)). rewrite Hb in Hall.
  apply String.eqb_eq. exact Hall.
Qed.

Lemma lowerHex_isHex (c : ascii) : isLowerHex c = true -> isHexChar c = true.
Proof.
  intros Hc.
  assert (Hall : forallb (fun c => if isLowerHex c then isHexChar c else true) allAscii = true)
    by (vm_compute; reflexivity).
  rewrite forallb_forall in Hall. specialize (Hall c (In_allAscii c)).
  rewrite Hc in Hall. exact Hall.
Qed.

Lemma sameChannel_prints (r' r : number) :
  sameChannel r' r = true -> toHex r' = toHex r.
Proof.
  unfold sameChannel. intros Hs.
  apply orb_prop in Hs. destruct Hs as [Hs | Hs].
  - apply FloatAxioms.Leibniz.eqb_spec in Hs. subst r'. reflexivity.
  - apply andb_prop in Hs. destruct Hs as [Hn Hz].
    apply FloatAxioms.Leibniz.eqb_spec in Hn, Hz. subst r' r. reflexivity.
Qed.

(** X5: a colour written in lower case is a fixed point of the round trip:
    parsing it, converting to HSL and printing gives the same string. *)
Theorem lower_case_colour_fixed (d : string) :
  lowerHex6 d = true ->
  exists c : rgb,
    hexToRgb ("#" ++ d) = Ok c
    /\ (let h := rgbToHsl (red c) (green c) (blue c) in
        hslToHex (hue h) (sat h) (lig h) = "#" ++ d).
Proof.
  unfold lowerHex6. intros Hd.
  apply andb_prop in Hd. destruct Hd as [Hlen Hall].
  destruct d as [| c1 [| c2 [| c3 [| c4 [| c5 [| c6 [| c7 rest]]]]]]];
    try discriminate Hlen.
  cbn [allChars] in Hall.
  repeat (apply andb_prop in Hall; let H := fresh "Hc" in destruct Hall as [H Hall]).
  change ("#" ++ String c1 (String c2 (String c3 (String c4 (String c5 (String c6 ""))))))
    with ("#" ++ String c1 (String c2 "") ++ String c3 (String c4 "")
              ++ String c5 (String c6 "")).
  rewrite hexToRgb_printed by assumption.
  eexists. split; [reflexivity | ].
  cbn [red green blue].
  set (r := parseInt16 (String c1 (String c2 ""))).
  set (g := parseInt16 (String c3 (String c4 ""))).
  set (b := parseInt16 (String c5 (String c6 ""))).
  assert (Hr : In r bytes) by (apply parse_hex_pair; apply lowerHex_isHex; assumption).
  assert (Hg : In g bytes) by (apply parse_hex_pair; apply lowerHex_isHex; assumption).
  assert (Hb : In b bytes) by (apply parse_hex_pair; apply lowerHex_isHex; assumption).
  pose proof (roundTrip_bytes r g b Hr Hg Hb) as Hrt.
  unfold roundTrip in Hrt. cbv zeta.
  unfold hslToHex.
  destruct (hslChannels (hue (rgbToHsl r g b)) (sat (rgbToHsl r g b)) (lig (rgbToHsl r g b)))
    as [[r' g'] b'].
  apply andb_prop in Hrt. destruct Hrt as [Hrt Hb'].
  apply andb_prop in Hrt. destruct Hrt as [Hr' Hg'].
  rewrite (sameChannel_prints _ _ Hr'), (sameChannel_prints _ _ Hg'),
    (sameChannel_prints _ _ Hb').
  unfold r, g, b. rewrite !pair_reprints by assumption.
  reflexivity.
Qed.

Lemma lower_case_colour_fixed_witness :
  exists c : rgb,
    hexToRgb ("#" ++ "d4c7a6") = Ok c
    /\ (let h := rgbToHsl (red c) (green c) (blue c) in
        hslToHex (hue h) (sat h) (lig h) = "#" ++ "d4c7a6").
Proof. apply (lower_case_colour_fixed "d4c7a6"). reflexivity. Defined.

(** ** [rgbToHsl] on integer channels; [makeGreen] never fails *)

Lemma hslInRangeDouble_eq (r g b : number) : hslInRange r g b = hslInRangeDouble r g b.
Proof. reflexivity. Qed.

Lemma hslInRange_all_bytes :
  forallb (fun r => forallb (fun g => forallb (hslInRangeDouble r g) bytes) bytes) bytes
  = true.
Proof. vm_compute. reflexivity. Qed.

(** X6: for integer channels of [0, 255], [rgbToHsl] returns a hue in
    [0, 360) and a lightness in [0, 100]; the saturation is not negative
    and exceeds 100 by at most [2^-40]: it does exceed 100, for instance
    for the colour (0, 0, 1). *)
Theorem rgbToHsl_range :
  (forall r g b : Z,
      (0 <= r <= 255)%Z -> (0 <= g <= 255)%Z -> (0 <= b <= 255)%Z ->
      let c := rgbToHsl (num_of_Z r) (num_of_Z g) (num_of_Z b) in
      (0 <=? hue c) = true /\ (hue c <? 360) = true
      /\ (0 <=? sat c) = true /\ (sat c <=? 100 + 0x1p-40) = true
      /\ (0 <=? lig c) = true /\ (lig c <=? 100) = true)
  /\ (100 <? sat (rgbToHsl 0 0 1)) = true.
Proof.
  split; [ | vm_compute; reflexivity].
  intros r g b Hr Hg Hb c.
  pose proof hslInRange_all_bytes as Hall.
  rewrite forallb_forall in Hall. specialize (Hall _ (In_bytes r Hr)).
  rewrite forallb_forall in Hall. specialize (Hall _ (In_bytes g Hg)).
  rewrite forallb_forall in Hall. specialize (Hall _ (In_bytes b Hb)).
  rewrite <- hslInRangeDouble_eq in Hall. unfold hslInRange in Hall. fold c in Hall.
  repeat match goal with
         | H : (_ && _)%bool = true |- _ => apply andb_prop in H; destruct H
         end.
  repeat split; assumption.
Qed.

(** *** [makeGreen] outside the loop of [buildPalette] *)

(** X12: with a total of at most 1 the position is 0, and [makeGreen]
    returns the start anchor whatever the index is. *)
Theorem makeGreen_single_tile (i total : number) :
  (total <=? 1) = true -> makeGreen i total = Ok START_HEX.
Proof.
  intros Ht. unfold makeGreen. rewrite Ht. vm_compute. reflexivity.
Qed.

Lemma makeGreen_single_tile_witness : makeGreen nan 1 = Ok START_HEX.
Proof. apply (makeGreen_single_tile nan 1). reflexivity. Defined.

(** X13: [makeGreen] never throws: the two anchors that it parses are
    constants of six hexadecimal digits, so the error of [hexToRgb] cannot
    arise, whatever the arguments are (numbers of any kind, NaN
    included). *)
Theorem makeGreen_never_throws (i total : number) :
  exists color : string, makeGreen i total = Ok color.
Proof.
  unfold makeGreen.
  set (t := if total <=? 1 then 0 else i / (total - 1)).
  destruct (t <? 0.5).
  - change (0 =? 0) with true. cbv iota.
    change (hexToRgb START_HEX) with (Ok {| red := 58; green := 59; blue := 35 |}).
    change (hexToRgb MID_HEX) with (Ok {| red := 115; green := 106; blue := 70 |}).
    cbn [bind]. eexists. reflexivity.
  - change (1 =? 0) with false. cbv iota.
    change (hexToRgb MID_HEX) with (Ok {| red := 115; green := 106; blue := 70 |}).
    change (hexToRgb END_HEX) with (Ok {| red := 212; green := 199; blue := 166 |}).
    cbn [bind]. eexists. reflexivity.
Qed.

(** ** The grid that [buildPalette] mounts *)

Lemma avoidMid_not_mid (r : Z) : (MID_INDEX =? avoidMid r)%Z = false.
Proof.
  unfold avoidMid. rewrite MID_INDEX_value. unfold TILE_COUNT.
  destruct (Z.eqb_spec r 30) as [-> | Hne]; [reflexivity | ].
  apply Z.eqb_neq. lia.
Qed.

Lemma nth_error_tileColors (i : nat) (t : swatch) (idx : Z) :
  nth_error (swatches idx 0 tileColors) i = Some t ->
  exists color : string,
    nth_error tileColors i = Some color /\ t = swatchOf idx (Z.of_nat i) color.
Proof.
  rewrite nth_error_swatches. destruct (nth_error tileColors i) as [c |]; [ | discriminate].
  cbn [option_map]. intros E. injection E as <-. exists c. split; reflexivity.
Qed.

(** X16: exactly one tile is the eye tile: the swatch at index 30 has the
    classes [swatch] and [has-eye], opens [./eye.html] when clicked and
    holds the text "Eye Color" before its label; it never carries the
    interests.  No other swatch has a click handler or the class
    [has-eye]. *)
Theorem eye_tile_is_unique (w : World) (old : list swatch) :
  palette w = Some old ->
  exists (w' : World) (tiles : list swatch),
    buildPalette w = Ok w'
    /\ palette w' = Some tiles
    /\ (exists t : swatch,
          nth_error tiles 30 = Some t
          /\ classList t = ["swatch"; "has-eye"]
          /\ onClick t = Some "./eye.html"
          /\ children t
             = [eyeText;
                {| divClass := "label"; divContent := TextContent "#031  #736a46" |}])
    /\ (forall (i : nat) (t : swatch),
          nth_error tiles i = Some t -> i <> 30%nat ->
          onClick t = None /\ ~ In "has-eye" (classList t)).
Proof.
  intros Hold.
  destruct (buildPalette_mounts w old Hold) as (w' & Hrun & Hpal).
  set (idx := avoidMid (randomIndex (randoms w (drawn w)))) in *.
  exists w'. eexists.
  split; [exact Hrun | split; [exact Hpal | split]].
  - eexists. split; [rewrite nth_error_swatches; reflexivity | ].
    unfold swatchOf. cbn [classList onClick children].
    change (0 + Z.of_nat 30)%Z with 30%Z.
    pose proof (avoidMid_not_mid (randomIndex (randoms w (drawn w)))) as Hne.
    fold idx in Hne. rewrite MID_INDEX_value in *. rewrite Hne.
    repeat split.
  - intros i t Ht Hi.
    destruct (nth_error_tileColors i t idx Ht) as (c & _ & ->).
    unfold swatchOf. cbn [classList onClick].
    rewrite MID_INDEX_value.
    assert (E : (Z.of_nat i =? 30)%Z = false) by (apply Z.eqb_neq; lia).
    rewrite E. split; [reflexivity | ].
    destruct (Z.of_nat i =? idx)%Z; cbn [app In]; intros H;
      repeat (destruct H as [H | H]; [discriminate H | ]); exact H.
Qed.

Lemma eye_tile_is_unique_witness :
  exists (w' : World) (tiles : list swatch),
    buildPalette collidingPage = Ok w'
    /\ palette w' = Some tiles
    /\ (exists t : swatch,
          nth_error tiles 30 = Some t
          /\ classList t = ["swatch"; "has-eye"]
          /\ onClick t = Some "./eye.html"
          /\ children t
             = [eyeText;
                {| divClass := "label"; divContent := TextContent "#031  #736a46" |}])
    /\ (forall (i : nat) (t : swatch),
          nth_error tiles i = Some t -> i <> 30%nat ->
          onClick t = None /\ ~ In "has-eye" (classList t)).
Proof. apply (eye_tile_is_unique collidingPage []). reflexivity. Defined.

(** X18: every mounted swatch is a [button] of type [button] whose first
    class is [swatch], and its [aria-label] reads "Color", the 1-based
    position of the tile, a colon and the tile's own background colour. *)
Theorem swatch_attributes (w : World) (old : list swatch) :
  palette w = Some old ->
  exists (w' : World) (tiles : list swatch),
    buildPalette w = Ok w'
    /\ palette w' = Some tiles
    /\ (forall (i : nat) (t : swatch),
          nth_error tiles i = Some t ->
          buttonType t = "button"
          /\ hd_error (classList t) = Some "swatch"
          /\ ariaLabel t
             = "Color " ++ decimal (Z.of_nat i + 1) ++ ": " ++ backgroundColor t).
Proof.
  intros Hold.
  destruct (buildPalette_mounts w old Hold) as (w' & Hrun & Hpal).
  exists w'. eexists.
  split; [exact Hrun | split; [exact Hpal | ]].
  intros i t Ht.
  destruct (nth_error_tileColors i t _ Ht) as (c & _ & ->).
  repeat split.
Qed.

Lemma swatch_attributes_witness :
  exists (w' : World) (tiles : list swatch),
    buildPalette collidingPage = Ok w'
    /\ palette w' = Some tiles
    /\ (forall (i : nat) (t : swatch),
          nth_error tiles i = Some t ->
          buttonType t = "button"
          /\ hd_error (classList t) = Some "swatch"
          /\ ariaLabel t
             = "Color " ++ decimal (Z.of_nat i + 1) ++ ": " ++ backgroundColor t).
Proof. apply (swatch_attributes collidingPage []). reflexivity. Defined.

Lemma ascending_nth (colors : list string) :
  ascending colors = true ->
  forall (i : nat) (a b : string),
    nth_error colors i = Some a -> nth_error colors (S i) = Some b ->
    brighter a b = true.
Proof.
  induction colors as [| x rest IH]; intros Hasc i a b Ha Hb.
  - destruct i; discriminate Ha.
  - destruct rest as [| y rest'].
    + destruct i; cbn in Hb; [discriminate Hb | destruct i; discriminate Hb].
    + cbn [ascending] in Hasc. apply andb_prop in Hasc. destruct Hasc as [Hxy Hrest].
      destruct i as [| i].
      * cbn in Ha, Hb. injection Ha as <-. injection Hb as <-. exact Hxy.
      * cbn [nth_error] in Ha, Hb. exact (IH Hrest i a b Ha Hb).
Qed.

(** X19: the grid runs from dark to bright: the first tile has the start
    anchor as background and the last one the end anchor, and from each
    tile to the next the red, the green and the blue channel all
    increase. *)
Theorem palette_gets_brighter (w : World) (old : list swatch) :
  palette w = Some old ->
  exists (w' : World) (tiles : list swatch),
    buildPalette w = Ok w'
    /\ palette w' = Some tiles
    /\ option_map backgroundColor (nth_error tiles 0) = Some START_HEX
    /\ option_map backgroundColor (nth_error tiles 59) = Some END_HEX
    /\ (forall (i : nat) (t t' : swatch),
          nth_error tiles i = Some t -> nth_error tiles (S i) = Some t' ->
          exists c c' : rgb,
            hexToRgb (backgroundColor t) = Ok c
            /\ hexToRgb (backgroundColor t') = Ok c'
            /\ (red c <? red c') = true
            /\ (green c <? green c') = true
            /\ (blue c <? blue c') = true).
Proof.
  intros Hold.
  destruct (buildPalette_mounts w old Hold) as (w' & Hrun & Hpal).
  exists w'. eexists.
  split; [exact Hrun | split; [exact Hpal | split; [ | split]]].
  - rewrite nth_error_swatches. reflexivity.
  - rewrite nth_error_swatches. reflexivity.
  - intros i t t' Ht Ht'.
    destruct (nth_error_tileColors i t _ Ht) as (c & Hc & ->).
    destruct (nth_error_tileColors (S i) t' _ Ht') as (c' & Hc' & ->).
    cbn [swatchOf backgroundColor].
    assert (Hasc : ascending tileColors = true) by (vm_compute; reflexivity).
    pose proof (ascending_nth tileColors Hasc i c c' Hc Hc') as Hb.
    unfold brighter in Hb.
    destruct (hexToRgb c) as [a |]; [ | discriminate Hb].
    destruct (hexToRgb c') as [a' |]; [ | discriminate Hb].
    apply andb_prop in Hb. destruct Hb as [Hb Hb3].
    apply andb_prop in Hb. destruct Hb as [Hb1 Hb2].
    exists a, a'. repeat split; assumption.
Qed.

Lemma palette_gets_brighter_witness :
  exists (w' : World) (tiles : list swatch),
    buildPalette collidingPage = Ok w'
    /\ palette w' = Some tiles
    /\ option_map backgroundColor (nth_error tiles 0) = Some START_HEX
    /\ option_map backgroundColor (nth_error tiles 59) = Some END_HEX
    /\ (forall (i : nat) (t t' : swatch),
          nth_error tiles i = Some t -> nth_error tiles (S i) = Some t' ->
          exists c c' : rgb,
            hexToRgb (backgroundColor t) = Ok c
            /\ hexToRgb (backgroundColor t') = Ok c'
            /\ (red c <? red c') = true
            /\ (green c <? green c') = true
            /\ (blue c <? blue c') = true).
Proof. apply (palette_gets_brighter collidingPage []). reflexivity. Defined.

(** ** Rounding to nearest: remainders and floors *)
Module Nearest.

Import Binary64 Rounding.
Local Open Scope Q_scope.

(** *** Rounding to nearest: half a unit in the last place *)

Section RoundNearest.

Variables (sx : bool) (mx ex : Z) (lx : location) (V : Q).
Hypothesis Hmx : (0 <= mx)%Z.
Hypothesis Hex : (ex <= fexp64 (Zdigits2 mx + ex))%Z.
Hypothesis HV : inbetween (shr_record_of_loc mx lx) (V / bpow ex).
Hypothesis Hbig : V < bpow 1000.

(** The result of [binary_round_aux] is within half a unit of the last
    place of [V]: the second shift, which renormalises after a carry, is
    exact. *)
Lemma binary_round_aux_nearest :
  exists (m e : Z),
    binary_round_aux prec emax sx mx ex lx
    = match m with
      | Z.pos p => S754_finite sx p e
      | _ => S754_zero sx
      end
    /\ (0 <= m)%Z
    /\ Qabs (inject_Z m * bpow e - V) <= (1 # 2) * bpow (fexp64 (Zdigits2 mx + ex)).
Proof.
  unfold binary_round_aux.
  pose proof (shr_fexp_spec mx ex lx V Hmx HV) as H1.
  destruct (shr_fexp prec emax mx ex lx) as [mrs' e'].
  destruct H1 as (I1 & M1 & E1 & D1).
  assert (E1' : e' = fexp64 (Zdigits2 mx + ex)) by lia.
  pose proof (round_nearest_even_spec mrs' _ I1) as (R1 & R2 & _).
  set (mr := round_nearest_even (shr_m mrs') (loc_of_shr_record mrs')) in *.
  assert (Hmr : (0 <= mr)%Z) by lia.
  assert (I2 : inbetween (shr_record_of_loc mr loc_Exact) (inject_Z mr * bpow e' / bpow e')).
  { unfold inbetween. cbn. pose proof (bpow_pos e'). field. lra. }
  pose proof (shr_fexp_spec mr e' loc_Exact _ Hmr I2) as H2.
  destruct (shr_fexp prec emax mr e' loc_Exact) as [mrs'' e''].
  destruct H2 as (I3 & M3 & E3 & D3).
  pose proof (V_ge_mx mx ex lx V HV) as Vmx.
  pose proof (V_nonneg mx ex lx V Hmx HV) as V0.
  pose proof (bpow_pos e') as Pe'. pose proof (bpow_pos e'') as Pe''.
  pose proof (bpow_pos ex) as Pex.
  (* the rounded value against V *)
  assert (A1 : Qabs (inject_Z mr * bpow e' - V) <= (1 # 2) * bpow e').
  { assert (Eq : inject_Z mr * bpow e' - V == (inject_Z mr - V / bpow e') * bpow e')
      by (field; lra).
    rewrite Eq, Qabs_Qmult, (Qabs_pos (bpow e')) by lra.
    apply Qmult_le_compat_r; [exact R2 | lra]. }
  (* the mantissa after the first shift has at most 53 digits *)
  assert (Hm' : (shr_m mrs' < 2 ^ 53)%Z).
  { rewrite D1.
    assert (Hs : (0 <= e' - ex)%Z) by lia.
    assert (P : (0 < 2 ^ (e' - ex))%Z) by (apply Z.pow_pos_nonneg; lia).
    apply Z.div_lt_upper_bound; [exact P | ].
    destruct (Z.eq_dec mx 0) as [-> | Hne]; [lia | ].
    pose proof (Zdigits2_spec mx ltac:(lia)) as [_ Hhi].
    assert (Hd : (Zdigits2 mx <= e' - ex + 53)%Z) by (rewrite E1', fexp64_eq; lia).
    assert (Hp : (2 ^ Zdigits2 mx <= 2 ^ (e' - ex + 53))%Z)
      by (apply Z.pow_le_mono_r; lia).
    rewrite Z.pow_add_r in Hp by lia. lia. }
  (* so the second shift is by at most one place, and exact *)
  assert (Ex2 : inject_Z (shr_m mrs'') * bpow e'' == inject_Z mr * bpow e').
  { destruct (Z.eq_dec e'' e') as [-> | Hne].
    - rewrite D3, Z.sub_diag, Z.pow_0_r, Z.div_1_r. reflexivity.
    - assert (Hgt : (e' < fexp64 (Zdigits2 mr + e'))%Z) by lia.
      rewrite fexp64_eq in Hgt.
      assert (E1'' : (-1074 <= e')%Z) by (rewrite E1', fexp64_eq; lia).
      assert (Hd : (54 <= Zdigits2 mr)%Z) by lia.
      assert (Hmr53 : (2 ^ 53 <= mr)%Z).
      { destruct (Z_lt_le_dec mr (2 ^ 53)) as [Hlt | Hge]; [ | exact Hge].
        pose proof (Zdigits2_le mr 53 ltac:(lia) ltac:(lia)). lia. }
      assert (Emr : mr = (2 ^ 53)%Z) by lia.
      assert (Edm : Zdigits2 mr = 54%Z) by (rewrite Emr; reflexivity).
      assert (Ee : e'' = (e' + 1)%Z) by (rewrite E3, fexp64_eq, Edm; lia).
      rewrite D3, Ee, Emr.
      replace (e' + 1 - e')%Z with 1%Z by lia.
      change (2 ^ 53 / 2 ^ 1)%Z with (2 ^ 52)%Z.
      rewrite bpow_succ.
      change (inject_Z (2 ^ 53)) with (2 * inject_Z (2 ^ 52)). ring. }
  assert (X1 : (e' <= 947)%Z).
  { destruct (Z.eq_dec mx 0) as [-> | Hne].
    - cbn in E1'. rewrite fexp64_eq in E1'. rewrite fexp64_eq in Hex. cbn in Hex. lia.
    - pose proof (scaled_ge mx ex ltac:(lia)) as S1.
      assert (Hlt : bpow (Zdigits2 mx + ex - 1) < bpow 1000) by lra.
      apply bpow_lt_inv in Hlt. rewrite E1', fexp64_eq. lia. }
  assert (X2 : (e'' <= 948)%Z).
  { destruct (Z.eq_dec e'' e') as [-> | Hne]; [lia | ].
    assert (Hd : (Zdigits2 mr <= 54)%Z).
    { apply Zdigits2_le; [lia | ]. change (2 ^ 54)%Z with (2 * 2 ^ 53)%Z. lia. }
    rewrite E3, fexp64_eq. lia. }
  exists (shr_m mrs''), e''.
  split; [ | split; [exact M3 | ]].
  - destruct (shr_m mrs'') as [| p | p]; try reflexivity; [ | lia].
    assert (Hle : (e'' <=? emax - prec)%Z = true) by (apply Z.leb_le; cbn; lia).
    rewrite Hle. reflexivity.
  - rewrite Ex2, <- E1'. exact A1.
Qed.

End RoundNearest.

Lemma rounded_value (sx : bool) (m e : Z) (V d : Q) (z : spec_float) :
  z = match m with Z.pos p => S754_finite sx p e | _ => S754_zero sx end ->
  (0 <= m)%Z ->
  Qabs (inject_Z m * bpow e - V) <= d ->
  SFfin z = true /\ Qabs (SFval z - sign_of sx * V) <= d
  /\ 0 <= sign_of sx * SFval z.
Proof.
  intros -> Hm Herr.
  assert (E : forall q : Q, Qabs (sign_of sx * q - sign_of sx * V) == Qabs (q - V)).
  { intros q. destruct sx; unfold sign_of.
    - assert (E : - (1) * q - - (1) * V == - (q - V)) by ring.
      rewrite E, Qabs_opp. reflexivity.
    - assert (E : 1 * q - 1 * V == q - V) by ring. rewrite E. reflexivity. }
  destruct m as [| p | p]; [ | | lia]; cbn [SFfin SFval].
  - split; [reflexivity | split].
    + assert (E0 : 0 == sign_of sx * (inject_Z 0 * bpow e))
        by (change (inject_Z 0) with 0; ring).
      rewrite E0, E. exact Herr.
    + assert (E0 : sign_of sx * 0 == 0) by ring. rewrite E0. lra.
  - split; [reflexivity | split].
    + rewrite E. exact Herr.
    + pose proof (mant_pos p e).
      assert (E2 : sign_of sx * (sign_of sx * (inject_Z (Z.pos p) * bpow e))
                   == inject_Z (Z.pos p) * bpow e)
        by (destruct sx; unfold sign_of; ring).
      rewrite E2. lra.
Qed.

(** The exponent of the last place of a value below [2^k]. *)
Lemma fexp_below (m e k : Z) :
  (0 < m)%Z -> inject_Z m * bpow e < bpow k ->
  bpow (fexp64 (Zdigits2 m + e)) <= bpow (Z.max (k - 53) (-1074)).
Proof.
  intros Hm Hlt. apply bpow_le. rewrite fexp64_eq.
  pose proof (scaled_ge m e Hm) as S1.
  assert (L : bpow (Zdigits2 m + e - 1) < bpow k) by lra.
  apply bpow_lt_inv in L. lia.
Qed.

Lemma binary_round_nearest (sx : bool) (mx : positive) (ex k : Z) :
  (k <= 1000)%Z ->
  inject_Z (Z.pos mx) * bpow ex < bpow k ->
  SFfin (binary_round prec emax sx mx ex) = true
  /\ Qabs (SFval (binary_round prec emax sx mx ex)
           - sign_of sx * (inject_Z (Z.pos mx) * bpow ex))
     <= (1 # 2) * bpow (Z.max (k - 53) (-1074))
  /\ 0 <= sign_of sx * SFval (binary_round prec emax sx mx ex).
Proof.
  intros Hk Hlt. unfold binary_round.
  pose proof (shl_align_spec mx ex (fexp64 (Z.pos (digits2_pos mx) + ex))) as Hs.
  change (fexp prec emax) with fexp64.
  destruct (shl_align mx ex (fexp64 (Z.pos (digits2_pos mx) + ex))) as [mz ez].
  destruct Hs as (S1 & S2 & S3 & S4).
  change (Z.pos (digits2_pos mx)) with (Zdigits2 (Z.pos mx)) in S1.
  rewrite <- S3 in *.
  assert (Hbig : inject_Z (Z.pos mz) * bpow ez < bpow 1000).
  { apply Qlt_le_trans with (bpow k); [exact Hlt | apply bpow_le; exact Hk]. }
  destruct (binary_round_aux_nearest sx (Z.pos mz) ez loc_Exact
              (inject_Z (Z.pos mz) * bpow ez)) as (m & e & Hr & Hm & Herr).
  - lia.
  - rewrite S4. lia.
  - apply inbetween_exact.
  - exact Hbig.
  - pose proof (fexp_below (Z.pos mz) ez k ltac:(lia) Hlt) as Hf.
    apply (rounded_value sx m e _ _ _ Hr Hm). lra.
Qed.

(** *** Multiplication, to half a unit in the last place *)

Lemma mul_nearest (x y : float) (k : Z) :
  finite x = true -> finite y = true -> (k <= 1000)%Z ->
  Qabs (B2Q x * B2Q y) < bpow k ->
  finite (x * y) = true
  /\ Qabs (B2Q (x * y) - B2Q x * B2Q y) <= (1 # 2) * bpow (Z.max (k - 53) (-1074))
  /\ (0 <= B2Q x * B2Q y -> 0 <= B2Q (x * y)).
Proof.
  unfold finite, B2Q. intros Fx Fy Hk Hlt.
  rewrite mul_spec in *.
  pose proof (bpow_pos (Z.max (k - 53) (-1074))) as Pk.
  assert (Zero : forall q, q == 0 ->
                           Qabs (0 - q) <= (1 # 2) * bpow (Z.max (k - 53) (-1074))).
  { intros q Hq. rewrite Hq. change (Qabs (0 - 0)) with 0. lra. }
  destruct (Prim2SF x) as [sx | sx | | sx mx ex] eqn:Ex; try discriminate Fx;
    destruct (Prim2SF y) as [sy | sy | | sy my ey] eqn:Ey; try discriminate Fy;
    cbn [SF64mul SFmul SFval SFfin] in *;
    try (split; [reflexivity | split; [apply Zero; ring | intros _; lra]]).
  destruct (Prim2SF_finite_valid x _ _ _ Ex) as (Dx & Rx & Cx).
  destruct (Prim2SF_finite_valid y _ _ _ Ey) as (Dy & Ry & Cy).
  pose proof (Zdigits2_mul mx my) as Dm.
  assert (1 <= Zdigits2 (Z.pos mx))%Z by (cbn; lia).
  assert (1 <= Zdigits2 (Z.pos my))%Z by (cbn; lia).
  set (V := inject_Z (Z.pos (mx * my)) * bpow (ex + ey)).
  assert (EV : sign_of sx * (inject_Z (Z.pos mx) * bpow ex)
               * (sign_of sy * (inject_Z (Z.pos my) * bpow ey))
               == sign_of (xorb sx sy) * V).
  { unfold V. rewrite sign_of_xorb, bpow_add, Pos2Z.inj_mul, inject_Z_mult. ring. }
  assert (V0 : 0 < V) by apply mant_pos.
  assert (EA : Qabs (sign_of (xorb sx sy) * V) == V) by (apply sign_of_abs; lra).
  rewrite EV in *. rewrite EA in *.
  assert (Hbig : V < bpow 1000).
  { apply Qlt_le_trans with (bpow k); [exact Hlt | apply bpow_le; exact Hk]. }
  destruct (binary_round_aux_nearest (xorb sx sy) (Z.pos (mx * my)) (ex + ey) loc_Exact V)
    as (m & e & Hr & Hm & Herr).
  - lia.
  - rewrite fexp64_eq. lia.
  - apply inbetween_exact.
  - exact Hbig.
  - pose proof (fexp_below (Z.pos (mx * my)) (ex + ey) k ltac:(lia) Hlt) as Hf.
    destruct (rounded_value (xorb sx sy) m e V
                ((1 # 2) * bpow (Z.max (k - 53) (-1074))) _ Hr Hm ltac:(lra))
      as (F & E & S).
    split; [exact F | split; [exact E | ]].
    revert S. destruct (xorb sx sy); unfold sign_of; intros S Hs; lra.
Qed.

(** *** Scaling, to half a unit in the last place *)

Lemma ldshiftexp_nearest (f : float) (e : int) (k : Z) :
  let j := (Uint63.to_Z e - shift)%Z in
  finite f = true -> (k <= 1000)%Z -> Qabs (B2Q f) * bpow j < bpow k ->
  finite (ldshiftexp f e) = true
  /\ Qabs (B2Q (ldshiftexp f e) - B2Q f * bpow j)
     <= (1 # 2) * bpow (Z.max (k - 53) (-1074))
  /\ (0 <= B2Q f -> 0 <= B2Q (ldshiftexp f e)).
Proof.
  intros j. unfold finite, B2Q. intros Ff Hk Hlt.
  rewrite ldshiftexp_spec in *.
  change Uint63Axioms.to_Z with Uint63.to_Z in *. fold j.
  pose proof (bpow_pos (Z.max (k - 53) (-1074))) as Pk.
  destruct (Prim2SF f) as [s | s | | s m ex] eqn:Ef; try discriminate Ff;
    cbn [SFldexp SFval SFfin] in *.
  - split; [reflexivity | split; [ | lra]].
    assert (E0 : 0 - 0 * bpow j == 0) by ring. rewrite E0.
    change (Qabs 0) with 0. lra.
  - pose proof (mant_pos m ex) as Pm. pose proof (bpow_pos j) as Pj.
    rewrite (sign_of_abs s) in * by lra.
    assert (EV : inject_Z (Z.pos m) * bpow ex * bpow j
                 == inject_Z (Z.pos m) * bpow (ex + j))
      by (rewrite bpow_add; ring).
    rewrite EV in Hlt.
    destruct (binary_round_nearest s m (ex + j) k Hk Hlt) as (F & E & S).
    split; [exact F | split].
    + assert (E2 : sign_of s * (inject_Z (Z.pos m) * bpow ex) * bpow j
                   == sign_of s * (inject_Z (Z.pos m) * bpow (ex + j)))
        by (rewrite <- EV; ring).
      rewrite E2. exact E.
    + intros Hs.
      assert (s = false) by (destruct s; [unfold sign_of in Hs; lra | reflexivity]).
      subst s. unfold sign_of in S. lra.
Qed.


(** *** The remainder of a non-negative number *)

Lemma B2Q_abs_pos (y : float) : 0 <= B2Q y -> B2Q (abs y) == B2Q y.
Proof. intros H. destruct (abs_val y) as [_ E]. rewrite E. apply Qabs_pos. exact H. Qed.

(** For [x >= 0] and a normal [y > 0], [x % y] is a finite number of
    [[0, y)]. *)
Lemma rem_nonneg_val (x y : float) :
  finite x = true -> finite y = true ->
  0 <= B2Q x -> bpow (-1022) <= B2Q y -> B2Q y < bpow 1000 ->
  finite (rem x y) = true /\ 0 <= B2Q (rem x y) < B2Q y.
Proof.
  intros Fx Fy Hx Hy Hy'.
  pose proof (bpow_pos (-1022)) as P1022.
  assert (Y0 : 0 < B2Q y) by lra.
  destruct (abs_val x) as [Fax Vax]. destruct (abs_val y) as [Fay Vay].
  rewrite Fx in Fax. rewrite Fy in Fay.
  rewrite Qabs_pos in Vax by exact Hx. rewrite Qabs_pos in Vay by lra.
  unfold rem. cbv beta zeta.
  rewrite (abs_lt_infinity x Fx), (abs_lt_infinity y Fy).
  assert (Pb : (0 <? abs y)%float = true).
  { apply ltb_val; [reflexivity | exact Fay | rewrite B2Q_zero, Vay; exact Y0]. }
  rewrite Pb. cbn [andb]. rewrite andb_true_r.
  destruct (0 <? abs x)%float eqn:Pa.
  2: { apply ltb_false_val in Pa; [ | reflexivity | exact Fax].
       rewrite Vax, B2Q_zero in Pa.
       split; [exact Fx | lra]. }
  apply ltb_val in Pa; [ | reflexivity | exact Fax].
  rewrite Vax, B2Q_zero in Pa.
  assert (Nx : ~ B2Q x == 0) by lra.
  assert (Ny : ~ B2Q y == 0) by lra.
  pose proof (frshiftexp_val x Fx Nx) as Hfx.
  pose proof (frshiftexp_val y Fy Ny) as Hfy.
  destruct (frshiftexp x) as [fx ex]. destruct (frshiftexp y) as [fy ey].
  destruct Hfx as (HMx & HVx & HEx). destruct Hfy as (HMy & HVy & HEy).
  rewrite (Qabs_pos (B2Q x) Hx) in HVx. rewrite Qabs_pos in HVy by lra.
  change shift with 2101%Z in *.
  set (Mx := Uint63.to_Z (normfr_mantissa fx)) in *.
  set (My := Uint63.to_Z (normfr_mantissa fy)) in *.
  set (Ex := (Uint63.to_Z ex - 2101)%Z) in *.
  set (Ey := (Uint63.to_Z ey - 2101)%Z) in *.
  (* the exponent of y *)
  assert (Ey_lo : (-1021 <= Ey)%Z).
  { pose proof (scaled_below My (Ey - 53) 53 (Ey - 53) ltac:(lia) ltac:(lia) ltac:(lia)) as B.
    rewrite <- HVy in B.
    assert (L : bpow (-1022) < bpow (53 + (Ey - 53))) by lra.
    apply bpow_lt_inv in L. lia. }
  assert (Ey_hi : (Ey <= 1000)%Z).
  { pose proof (scaled_above My (Ey - 53) 52 ltac:(lia) ltac:(lia)) as B.
    rewrite <- HVy in B.
    assert (L : bpow (52 + (Ey - 53)) < bpow 1000) by lra.
    apply bpow_lt_inv in L. lia. }
  destruct (ex <? ey)%uint63 eqn:Lt.
  - apply Uint63.ltb_spec in Lt.
    split; [exact Fx | split; [exact Hx | ]].
    pose proof (scaled_below Mx (Ex - 53) 53 (Ex - 53) ltac:(lia) ltac:(lia) ltac:(lia)) as B.
    rewrite <- HVx in B.
    pose proof (scaled_above My (Ey - 53) 52 ltac:(lia) ltac:(lia)) as A.
    rewrite <- HVy in A.
    assert (L : bpow (53 + (Ex - 53)) <= bpow (52 + (Ey - 53)))
      by (apply bpow_le; unfold Ex, Ey; lia).
    lra.
  - set (r := shift_rem 2200 (ex - ey)
                (normfr_mantissa fx mod normfr_mantissa fy) (normfr_mantissa fy)).
    assert (Hr : (Uint63.to_Z r < My)%Z).
    { apply shift_rem_lt. rewrite Uint63.mod_spec. fold My.
      apply Z.mod_pos_bound. lia. }
    pose proof (Uint63.to_Z_bounded r) as [R0 _].
    pose proof (Uint63.to_Z_bounded ey) as Bey.
    assert (W : wB = (2 ^ 63)%Z) by reflexivity.
    destruct (of_uint63_val r ltac:(lia)) as [Fr Vr].
    assert (Hj : (Uint63.to_Z (ey - 53) - 2101 = Ey - 53)%Z).
    { rewrite Uint63.sub_spec. change (Uint63.to_Z 53) with 53%Z.
      rewrite Z.mod_small; unfold Ey in *; lia. }
    pose proof (inject_Z_nonneg _ R0) as Nr.
    pose proof (bpow_pos (Ey - 53)) as PE.
    set (V := inject_Z (Uint63.to_Z r) * bpow (Ey - 53)).
    assert (V0 : 0 <= V) by (apply Qmult_le_0_compat; lra).
    assert (VM : V <= B2Q y - bpow (Ey - 53)).
    { rewrite HVy. unfold V.
      assert (L : inject_Z (Uint63.to_Z r) <= inject_Z My - 1).
      { assert (E1 : inject_Z My - 1 == inject_Z (My - 1))
          by (unfold Zminus; rewrite inject_Z_plus; reflexivity).
        rewrite E1, <- Zle_Qle. lia. }
      assert (inject_Z (Uint63.to_Z r) * bpow (Ey - 53)
              <= (inject_Z My - 1) * bpow (Ey - 53))
        by (apply Qmult_le_compat_r; lra).
      lra. }
    assert (Vk : V < bpow Ey).
    { pose proof (scaled_below My (Ey - 53) 53 (Ey - 53) ltac:(lia) ltac:(lia) ltac:(lia)) as B.
      rewrite <- HVy in B. replace (53 + (Ey - 53))%Z with Ey in B by lia. lra. }
    pose proof (ldshiftexp_nearest (of_uint63 r) (ey - 53) Ey) as Hl.
    cbv zeta in Hl. change FloatOps.shift with 2101%Z in Hl.
    rewrite Hj, Vr, (Qabs_pos _ Nr) in Hl. fold V in Hl.
    destruct (Hl Fr Ey_hi Vk) as (Fv & Ev & Sv).
    specialize (Sv Nr).
    assert (Lt0 : (x <? 0)%float = false).
    { apply ltb_false_val; [exact Fx | reflexivity | rewrite B2Q_zero; exact Hx]. }
    rewrite Lt0.
    split; [exact Fv | split; [exact Sv | ]].
    apply Qabs_Qle_condition in Ev. destruct Ev as [_ Ev].
    replace (Z.max (Ey - 53) (-1074)) with (Ey - 53)%Z in Ev by lia.
    lra.
Qed.

(** *** The integer part *)

Lemma Z_of_num_of_uint63 (n : int) :
  (Uint63.to_Z n < 2 ^ 53)%Z -> Z_of_num (of_uint63 n) = Uint63.to_Z n.
Proof.
  intros Hn. pose proof (Uint63.to_Z_bounded n) as [H0 _].
  unfold Z_of_num. rewrite of_uint63_spec.
  change Uint63Axioms.to_Z with Uint63.to_Z.
  destruct (Uint63.to_Z n) as [| p | p] eqn:En; [reflexivity | | lia].
  cbn [binary_normalize]. unfold binary_round.
  change (Z.pos (digits2_pos p)) with (Zdigits2 (Z.pos p)).
  assert (Dp : (Zdigits2 (Z.pos p) <= 53)%Z).
  { apply Zdigits2_le; [lia | ]. split; [lia | exact Hn]. }
  assert (D1 : (1 <= Zdigits2 (Z.pos p))%Z) by (cbn; lia).
  change (fexp prec emax) with fexp64.
  assert (Ef : (fexp64 (Zdigits2 (Z.pos p) + 0) <= 0)%Z) by (rewrite fexp64_eq; lia).
  pose proof (shl_align_spec p 0 (fexp64 (Zdigits2 (Z.pos p) + 0))) as Hs.
  destruct (shl_align p 0 (fexp64 (Zdigits2 (Z.pos p) + 0))) as [mz ez].
  destruct Hs as (S1 & S2 & S3 & S4).
  unfold binary_round_aux.
  assert (Efx : fexp64 (Zdigits2 (Z.pos mz) + ez) = ez) by (rewrite S4; lia).
  unfold shr_fexp. change (fexp prec emax) with fexp64.
  cbn [shr_record_of_loc].
  rewrite Efx, Z.sub_diag.
  cbn [shr shr_m loc_of_shr_record shr_r shr_s round_nearest_even shr_record_of_loc].
  rewrite Efx, Z.sub_diag.
  cbn [shr shr_m loc_of_shr_record shr_r shr_s round_nearest_even shr_record_of_loc].
  change (emax - prec)%Z with 971%Z.
  destruct (ez <=? 971)%Z eqn:Eb; [ | apply Z.leb_gt in Eb; lia].
  rewrite S2.
  assert (Ez : (ez <= 0)%Z) by lia.
  rewrite Z.shiftl_div_pow2 by exact Ez.
  replace (0 - ez)%Z with (- ez)%Z by lia.
  apply Z.div_mul. apply Z.pow_nonzero; lia.
Qed.

(** [Math.floor] of a non-negative number below an integer [N]. *)
Lemma Math_floor_below (y : float) (N : Z) :
  finite y = true -> (1 <= N <= 2 ^ 52)%Z ->
  0 <= B2Q y < inject_Z N ->
  (0 <= Z_of_num (Math_floor y) < N)%Z.
Proof.
  intros Fy HN [Lo Hi].
  destruct (abs_val y) as [Fa Va]. rewrite Fy in Fa.
  rewrite Qabs_pos in Va by exact Lo.
  assert (Neg : (y <? 0)%float = false).
  { apply ltb_false_val; [exact Fy | reflexivity | rewrite B2Q_zero; exact Lo]. }
  unfold Math_floor. cbv beta zeta. rewrite Neg.
  destruct (abs y <? 1)%float eqn:Small.
  - destruct (0 <? y)%float eqn:Pos; [change (Z_of_num zero) with 0%Z; lia | ].
    apply ltb_false_val in Pos; [ | reflexivity | exact Fy].
    rewrite B2Q_zero in Pos.
    destruct (zero_value y Fy ltac:(lra)) as [-> | ->];
      [change (Z_of_num neg_zero) with 0%Z | change (Z_of_num zero) with 0%Z]; lia.
  - apply ltb_false_val in Small; [ | exact Fa | reflexivity].
    assert (V1 : B2Q 1%float == 1) by reflexivity.
    rewrite Va, V1 in Small.
    assert (HN52 : inject_Z N <= bpow 52).
    { rewrite (bpow_inject 52) by lia. rewrite <- Zle_Qle. lia. }
    assert (Big : (abs y <? 0x1p52)%float = true).
    { apply ltb_val; [exact Fa | reflexivity | ]. rewrite Va, B2Q_2p52. lra. }
    rewrite Big.
    assert (Nz : ~ B2Q y == 0) by lra.
    pose proof (frshiftexp_val y Fy Nz) as Hf.
    destruct (frshiftexp y) as [f e]. destruct Hf as (HM & HV & HE).
    rewrite Qabs_pos in HV by lra.
    change shift with 2101%Z in *.
    set (M := Uint63.to_Z (normfr_mantissa f)) in *.
    set (E := (Uint63.to_Z e - 2101)%Z) in *.
    assert (E1 : (1 <= E)%Z).
    { pose proof (scaled_below M (E - 53) 53 (E - 53) ltac:(lia) ltac:(lia) ltac:(lia)) as B.
      rewrite <- HV in B.
      assert (L : bpow 0 < bpow (53 + (E - 53))) by (rewrite bpow_0; lra).
      apply bpow_lt_inv in L. lia. }
    assert (E52 : (E <= 52)%Z).
    { pose proof (scaled_above M (E - 53) 52 ltac:(lia) ltac:(lia)) as B.
      rewrite <- HV in B.
      assert (L : bpow (52 + (E - 53)) < bpow 52) by lra.
      apply bpow_lt_inv in L. lia. }
    pose proof (Uint63.to_Z_bounded e) as Be.
    assert (W : wB = (2 ^ 63)%Z) by reflexivity.
    change (bias + 53)%uint63 with 2154%uint63.
    set (k := (2154 - e)%uint63).
    assert (Hk : Uint63.to_Z k = (53 - E)%Z).
    { unfold k. rewrite Uint63.sub_spec. change (Uint63.to_Z 2154) with 2154%Z.
      rewrite Z.mod_small; unfold E in *; lia. }
    set (K := (53 - E)%Z) in *.
    assert (HK : (1 <= K <= 52)%Z) by (unfold K; lia).
    assert (PK : (0 < 2 ^ K)%Z) by (apply Z.pow_pos_nonneg; lia).
    assert (Hn : Uint63.to_Z (normfr_mantissa f >> k) = (M / 2 ^ K)%Z).
    { rewrite Uint63.lsr_spec, Hk. reflexivity. }
    assert (Hq : (M / 2 ^ K < 2 ^ 53)%Z).
    { apply Z.div_lt_upper_bound; [exact PK | ]. nia. }
    rewrite Z_of_num_of_uint63 by (rewrite Hn; exact Hq).
    rewrite Hn.
    split; [apply Z.div_pos; lia | ].
    (* M / 2^K <= y < N *)
    assert (Hle : inject_Z (M / 2 ^ K) <= B2Q y).
    { rewrite HV.
      assert (Eb : bpow (E - 53) * bpow K == 1).
      { rewrite <- bpow_add. replace (E - 53 + K)%Z with 0%Z by (unfold K; lia).
        reflexivity. }
      pose proof (bpow_pos (E - 53)) as PE. pose proof (bpow_pos K) as PKq.
      assert (L : inject_Z (M / 2 ^ K) * bpow K <= inject_Z M).
      { rewrite (bpow_inject K) by lia. rewrite <- inject_Z_mult, <- Zle_Qle.
        rewrite Z.mul_comm. apply Z.mul_div_le. exact PK. }
      assert (L2 : inject_Z (M / 2 ^ K) * bpow K * bpow (E - 53)
                   <= inject_Z M * bpow (E - 53))
        by (apply Qmult_le_compat_r; lra).
      assert (E3 : inject_Z (M / 2 ^ K) * bpow K * bpow (E - 53)
                   == inject_Z (M / 2 ^ K) * (bpow (E - 53) * bpow K)) by ring.
      rewrite E3, Eb in L2. lra. }
    rewrite Zlt_Qlt. lra.
Qed.

(** A number below 1 is at most [1 - 2^-53]. *)
Lemma below_one (x : float) :
  finite x = true -> B2Q x < 1 -> B2Q x <= 1 - bpow (-53).
Proof.
  unfold finite, B2Q. intros Fx Hx.
  assert (P : bpow (-53) == 1 # 9007199254740992) by reflexivity.
  destruct (Prim2SF x) as [s | s | | s m e] eqn:Ex; try discriminate Fx;
    cbn [SFval] in *; [lra | ].
  pose proof (mant_pos m e) as Pm.
  destruct s; unfold sign_of in *; [lra | ].
  rewrite Qmult_1_l in *.
  destruct (Prim2SF_finite_valid x _ _ _ Ex) as (D & R & C).
  assert (He : (e <= -53)%Z).
  { destruct (Z_le_gt_dec e (-53)) as [Hle | Hgt]; [exact Hle | exfalso].
    assert (Ed : Zdigits2 (Z.pos m) = 53%Z) by lia.
    pose proof (scaled_ge (Z.pos m) e ltac:(lia)) as S1. rewrite Ed in S1.
    assert (L : bpow 0 <= bpow (53 + e - 1)) by (apply bpow_le; lia).
    rewrite bpow_0 in L. lra. }
  pose proof (Zdigits2_spec (Z.pos m) ltac:(lia)) as [_ Hhi].
  assert (Hm : (Z.pos m <= 2 ^ 53 - 1)%Z).
  { assert (2 ^ Zdigits2 (Z.pos m) <= 2 ^ 53)%Z by (apply Z.pow_le_mono_r; lia). lia. }
  assert (Lm : inject_Z (Z.pos m) <= inject_Z (2 ^ 53 - 1)) by (rewrite <- Zle_Qle; exact Hm).
  assert (Le : bpow e <= bpow (-53)) by (apply bpow_le; exact He).
  pose proof (bpow_pos e) as Pe.
  assert (L1 : inject_Z (Z.pos m) * bpow e <= inject_Z (2 ^ 53 - 1) * bpow e)
    by (apply Qmult_le_compat_r; lra).
  assert (L2 : inject_Z (2 ^ 53 - 1) * bpow e <= inject_Z (2 ^ 53 - 1) * bpow (-53)).
  { apply Qmult_le_compat_l; [exact Le | ]. apply inject_Z_nonneg. lia. }
  assert (E : inject_Z (2 ^ 53 - 1) * bpow (-53) == 1 - bpow (-53)) by reflexivity.
  lra.
Qed.

(** *** The random index *)

(** Whatever [Math.random()] returns in [0, 1), the index drawn is one of
    [0, ..., 59]. *)
Lemma randomIndex_range (u : number) :
  (0 <=? u)%float = true -> (u <? 1)%float = true ->
  (0 <= randomIndex u < TILE_COUNT)%Z.
Proof.
  intros H0 H1.
  destruct (between_lt 0%float 1%float u eq_refl eq_refl H0 H1) as [Fu [Lo Hi]].
  rewrite B2Q_zero in Lo.
  assert (V1 : B2Q 1%float == 1) by reflexivity. rewrite V1 in Hi.
  pose proof (below_one u Fu Hi) as Hu.
  unfold randomIndex.
  change (num_of_Z TILE_COUNT) with 60%float.
  assert (F60 : finite 60%float = true) by reflexivity.
  assert (V60 : B2Q 60%float == 60) by reflexivity.
  assert (P53 : bpow (-53) == 1 # 9007199254740992) by reflexivity.
  destruct (mul_nearest u 60%float 6 Fu F60 ltac:(lia)) as (Fm & Em & Sm).
  { rewrite V60. rewrite Qabs_pos by lra. change (bpow 6) with 64. lra. }
  rewrite V60 in Em, Sm. specialize (Sm ltac:(lra)).
  apply Qabs_Qle_condition in Em. destruct Em as [_ Em].
  change (bpow (Z.max (6 - 53) (-1074))) with (bpow (-47)) in Em.
  assert (P47 : bpow (-47) == 64 # 9007199254740992) by reflexivity.
  apply Math_floor_below; [exact Fm | unfold TILE_COUNT; lia | ].
  unfold TILE_COUNT. change (inject_Z 60) with 60. lra.
Qed.

End Nearest.

(** ** The interests tile and the effects of [buildPalette] *)

(** The index kept for the interests is a tile of the grid other than the
    landmark tile, whenever the index drawn is a tile of the grid. *)
Lemma avoidMid_in_grid (r : Z) :
  (0 <= r < TILE_COUNT)%Z ->
  (0 <= avoidMid r < TILE_COUNT)%Z /\ avoidMid r <> MID_INDEX.
Proof.
  intros Hr.
  pose proof (avoidMid_not_mid r) as Hne. apply Z.eqb_neq in Hne.
  split; [ | intros E; apply Hne; symmetry; exact E].
  unfold avoidMid in *. rewrite MID_INDEX_value in *. unfold TILE_COUNT in *.
  destruct (r =? 30)%Z eqn:E.
  - apply Z.eqb_eq in E. rewrite E. cbn. lia.
  - exact Hr.
Qed.

(** X15: whatever [Math.random()] returns in [0, 1), the index drawn by
    [Math.floor(Math.random() * TILE_COUNT)] is an integer from 0 to 59:
    the product never rounds up to 60.  The index of the interests tile
    is then a tile of the grid other than the landmark tile. *)
Theorem interests_index_in_grid (u : number) :
  (0 <=? u) = true -> (u <? 1) = true ->
  (0 <= randomIndex u < TILE_COUNT)%Z
  /\ (0 <= avoidMid (randomIndex u) < TILE_COUNT)%Z
  /\ avoidMid (randomIndex u) <> MID_INDEX.
Proof.
  intros H0 H1.
  pose proof (Nearest.randomIndex_range u H0 H1) as Hr.
  split; [exact Hr | ].
  apply avoidMid_in_grid. exact Hr.
Qed.

Lemma interests_index_in_grid_witness :
  (0 <= randomIndex lastUnit < TILE_COUNT)%Z
  /\ (0 <= avoidMid (randomIndex lastUnit) < TILE_COUNT)%Z
  /\ avoidMid (randomIndex lastUnit) <> MID_INDEX.
Proof. apply (interests_index_in_grid lastUnit); reflexivity. Defined.

Lemma nth_tileColors (n : nat) :
  (n < 60)%nat -> exists c : string, nth_error tileColors n = Some c.
Proof.
  intros Hn. destruct (nth_error tileColors n) as [c |] eqn:E; [exists c; reflexivity | ].
  apply nth_error_None in E. change (List.length tileColors) with 60%nat in E. lia.
Qed.

(** X17: when [Math.random()] returns a number of [0, 1), exactly one tile
    shows the interests: its classes are [swatch] and [has-interests], it
    has no click handler, and it holds the interests before its label.
    It is a tile of the grid other than the eye tile, and no other swatch
    has the class [has-interests]. *)
Theorem interests_tile_is_unique (w : World) (old : list swatch) :
  palette w = Some old ->
  (0 <=? randoms w (drawn w)) = true -> (randoms w (drawn w) <? 1) = true ->
  exists (w' : World) (tiles : list swatch) (idx : nat) (t : swatch),
    buildPalette w = Ok w'
    /\ palette w' = Some tiles
    /\ (idx < 60)%nat /\ idx <> 30%nat
    /\ nth_error tiles idx = Some t
    /\ classList t = ["swatch"; "has-interests"]
    /\ onClick t = None
    /\ children t
       = [interestsNode;
          {| divClass := "label";
             divContent := TextContent (labelText (Z.of_nat idx) (backgroundColor t)) |}]
    /\ (forall (i : nat) (t' : swatch),
          nth_error tiles i = Some t' -> i <> idx ->
          ~ In "has-interests" (classList t')).
Proof.
  intros Hold H0 H1.
  destruct (buildPalette_mounts w old Hold) as (w' & Hrun & Hpal).
  destruct (avoidMid_in_grid _ (Nearest.randomIndex_range _ H0 H1)) as (Hidx & Hne).
  set (idx := avoidMid (randomIndex (randoms w (drawn w)))) in *.
  rewrite MID_INDEX_value in Hne. unfold TILE_COUNT in Hidx.
  destruct (nth_tileColors (Z.to_nat idx) ltac:(lia)) as [c Hc].
  exists w'. eexists. exists (Z.to_nat idx). eexists.
  split; [exact Hrun | split; [exact Hpal | ]].
  split; [lia | split; [lia | ]].
  split; [rewrite nth_error_swatches, Hc; reflexivity | ].
  replace (0 + Z.of_nat (Z.to_nat idx))%Z with idx by lia.
  rewrite Z2Nat.id by lia.
  unfold swatchOf. cbn [classList onClick children backgroundColor].
  rewrite MID_INDEX_value, Z.eqb_refl.
  assert (E : (idx =? 30)%Z = false) by (apply Z.eqb_neq; exact Hne).
  rewrite E.
  split; [reflexivity | split; [reflexivity | split; [reflexivity | ]]].
  intros i t' Ht' Hi.
  destruct (nth_error_tileColors i t' idx Ht') as (c' & _ & ->).
  cbn [swatchOf classList].
  assert (E' : (Z.of_nat i =? idx)%Z = false) by (apply Z.eqb_neq; lia).
  rewrite E'.
  destruct (Z.of_nat i =? MID_INDEX)%Z; cbn [app In]; intros H;
    repeat (destruct H as [H | H]; [discriminate H | ]); exact H.
Qed.

Lemma interests_tile_is_unique_witness :
  exists (w' : World) (tiles : list swatch) (idx : nat) (t : swatch),
    buildPalette collidingPage = Ok w'
    /\ palette w' = Some tiles
    /\ (idx < 60)%nat /\ idx <> 30%nat
    /\ nth_error tiles idx = Some t
    /\ classList t = ["swatch"; "has-interests"]
    /\ onClick t = None
    /\ children t
       = [interestsNode;
          {| divClass := "label";
             divContent := TextContent (labelText (Z.of_nat idx) (backgroundColor t)) |}]
    /\ (forall (i : nat) (t' : swatch),
          nth_error tiles i = Some t' -> i <> idx ->
          ~ In "has-interests" (classList t')).
Proof. apply (interests_tile_is_unique collidingPage []); reflexivity. Defined.

(** The whole run of [buildPalette] on a page with a mount point. *)
Lemma buildPalette_run (w : World) (old : list swatch) :
  palette w = Some old ->
  let idx := avoidMid (randomIndex (randoms w (drawn w))) in
  buildPalette w
  = Ok (replaceChildren (swatches idx 0 tileColors)
          (addNodes (nodesFrom idx 0 60) (snd (Math_random (createNode w))))).
Proof.
  intros Hold idx. unfold buildPalette. rewrite Hold.
  cbn [Math_random createNode randoms drawn fst snd].
  change (Z.to_nat TILE_COUNT) with (List.length tileColors).
  rewrite (buildTiles_eq _ tileColors 0%Z [] _ tileColors_ok). cbn [bind].
  reflexivity.
Qed.

Lemma nodesFrom_count (idx : Z) : (0 <= idx < 60)%Z -> nodesFrom idx 0 60 = 122%nat.
Proof.
  intros Hidx.
  assert (Hall : forallb (fun k => (nodesFrom (Z.of_nat k) 0 60 =? 122)%nat) (seq 0 60) = true)
    by (vm_compute; reflexivity).
  rewrite forallb_forall in Hall.
  specialize (Hall (Z.to_nat idx) ltac:(apply in_seq; lia)).
  rewrite Z2Nat.id in Hall by lia. apply Nat.eqb_eq. exact Hall.
Qed.

(** X20: on a page with a mount point, when [Math.random()] returns a
    number of [0, 1), [buildPalette] creates exactly 123 nodes (the
    fragment, 60 buttons, 60 labels, the eye text and the interests) and
    calls [Math.random()] exactly once; it leaves the random source as it
    was. *)
Theorem buildPalette_effects (w : World) (old : list swatch) :
  palette w = Some old ->
  (0 <=? randoms w (drawn w)) = true -> (randoms w (drawn w) <? 1) = true ->
  exists w' : World,
    buildPalette w = Ok w'
    /\ created w' = (created w + 123)%nat
    /\ drawn w' = S (drawn w)
    /\ randoms w' = randoms w.
Proof.
  intros Hold H0 H1.
  destruct (avoidMid_in_grid _ (Nearest.randomIndex_range _ H0 H1)) as (Hidx & _).
  unfold TILE_COUNT in Hidx.
  eexists. split; [exact (buildPalette_run w old Hold) | ].
  cbn [replaceChildren addNodes Math_random createNode snd created drawn randoms].
  rewrite (nodesFrom_count _ Hidx).
  split; [lia | split; reflexivity].
Qed.

Lemma buildPalette_effects_witness :
  exists w' : World,
    buildPalette collidingPage = Ok w'
    /\ created w' = (created collidingPage + 123)%nat
    /\ drawn w' = S (drawn collidingPage)
    /\ randoms w' = randoms collidingPage.
Proof. apply (buildPalette_effects collidingPage []); reflexivity. Defined.

(** ** [hslToHex] and [rgbToHsl] at the edges *)

Import Binary64 Rounding Nearest.
Local Open Scope string_scope.
Local Open Scope float_scope.

(** *** NaN *)

Lemma nan_spec (x : float) : x = nan <-> Prim2SF x = S754_nan.
Proof.
  split; [intros ->; reflexivity | ].
  intros H. apply Prim2SF_inj. rewrite H. reflexivity.
Qed.

Ltac nan_op spec :=
  intros; apply nan_spec; rewrite spec;
  change (Prim2SF nan) with S754_nan;
  match goal with
  | |- context [Prim2SF ?x] => destruct (Prim2SF x) as [[] | [] | | [] ? ?]; reflexivity
  | _ => reflexivity
  end.

Lemma add_nan_r (x : float) : x + nan = nan.
Proof. nan_op add_spec. Qed.

Lemma add_nan_l (x : float) : nan + x = nan.
Proof. nan_op add_spec. Qed.

Lemma sub_nan_r (x : float) : x - nan = nan.
Proof. nan_op sub_spec. Qed.

Lemma sub_nan_l (x : float) : nan - x = nan.
Proof. nan_op sub_spec. Qed.

Lemma mul_nan_r (x : float) : x * nan = nan.
Proof. nan_op mul_spec. Qed.

Lemma mul_nan_l (x : float) : nan * x = nan.
Proof. nan_op mul_spec. Qed.

Lemma div_nan_l (x : float) : nan / x = nan.
Proof. nan_op div_spec. Qed.

Lemma div_nan_r (x : float) : x / nan = nan.
Proof. nan_op div_spec. Qed.

(** With a NaN saturation or lightness, [m] is NaN. *)
Lemma offset_nan (s l : number) : s = nan \/ l = nan -> offset s l = nan.
Proof.
  unfold offset, chroma. cbv beta iota delta [Num.lit arith].
  intros [-> | ->].
  - rewrite div_nan_l, mul_nan_r, div_nan_l, sub_nan_r. reflexivity.
  - rewrite div_nan_l, sub_nan_l. reflexivity.
Qed.

(** X8: [hslToHex] does not validate its arguments: when the saturation or
    the lightness is NaN, it returns the ten characters [#NaNNaNNaN],
    whatever the hue is. *)
Theorem hslToHex_nan (h s l : number) :
  s = nan \/ l = nan -> hslToHex h s l = "#NaNNaNNaN".
Proof.
  intros Hn.
  destruct (hslChannels_sector h s l) as (r & g & b & _ & _ & _ & E).
  unfold hslToHex. rewrite E, (offset_nan s l Hn), !add_nan_r, !mul_nan_l.
  reflexivity.
Qed.

Lemma hslToHex_nan_witness : hslToHex 120 50 nan = "#NaNNaNNaN".
Proof. apply (hslToHex_nan 120 50 nan). right. reflexivity. Defined.

(** *** A hue outside the six sectors *)

Lemma sector_inside (k k' : int) (hh : float) :
  (Uint63.to_Z k < 6)%Z -> (Uint63.to_Z k' <= 6)%Z ->
  (of_uint63 k <=? hh) = true -> (hh <? of_uint63 k') = true ->
  (0 <=? hh) = true /\ (hh <? 6) = true.
Proof.
  intros Hk Hk' Hlo Hhi.
  pose proof (Uint63.to_Z_bounded k) as [K0 _].
  pose proof (Uint63.to_Z_bounded k') as [K0' _].
  destruct (of_uint63_val k ltac:(lia)) as [Fk Vk].
  destruct (of_uint63_val k' ltac:(lia)) as [Fk' Vk'].
  destruct (between_lt _ _ hh Fk Fk' Hlo Hhi) as [Fh [Lo Hi]].
  rewrite Vk in Lo. rewrite Vk' in Hi.
  assert (L0 : (0 <= inject_Z (Uint63.to_Z k))%Q) by (apply inject_Z_nonneg; exact K0).
  assert (L6 : (inject_Z (Uint63.to_Z k') <= 6)%Q)
    by (change 6%Q with (inject_Z 6); rewrite <- Zle_Qle; exact Hk').
  assert (V6 : (B2Q 6 == 6)%Q) by reflexivity.
  split.
  - apply leb_val; [reflexivity | exact Fh | rewrite B2Q_zero; lra].
  - apply ltb_val; [exact Fh | reflexivity | rewrite V6; lra].
Qed.

Lemma sector_outside (k k' : int) (hh : float) :
  (Uint63.to_Z k < 6)%Z -> (Uint63.to_Z k' <= 6)%Z ->
  (0 <=? hh) && (hh <? 6) = false ->
  (of_uint63 k <=? hh) && (hh <? of_uint63 k') = false.
Proof.
  intros Hk Hk' Hout.
  destruct ((of_uint63 k <=? hh) && (hh <? of_uint63 k')) eqn:E; [ | reflexivity].
  apply andb_prop in E. destruct E as [E1 E2].
  destruct (sector_inside k k' hh Hk Hk' E1 E2) as [I1 I2].
  rewrite I1, I2 in Hout. discriminate Hout.
Qed.

(** X9: a hue is not reduced modulo 360: whenever [h / 60] is not in
    [0, 6) (a negative hue, a hue of 360 or more, NaN, an infinity) no
    sector applies, and the result is the grey of [m]. *)
Theorem hue_outside_sectors (h s l : number) :
  (0 <=? h / 60) && (h / 60 <? 6) = false ->
  let grey := Math_round (offset s l * 255) in
  hslToHex h s l = "#" ++ toHex grey ++ toHex grey ++ toHex grey.
Proof.
  intros Hout grey.
  assert (Hch : hslChannels h s l
                = (Math_round ((0 + offset s l) * 255),
                   Math_round ((0 + offset s l) * 255),
                   Math_round ((0 + offset s l) * 255))).
  { unfold hslChannels.
    cbv beta iota delta [Num.lit Num.leb Num.ltb Num.div arith].
    change (of_uint63 60) with 60. 
    rewrite (sector_outside 0 1), (sector_outside 1 2), (sector_outside 2 3),
      (sector_outside 3 4), (sector_outside 4 5), (sector_outside 5 6);
      try exact Hout; try (cbn; lia).
    reflexivity. }
  unfold hslToHex. rewrite Hch, toHex_zero_plus. reflexivity.
Qed.

Lemma hue_outside_sectors_witness :
  let grey := Math_round (offset 100 50 * 255) in
  hslToHex (-30) 100 50 = "#" ++ toHex grey ++ toHex grey ++ toHex grey.
Proof. apply (hue_outside_sectors (-30) 100 50). reflexivity. Defined.

(** *** Zeros *)


Lemma isZero_cases (x : float) : isZero x -> x = zero \/ x = neg_zero.
Proof.
  intros [[] E]; [right | left]; apply Prim2SF_inj; rewrite E; reflexivity.
Qed.

Lemma finite_cases (x : float) :
  finite x = true ->
  isZero x \/ exists (s : bool) (m : positive) (e : Z), Prim2SF x = S754_finite s m e.
Proof.
  unfold finite, isZero. destruct (Prim2SF x) as [s | s | | s m e]; intros F;
    try discriminate F; [left; exists s; reflexivity | right; exists s, m, e; reflexivity].
Qed.

Lemma mul_zero_l (z t : float) : isZero z -> finite t = true -> isZero (z * t).
Proof.
  intros [s Ez] Ft. unfold isZero, finite in *. rewrite mul_spec, Ez.
  destruct (Prim2SF t) as [s' | s' | | s' m e]; try discriminate Ft;
    eexists; reflexivity.
Qed.

Lemma mul_zero_r (t z : float) : finite t = true -> isZero z -> isZero (t * z).
Proof.
  intros Ft [s Ez]. unfold isZero, finite in *. rewrite mul_spec, Ez.
  destruct (Prim2SF t) as [s' | s' | | s' m e]; try discriminate Ft;
    eexists; reflexivity.
Qed.

Lemma div_zero_two (z : float) : isZero z -> isZero (z / 2).
Proof.
  intros [s Ez]. unfold isZero. rewrite div_spec, Ez.
  eexists. reflexivity.
Qed.


Lemma field_zero (z : float) : isZero z -> field z = "00".
Proof. intros Hz. destruct (isZero_cases z Hz) as [-> | ->]; reflexivity. Qed.

(** Adding a zero to, or subtracting one from, a finite number does not
    change what is printed. *)
Lemma field_shift (z1 z2 L : float) :
  isZero z1 -> isZero z2 -> finite L = true -> field (z1 + (L - z2)) = field L.
Proof.
  intros [s1 E1] [s2 E2] FL.
  destruct (finite_cases L FL) as [HL | (s & m & e & EL)].
  - rewrite (field_zero L HL). apply field_zero.
    destruct HL as [sl EL]. unfold isZero.
    rewrite add_spec, sub_spec, E1, E2, EL.
    destruct s1, s2, sl; eexists; reflexivity.
  - f_equal. apply Prim2SF_inj.
    rewrite add_spec, sub_spec, E1, E2, EL. reflexivity.
Qed.

Lemma isZero_finite (z : float) : isZero z -> finite z = true.
Proof. intros [s E]. unfold finite. rewrite E. reflexivity. Qed.

Lemma isZero_literal : isZero (of_uint63 0).
Proof. exists false. reflexivity. Qed.

(** *** Zero saturation *)

Lemma lightness_factor_finite (l : float) :
  finite l = true -> (0 <= B2Q l <= 100)%Q ->
  finite (l / of_uint63 100) = true
  /\ finite (of_uint63 1 - abs (of_uint63 2 * (l / of_uint63 100) - of_uint63 1)) = true.
Proof.
  intros Fl Hl.
  assert (U : (u == 1 # 549755813888)%Q) by reflexivity.
  literal 100%uint63 100%Q. literal 2%uint63 2%Q. literal 1%uint63 1%Q.
  destruct (div_step l (of_uint63 100) Fl F) as [FL EL].
  { rewrite V. discriminate. }
  { rewrite V. apply Qabs_le. unfold Qdiv. change (/ 100)%Q with (1 # 100)%Q. lra. }
  rewrite V in EL. unfold Qdiv in EL. change (/ 100)%Q with (1 # 100)%Q in EL.
  set (L := l / of_uint63 100) in *.
  destruct (mul_step (of_uint63 2) L F0 FL) as [F1' E1'].
  { rewrite V0. apply Qabs_le. lra. }
  rewrite V0 in E1'.
  set (t1 := of_uint63 2 * L) in *.
  destruct (sub_step t1 (of_uint63 1) F1' F1) as [F2' E2'].
  { rewrite V1. apply Qabs_le. lra. }
  rewrite V1 in E2'.
  set (t2 := t1 - of_uint63 1) in *.
  destruct (abs_val t2) as [Fa2 Va2]. rewrite F2' in Fa2.
  assert (Ua2 : (Qabs (B2Q t2) <= 1 + 4 * u)%Q) by (apply Qabs_le; lra).
  pose proof (Qabs_nonneg (B2Q t2)) as Na2.
  rewrite <- Va2 in Ua2, Na2.
  destruct (sub_step (of_uint63 1) (abs t2) F1 Fa2) as [F3' _].
  { rewrite V1. apply Qabs_le. lra. }
  split; assumption.
Qed.

Lemma sector_factor_finite (hh : float) :
  (0 <=? hh) && (hh <? 6) = true ->
  finite (of_uint63 1 - abs (rem hh (of_uint63 2) - of_uint63 1)) = true.
Proof.
  intros Hin. apply andb_prop in Hin. destruct Hin as [H0 H6].
  destruct (between_lt 0 6 hh eq_refl eq_refl H0 H6) as [Fh [Lo Hi]].
  rewrite B2Q_zero in Lo.
  assert (U : (u == 1 # 549755813888)%Q) by reflexivity.
  literal 1%uint63 1%Q.
  destruct (rem_two_val hh Fh Lo) as [Fr Er].
  assert (B48 : (bpow (-48) <= u)%Q) by (apply bpow_le; lia).
  set (r2 := rem hh (of_uint63 2)) in *.
  destruct (sub_step r2 (of_uint63 1) Fr F) as [F5 E5].
  { rewrite V. apply Qabs_le. lra. }
  rewrite V in E5.
  set (t5 := r2 - of_uint63 1) in *.
  destruct (abs_val t5) as [Fa5 Va5]. rewrite F5 in Fa5.
  assert (Ua5 : (Qabs (B2Q t5) <= 1 + 2 * u)%Q) by (apply Qabs_le; lra).
  pose proof (Qabs_nonneg (B2Q t5)) as Na5.
  rewrite <- Va5 in Ua5, Na5.
  destruct (sub_step (of_uint63 1) (abs t5) F Fa5) as [F6 _].
  { rewrite V. apply Qabs_le. lra. }
  exact F6.
Qed.

Lemma hslChannels_outside (h s l : number) :
  (0 <=? h / 60) && (h / 60 <? 6) = false ->
  hslChannels h s l
  = (Math_round ((0 + offset s l) * 255),
     Math_round ((0 + offset s l) * 255),
     Math_round ((0 + offset s l) * 255)).
Proof.
  intros Hout. unfold hslChannels.
  cbv beta iota delta [Num.lit Num.leb Num.ltb Num.div arith].
  change (of_uint63 60) with 60.
  rewrite (sector_outside 0 1), (sector_outside 1 2), (sector_outside 2 3),
    (sector_outside 3 4), (sector_outside 4 5), (sector_outside 5 6);
    try exact Hout; try (cbn; lia).
  reflexivity.
Qed.

(** X10: with saturation 0 and a lightness of [0, 100] the result is a
    grey that depends on the lightness alone: for every hue, in or out of
    range, the three fields print [round(l / 100 * 255)]. *)
Theorem zero_saturation_is_grey (h l : number) :
  (0 <=? l) = true -> (l <=? 100) = true ->
  let grey := Math_round (l / 100 * 255) in
  hslToHex h 0 l = "#" ++ toHex grey ++ toHex grey ++ toHex grey.
Proof.
  intros L0 L100 grey.
  destruct (between_le 0 100 l eq_refl eq_refl L0 L100) as [Fl Bl].
  rewrite B2Q_zero in Bl.
  assert (V100 : (B2Q 100 == 100)%Q) by reflexivity. rewrite V100 in Bl.
  destruct (lightness_factor_finite l Fl Bl) as [FL F3].
  assert (Zc : isZero (chroma 0 l)).
  { unfold chroma. cbv beta iota delta [Num.lit arith].
    change (0 / of_uint63 100) with (of_uint63 0).
    apply mul_zero_r; [exact F3 | exact isZero_literal]. }
  assert (Zc2 : isZero (chroma 0 l / 2)) by (apply div_zero_two; exact Zc).
  assert (Field : forall r : number,
             isZero r -> toHex (Math_round ((r + offset 0 l) * 255)) = toHex grey).
  { intros r Zr. exact (field_shift r (chroma 0 l / 2) (l / 100) Zr Zc2 FL). }
  unfold hslToHex.
  destruct ((0 <=? h / 60) && (h / 60 <? 6)) eqn:Hin.
  - assert (Zx : isZero (second h 0 l)).
    { unfold second. apply mul_zero_l; [exact Zc | ].
      exact (sector_factor_finite (h / 60) Hin). }
    destruct (hslChannels_sector h 0 l) as (r & g & b & Hr & Hg & Hb & E).
    rewrite E.
    assert (Z : forall v : number,
               v = chroma 0 l \/ v = second h 0 l \/ v = lit 0 -> isZero v).
    { intros v [-> | [-> | ->]]; [exact Zc | exact Zx | exact isZero_literal]. }
    change (lit 255) with 255.
    rewrite (Field r (Z r Hr)), (Field g (Z g Hg)), (Field b (Z b Hb)).
    reflexivity.
  - rewrite (hslChannels_outside h 0 l Hin).
    rewrite (Field 0 isZero_literal). reflexivity.
Qed.

Lemma zero_saturation_is_grey_witness :
  let grey := Math_round (40 / 100 * 255) in
  hslToHex 200 0 40 = "#" ++ toHex grey ++ toHex grey ++ toHex grey.
Proof. apply (zero_saturation_is_grey 200 40); reflexivity. Defined.

(** *** Grey colours in [rgbToHsl] *)

Lemma sub_self (x : float) : finite x = true -> x - x = 0.
Proof.
  unfold finite. intros F. apply Prim2SF_inj. rewrite sub_spec.
  destruct (Prim2SF x) as [s | s | | s m e]; try discriminate F.
  - destruct s; reflexivity.
  - cbn [SF64sub SFsub]. rewrite Z.sub_diag. reflexivity.
Qed.

Lemma ltb_irrefl (x : float) : (x <? x) = false.
Proof.
  rewrite ltb_spec. unfold SFltb.
  destruct (Prim2SF x) as [s | s | | s m e]; cbn [SFcompare];
    try (destruct s; reflexivity); try reflexivity.
  destruct s; rewrite Z.compare_refl, Pos.compare_cont_refl; reflexivity.
Qed.

Lemma is_nan_finite (x : float) : finite x = true -> is_nan x = false.
Proof.
  unfold finite, is_nan. intros F. rewrite eqb_spec. unfold SFeqb.
  destruct (Prim2SF x) as [s | s | | s m e]; try discriminate F; cbn [SFcompare].
  - reflexivity.
  - destruct s; rewrite Z.compare_refl, Pos.compare_cont_refl; reflexivity.
Qed.

Lemma Math_max_self (x : float) : finite x = true -> Math_max x x = x.
Proof.
  intros F. unfold Math_max. rewrite ltb_irrefl, (is_nan_finite x F).
  cbn [orb]. destruct (get_sign x); reflexivity.
Qed.

Lemma Math_min_self (x : float) : finite x = true -> Math_min x x = x.
Proof.
  intros F. unfold Math_min. rewrite ltb_irrefl, (is_nan_finite x F).
  cbn [orb]. destruct (get_sign x); reflexivity.
Qed.

(** X7: a grey, [r = g = b] with the channel in [0, 255], has hue 0 and
    saturation 0, and its lightness is the common channel scaled to
    [0, 100]. *)
Theorem rgbToHsl_grey (r : number) :
  (0 <=? r) = true -> (r <=? 255) = true ->
  rgbToHsl r r r
  = {| hue := 0; sat := 0; lig := (r / 255 + r / 255) / 2 * 100 |}.
Proof.
  intros R0 R255.
  destruct (between_le 0 255 r eq_refl eq_refl R0 R255) as [Fr Br].
  rewrite B2Q_zero in Br.
  assert (V255 : (B2Q 255 == 255)%Q) by reflexivity. rewrite V255 in Br.
  assert (F255 : finite 255 = true) by reflexivity.
  destruct (div_step r 255 Fr F255) as [Fd _].
  { rewrite V255. discriminate. }
  { rewrite V255. apply Qabs_le. unfold Qdiv. change (/ 255)%Q with (1 # 255)%Q.
    assert (U : (u == 1 # 549755813888)%Q) by reflexivity. lra. }
  unfold rgbToHsl.
  cbv beta iota zeta delta [Num.lit Num.max Num.min Num.sub Num.div Num.eqb Num.add
                            Num.mul Num.abs Num.rem Num.ltb arith].
  change (of_uint63 255) with 255.
  rewrite !(Math_max_self _ Fd), !(Math_min_self _ Fd), (sub_self _ Fd).
  reflexivity.
Qed.

Lemma rgbToHsl_grey_witness :
  rgbToHsl 128 128 128
  = {| hue := 0; sat := 0; lig := (128 / 255 + 128 / 255) / 2 * 100 |}.
Proof. apply (rgbToHsl_grey 128); reflexivity. Defined.

(** ** Interpolation between the anchors *)
Local Open Scope Q_scope.

(** *** The hue interpolation *)

(** A factor of magnitude at most [D] times a fraction of [[-1/2, 3/2]]. *)
Lemma mul_fraction (a t D : Q) :
  - D <= a <= D -> - (1 # 2) <= t <= 3 # 2 ->
  - ((3 # 2) * D) <= a * t <= (3 # 2) * D.
Proof.
  intros Ha Ht.
  assert (HD : 0 <= D) by lra.
  destruct (Qlt_le_dec a 0) as [An | Ap]; destruct (Qlt_le_dec t 0) as [Tn | Tp].
  - assert (0 <= (- a) * (- t)) by (apply Qmult_le_0_compat; lra).
    assert ((- a) * (- t) <= D * (1 # 2)).
    { apply Qle_trans with (D * (- t)).
      - apply Qmult_le_compat_r; lra.
      - apply Qmult_le_compat_l; lra. }
    assert (E : (- a) * (- t) == a * t) by ring. lra.
  - assert (0 <= (- a) * t) by (apply Qmult_le_0_compat; lra).
    assert ((- a) * t <= D * (3 # 2)).
    { apply Qle_trans with (D * t).
      - apply Qmult_le_compat_r; lra.
      - apply Qmult_le_compat_l; lra. }
    assert (E : (- a) * t == - (a * t)) by ring. lra.
  - assert (0 <= a * (- t)) by (apply Qmult_le_0_compat; lra).
    assert (a * (- t) <= D * (1 # 2)).
    { apply Qle_trans with (D * (- t)).
      - apply Qmult_le_compat_r; lra.
      - apply Qmult_le_compat_l; lra. }
    assert (E : a * (- t) == - (a * t)) by ring. lra.
  - assert (0 <= a * t) by (apply Qmult_le_0_compat; lra).
    assert (a * t <= D * (3 # 2)).
    { apply Qle_trans with (D * t).
      - apply Qmult_le_compat_r; lra.
      - apply Qmult_le_compat_l; lra. }
    lra.
Qed.

Lemma B2Q_360 : B2Q 360%float == 360.
Proof. reflexivity. Qed.

(** For hues of [[0, 360]] and a fraction of [[-1/2, 3/2]], [lerpHue]
    returns a finite hue of [[0, 360)]. *)
Lemma lerpHue_val (h1 h2 t : float) :
  finite h1 = true -> finite h2 = true -> finite t = true ->
  0 <= B2Q h1 <= 360 -> 0 <= B2Q h2 <= 360 -> - (1 # 2) <= B2Q t <= 3 # 2 ->
  finite (lerpHue h1 h2 t) = true /\ 0 <= B2Q (lerpHue h1 h2 t) < 360.
Proof.
  intros F1 F2 Ft H1 H2 Ht.
  assert (U : u == 1 # 549755813888) by reflexivity.
  unfold lerpHue.
  cbv beta iota zeta delta [Num.lit Num.add Num.sub Num.mul Num.rem arith].
  change (of_uint63 540) with 540%float. change (of_uint63 360) with 360%float.
  change (of_uint63 180) with 180%float.
  assert (F540 : finite 540%float = true) by reflexivity.
  assert (V540 : B2Q 540%float == 540) by reflexivity.
  assert (F360 : finite 360%float = true) by reflexivity.
  assert (F180 : finite 180%float = true) by reflexivity.
  assert (V180 : B2Q 180%float == 180) by reflexivity.
  assert (N360 : bpow (-1022) <= B2Q 360%float).
  { rewrite B2Q_360. apply Qle_trans with (bpow 0); [apply bpow_le; lia | ].
    rewrite bpow_0. lra. }
  assert (B360 : B2Q 360%float < bpow 1000).
  { rewrite B2Q_360. apply Qlt_le_trans with (bpow 9); [reflexivity | apply bpow_le; lia]. }
  destruct (sub_step h2 h1 F2 F1) as [Fd1 Ed1]; [apply Qabs_le; lra | ].
  set (d1 := (h2 - h1)%float) in *.
  destruct (add_step d1 540%float Fd1 F540) as [Fd2 Ed2];
    [rewrite V540; apply Qabs_le; lra | ].
  rewrite V540 in Ed2.
  set (d2 := (d1 + 540)%float) in *.
  destruct (rem_nonneg_val d2 360%float Fd2 F360 ltac:(lra) N360 B360) as [Fr1 Er1].
  rewrite B2Q_360 in Er1.
  set (r1 := rem d2 360%float) in *.
  destruct (sub_step r1 180%float Fr1 F180) as [Fde Ede];
    [rewrite V180; apply Qabs_le; lra | ].
  rewrite V180 in Ede.
  set (delta := (r1 - 180)%float) in *.
  pose proof (mul_fraction (B2Q delta) (B2Q t) 181 ltac:(lra) Ht) as Hp.
  destruct (mul_step delta t Fde Ft) as [Fp Ep]; [apply Qabs_le; lra | ].
  set (p := (delta * t)%float) in *.
  destruct (add_step h1 p F1 Fp) as [Fq Eq]; [apply Qabs_le; lra | ].
  set (q := (h1 + p)%float) in *.
  destruct (add_step q 360%float Fq F360) as [Fw Ew];
    [rewrite B2Q_360; apply Qabs_le; lra | ].
  rewrite B2Q_360 in Ew.
  set (w := (q + 360)%float) in *.
  destruct (rem_nonneg_val w 360%float Fw F360 ltac:(lra) N360 B360) as [Fres Eres].
  rewrite B2Q_360 in Eres.
  split; assumption.
Qed.

Local Open Scope float_scope.

(** X11: for hues of [0, 360] and a position of [0, 1], [lerpHue] returns a
    hue of [0, 360): the argument of the last [% 360] is positive, so the
    remainder is never negative, and it is below 360. *)
Theorem lerpHue_range (h1 h2 t : number) :
  (0 <=? h1) = true -> (h1 <=? 360) = true ->
  (0 <=? h2) = true -> (h2 <=? 360) = true ->
  (0 <=? t) = true -> (t <=? 1) = true ->
  (0 <=? lerpHue h1 h2 t) = true /\ (lerpHue h1 h2 t <? 360) = true.
Proof.
  intros A1 B1 A2 B2 A3 B3.
  destruct (between_le 0 360 h1 eq_refl eq_refl A1 B1) as [F1 H1].
  destruct (between_le 0 360 h2 eq_refl eq_refl A2 B2) as [F2 H2].
  destruct (between_le 0 1 t eq_refl eq_refl A3 B3) as [Ft Ht].
  rewrite B2Q_zero, B2Q_360 in *.
  assert (V1 : (B2Q 1 == 1)%Q) by reflexivity. rewrite V1 in Ht.
  destruct (lerpHue_val h1 h2 t F1 F2 Ft H1 H2 ltac:(lra)) as [F [Lo Hi]].
  split.
  - apply leb_val; [reflexivity | exact F | rewrite B2Q_zero; exact Lo].
  - apply ltb_val; [exact F | reflexivity | rewrite B2Q_360; exact Hi].
Qed.

Lemma lerpHue_range_witness :
  (0 <=? lerpHue 350 10 0.5) = true /\ (lerpHue 350 10 0.5 <? 360) = true.
Proof. apply (lerpHue_range 350 10 0.5); reflexivity. Defined.

(** *** Integers as numbers *)

Lemma num_of_Z_val (z : Z) :
  (0 <= z < 2 ^ 53)%Z ->
  finite (num_of_Z z) = true /\ (B2Q (num_of_Z z) == inject_Z z)%Q.
Proof.
  intros Hz.
  assert (W : wB = (2 ^ 63)%Z) by reflexivity.
  assert (E : num_of_Z z = of_uint63 (Uint63.of_Z z)).
  { apply Prim2SF_inj. rewrite of_uint63_spec.
    change Uint63Axioms.to_Z with Uint63.to_Z.
    rewrite Uint63.of_Z_spec, Z.mod_small by lia.
    unfold num_of_Z. apply Prim2SF_SF2Prim.
    rewrite <- (Z.mod_small z wB) by lia. rewrite <- Uint63.of_Z_spec.
    change Uint63.to_Z with Uint63Axioms.to_Z.
    rewrite <- of_uint63_spec. apply Prim2SF_valid. }
  rewrite E.
  destruct (of_uint63_val (Uint63.of_Z z)) as [F V].
  { rewrite Uint63.of_Z_spec, Z.mod_small; lia. }
  rewrite Uint63.of_Z_spec, Z.mod_small in V by lia.
  split; assumption.
Qed.

(** *** The colours of [makeGreen] *)

Local Open Scope Q_scope.

Lemma mul_lerp (d t e D : Q) :
  0 <= e -> - e <= t <= 1 + e -> - D <= d <= D ->
  (0 <= d -> - (D * e) <= d * t <= d + D * e)
  /\ (d <= 0 -> d - D * e <= d * t <= D * e).
Proof.
  intros He Ht Hd.
  assert (HD : 0 <= D) by lra.
  assert (HDe : 0 <= D * e) by (apply Qmult_le_0_compat; lra).
  split; intros Hs.
  - assert (L1 : d * (- e) <= d * t) by (apply Qmult_le_compat_l; lra).
    assert (L2 : d * t <= d * (1 + e)) by (apply Qmult_le_compat_l; lra).
    assert (L3 : d * e <= D * e) by (apply Qmult_le_compat_r; lra).
    lra.
  - assert (L1 : (- d) * (- e) <= (- d) * t) by (apply Qmult_le_compat_l; lra).
    assert (L2 : (- d) * t <= (- d) * (1 + e)) by (apply Qmult_le_compat_l; lra).
    assert (L3 : (- d) * e <= D * e) by (apply Qmult_le_compat_r; lra).
    lra.
Qed.

(** Between two values of [[1, 99]], at a position that leaves [[0, 1]] by
    at most a thousandth, [lerp] stays in [[0, 100]]. *)
Lemma lerp_val (a b t : float) :
  finite a = true -> finite b = true -> finite t = true ->
  1 <= B2Q a <= 99 -> 1 <= B2Q b <= 99 ->
  - (1 # 1000) <= B2Q t <= 1 + (1 # 1000) ->
  finite (lerp a b t) = true /\ 0 <= B2Q (lerp a b t) <= 100.
Proof.
  intros Fa Fb Ft Ha Hb Ht.
  assert (U : u == 1 # 549755813888) by reflexivity.
  unfold lerp. cbv beta iota zeta delta [Num.add Num.sub Num.mul arith].
  destruct (sub_step b a Fb Fa) as [Fd Ed]; [apply Qabs_le; lra | ].
  set (d := (b - a)%float) in *.
  destruct (mul_lerp (B2Q d) (B2Q t) (1 # 1000) 99 ltac:(lra) Ht ltac:(lra)) as [Pp Pn].
  assert (Hp : - (100) <= B2Q d * B2Q t <= 100).
  { destruct (Qlt_le_dec (B2Q d) 0) as [N | P];
      [specialize (Pn ltac:(lra)) | specialize (Pp P)]; lra. }
  destruct (mul_step d t Fd Ft) as [Fp Ep]; [apply Qabs_le; lra | ].
  set (p := (d * t)%float) in *.
  destruct (add_step a p Fa Fp) as [Fs Es]; [apply Qabs_le; lra | ].
  split; [exact Fs | ].
  destruct (Qlt_le_dec (B2Q d) 0) as [N | P];
    [specialize (Pn ltac:(lra)) | specialize (Pp P)]; lra.
Qed.

Local Open Scope string_scope.
Local Open Scope float_scope.

(** The result of [hslToHex] for finite arguments in range. *)
Lemma hslToHex_values (h s l : number) :
  finite h = true -> finite s = true -> finite l = true ->
  (0 <= B2Q h < 360)%Q -> (0 <= B2Q s <= 100)%Q -> (0 <= B2Q l <= 100)%Q ->
  exists r g b : number,
    hslToHex h s l = "#" ++ toHex r ++ toHex g ++ toHex b
    /\ byteValued r = true /\ byteValued g = true /\ byteValued b = true
    /\ twoHexDigits (toHex r) = true
    /\ twoHexDigits (toHex g) = true
    /\ twoHexDigits (toHex b) = true.
Proof.
  intros Fh Fs Fl Bh Bs Bl.
  destruct (hslChannels_sector h s l) as (r & g & b & Hr & Hg & Hb & E).
  pose proof (channel_byte h s l Fh Fs Fl Bh Bs Bl r Hr) as Cr.
  pose proof (channel_byte h s l Fh Fs Fl Bh Bs Bl g Hg) as Cg.
  pose proof (channel_byte h s l Fh Fs Fl Bh Bs Bl b Hb) as Cb.
  cbv zeta in Cr, Cg, Cb.
  destruct (byte_prints _ Cr) as [Vr Tr].
  destruct (byte_prints _ Cg) as [Vg Tg].
  destruct (byte_prints _ Cb) as [Vb Tb].
  unfold hslToHex. rewrite E.
  eexists _, _, _. repeat split; eassumption.
Qed.

(** One segment of the gradient: between two anchors whose hue is in
    [[0, 360]] and whose saturation and lightness are in [[1, 99]]. *)
Lemma segment_colour (c1 c2 : hsl number) (t : number) :
  finite (hue c1) = true -> finite (hue c2) = true ->
  finite (sat c1) = true -> finite (sat c2) = true ->
  finite (lig c1) = true -> finite (lig c2) = true ->
  (0 <= B2Q (hue c1) <= 360)%Q -> (0 <= B2Q (hue c2) <= 360)%Q ->
  (1 <= B2Q (sat c1) <= 99)%Q -> (1 <= B2Q (sat c2) <= 99)%Q ->
  (1 <= B2Q (lig c1) <= 99)%Q -> (1 <= B2Q (lig c2) <= 99)%Q ->
  finite t = true -> (- (1 # 1000) <= B2Q t <= 1 + (1 # 1000))%Q ->
  exists r g b : number,
    hslToHex (lerpHue (hue c1) (hue c2) t) (lerp (sat c1) (sat c2) t)
             (lerp (lig c1) (lig c2) t)
    = "#" ++ toHex r ++ toHex g ++ toHex b
    /\ byteValued r = true /\ byteValued g = true /\ byteValued b = true
    /\ twoHexDigits (toHex r) = true
    /\ twoHexDigits (toHex g) = true
    /\ twoHexDigits (toHex b) = true.
Proof.
  intros Fh1 Fh2 Fs1 Fs2 Fl1 Fl2 Hh1 Hh2 Hs1 Hs2 Hl1 Hl2 Ft Ht.
  destruct (lerpHue_val _ _ t Fh1 Fh2 Ft Hh1 Hh2 ltac:(lra)) as [Fh Bh].
  destruct (lerp_val _ _ t Fs1 Fs2 Ft Hs1 Hs2 Ht) as [Fs Bs].
  destruct (lerp_val _ _ t Fl1 Fl2 Ft Hl1 Hl2 Ht) as [Fl Bl].
  exact (hslToHex_values _ _ _ Fh Fs Fl Bh Bs Bl).
Qed.

Lemma leb_false_val (x y : float) :
  finite x = true -> finite y = true ->
  ((x <=? y) = false <-> (B2Q y < B2Q x)%Q).
Proof.
  intros Fx Fy. pose proof (leb_val x y Fx Fy) as H.
  destruct (x <=? y); split; intros H1; try reflexivity; try discriminate.
  - exfalso. assert (B2Q x <= B2Q y)%Q by (apply H; reflexivity). lra.
  - destruct (Qlt_le_dec (B2Q y) (B2Q x)) as [L | L]; [exact L | ].
    apply H in L. discriminate L.
Qed.

(** The position [t = i / (total - 1)] of tile [i] among [total] tiles. *)
Lemma position_val (i total : Z) :
  (2 <= total < 2 ^ 53)%Z -> (0 <= i < total)%Z ->
  (num_of_Z total <=? 1) = false
  /\ finite (num_of_Z i / (num_of_Z total - 1)) = true
  /\ (0 <= B2Q (num_of_Z i / (num_of_Z total - 1)) <= 1 + bpow (-40))%Q.
Proof.
  intros Ht Hi.
  destruct (num_of_Z_val i ltac:(lia)) as [Fi Vi].
  destruct (num_of_Z_val total ltac:(lia)) as [FT VT].
  set (I := num_of_Z i) in *. set (T := num_of_Z total) in *.
  assert (F1 : finite 1 = true) by reflexivity.
  assert (V1 : (B2Q 1 == 1)%Q) by reflexivity.
  assert (P50 : (bpow (-50) == 1 # 1125899906842624)%Q) by reflexivity.
  assert (P40 : (bpow (-40) == 1 # 1099511627776)%Q) by reflexivity.
  assert (P1072 : (bpow (-1072) <= bpow (-50))%Q) by (apply bpow_le; lia).
  pose proof (bpow_pos (-1072)) as Q1072.
  assert (LT : (2 <= B2Q T)%Q).
  { rewrite VT. change 2%Q with (inject_Z 2). rewrite <- Zle_Qle. lia. }
  assert (UT : (B2Q T < bpow 53)%Q).
  { rewrite VT, (bpow_inject 53) by lia. rewrite <- Zlt_Qlt. lia. }
  assert (LI : (0 <= B2Q I)%Q) by (rewrite Vi; apply inject_Z_nonneg; lia).
  assert (UI : (B2Q I <= B2Q T - 1)%Q).
  { rewrite Vi, VT.
    assert (E1 : (inject_Z total - 1 == inject_Z (total - 1))%Q)
      by (unfold Zminus; rewrite inject_Z_plus; reflexivity).
    rewrite E1, <- Zle_Qle. lia. }
  split; [apply leb_false_val; [exact FT | exact F1 | rewrite V1; lra] | ].
  (* the divisor *)
  assert (B53 : (bpow 53 <= bpow 1000)%Q) by (apply bpow_le; lia).
  destruct (sub_val T 1 FT F1) as [Fd Ed].
  { rewrite V1, Qabs_pos by lra. lra. }
  rewrite V1 in Ed. rewrite (Qabs_pos (B2Q T - 1)) in Ed by lra.
  apply within in Ed. rewrite P50 in Ed.
  set (d := T - 1) in *.
  assert (Dpos : (0 < B2Q d)%Q) by lra.
  (* the quotient *)
  set (q := (B2Q I / B2Q d)%Q).
  assert (Hq : (0 <= q <= 1 + (1 # 100000000000000))%Q).
  { unfold q. split.
    - apply Qle_shift_div_l; [exact Dpos | lra].
    - apply Qle_shift_div_r; [exact Dpos | lra]. }
  destruct (div_val I d Fi Fd) as [Ft' Et].
  { lra. }
  { fold q. rewrite Qabs_pos by lra.
    apply Qle_lt_trans with 2%Q; [lra | ].
    apply Qlt_le_trans with (bpow 2); [reflexivity | apply bpow_le; lia]. }
  fold q in Et. rewrite (Qabs_pos q) in Et by lra.
  apply within in Et. rewrite P50 in Et.
  assert (Nq : (0 <= B2Q (I / d))%Q).
  { apply div_nonneg; try assumption. fold q.
    apply Qle_lt_trans with 2%Q; [lra | ].
    apply Qlt_le_trans with (bpow 2); [reflexivity | apply bpow_le; lia]. }
  split; [exact Ft' | ]. lra.
Qed.

(** The position within the segment. *)
Lemma local_position_val (t : float) :
  finite t = true -> (0 <= B2Q t <= 1 + bpow (-40))%Q ->
  finite (if t <? 0.5 then t / 0.5 else (t - 0.5) / 0.5) = true
  /\ (- (1 # 1000)
      <= B2Q (if t <? 0.5 then t / 0.5 else (t - 0.5) / 0.5)
      <= 1 + (1 # 1000))%Q.
Proof.
  intros Ft Ht.
  assert (U : (u == 1 # 549755813888)%Q) by reflexivity.
  assert (P40 : (bpow (-40) == 1 # 1099511627776)%Q) by reflexivity.
  assert (Fh : finite 0.5 = true) by reflexivity.
  assert (Nh : ~ (B2Q 0.5 == 0)%Q) by (rewrite B2Q_half; discriminate).
  destruct (t <? 0.5) eqn:Half.
  - apply ltb_val in Half; [ | exact Ft | exact Fh]. rewrite B2Q_half in Half.
    destruct (div_step t 0.5 Ft Fh Nh) as [F E].
    { rewrite B2Q_half. apply Qabs_le. unfold Qdiv. change (/ (1 # 2))%Q with 2%Q. lra. }
    rewrite B2Q_half in E. unfold Qdiv in E. change (/ (1 # 2))%Q with 2%Q in E.
    split; [exact F | lra].
  - apply ltb_false_val in Half; [ | exact Ft | exact Fh]. rewrite B2Q_half in Half.
    destruct (sub_step t 0.5 Ft Fh) as [F1 E1].
    { rewrite B2Q_half. apply Qabs_le. lra. }
    rewrite B2Q_half in E1.
    destruct (div_step (t - 0.5) 0.5 F1 Fh Nh) as [F E].
    { rewrite B2Q_half. apply Qabs_le. unfold Qdiv. change (/ (1 # 2))%Q with 2%Q. lra. }
    rewrite B2Q_half in E. unfold Qdiv in E. change (/ (1 # 2))%Q with 2%Q in E.
    split; [exact F | lra].
Qed.

Ltac closed_anchor :=
  unfold anchorInRange;
  repeat match goal with
         | |- _ /\ _ => split
         | |- _ = true => vm_compute; reflexivity
         | |- (_ <= _)%Q => unfold Qle; vm_compute; discriminate
         end.

Lemma start_anchor_in_range : anchorInRange (rgbToHsl 58 59 35).
Proof. closed_anchor. Qed.

Lemma mid_anchor_in_range : anchorInRange (rgbToHsl 115 106 70).
Proof. closed_anchor. Qed.

Lemma end_anchor_in_range : anchorInRange (rgbToHsl 212 199 166).
Proof. closed_anchor. Qed.

Lemma anchors_segment (c1 c2 : hsl number) (t : number) :
  anchorInRange c1 -> anchorInRange c2 ->
  finite t = true -> (- (1 # 1000) <= B2Q t <= 1 + (1 # 1000))%Q ->
  exists r g b : number,
    hslToHex (lerpHue (hue c1) (hue c2) t) (lerp (sat c1) (sat c2) t)
             (lerp (lig c1) (lig c2) t)
    = "#" ++ toHex r ++ toHex g ++ toHex b
    /\ byteValued r = true /\ byteValued g = true /\ byteValued b = true
    /\ twoHexDigits (toHex r) = true
    /\ twoHexDigits (toHex g) = true
    /\ twoHexDigits (toHex b) = true.
Proof.
  intros ((Fh1 & Fs1 & Fl1) & Hh1 & Hs1 & Hl1) ((Fh2 & Fs2 & Fl2) & Hh2 & Hs2 & Hl2).
  apply segment_colour; assumption.
Qed.

(** X14: for every number of tiles from 2 up (below 2^53, so that it is a
    double) and every index of a tile,
    [makeGreen] returns a well-formed colour: [#] followed by three
    fields of two hexadecimal digits that print integers of [0, 255]. *)
Theorem makeGreen_well_formed (i total : Z) :
  (2 <= total < 2 ^ 53)%Z -> (0 <= i < total)%Z ->
  exists r g b : number,
    makeGreen (num_of_Z i) (num_of_Z total)
    = Ok ("#" ++ toHex r ++ toHex g ++ toHex b)
    /\ byteValued r = true /\ byteValued g = true /\ byteValued b = true
    /\ twoHexDigits (toHex r) = true
    /\ twoHexDigits (toHex g) = true
    /\ twoHexDigits (toHex b) = true.
Proof.
  intros Ht Hi.
  destruct (position_val i total Ht Hi) as (Hle & Ft & Bt).
  destruct (local_position_val _ Ft Bt) as [Fl Bl].
  unfold makeGreen. rewrite Hle.
  generalize dependent (num_of_Z i / (num_of_Z total - 1)).
  intros t Ft Bt Fl Bl. cbv zeta.
  generalize dependent (if t <? 0.5 then t / 0.5 else (t - 0.5) / 0.5).
  intros localT Fl Bl.
  destruct (t <? 0.5).
  - change (0 =? 0) with true. cbv iota.
    change (hexToRgb START_HEX) with (Ok {| red := 58; green := 59; blue := 35 |}).
    change (hexToRgb MID_HEX) with (Ok {| red := 115; green := 106; blue := 70 |}).
    cbn [bind red green blue].
    destruct (anchors_segment _ _ localT start_anchor_in_range mid_anchor_in_range Fl Bl)
      as (r & g & b & E & H).
    exists r, g, b. split; [exact (f_equal (@Ok string) E) | exact H].
  - change (1 =? 0) with false. cbv iota.
    change (hexToRgb MID_HEX) with (Ok {| red := 115; green := 106; blue := 70 |}).
    change (hexToRgb END_HEX) with (Ok {| red := 212; green := 199; blue := 166 |}).
    cbn [bind red green blue].
    destruct (anchors_segment _ _ localT mid_anchor_in_range end_anchor_in_range Fl Bl)
      as (r & g & b & E & H).
    exists r, g, b. split; [exact (f_equal (@Ok string) E) | exact H].
Qed.

Lemma makeGreen_well_formed_witness :
  exists r g b : number,
    makeGreen (num_of_Z 7) (num_of_Z 12)
    = Ok ("#" ++ toHex r ++ toHex g ++ toHex b)
    /\ byteValued r = true /\ byteValued g = true /\ byteValued b = true
    /\ twoHexDigits (toHex r) = true
    /\ twoHexDigits (toHex g) = true
    /\ twoHexDigits (toHex b) = true.
Proof. apply (makeGreen_well_formed 7 12); lia. Defined.

(** * The round trip, on the digits of the input *)

(** The digits of the specification are the digits of [parseInt]. *)
Lemma digitValue_spec_hexDigit (c : ascii) : digitValue_spec c = hexDigit c.
Proof.
  destruct c as [[] [] [] [] [] [] [] []]; reflexivity.
Qed.

Lemma white_no_digit (c : ascii) : isWhiteSpace c = true -> digitValue_spec c = None.
Proof.
  destruct c as [[] [] [] [] [] [] [] []]; intros H; try reflexivity; discriminate H.
Qed.

Lemma digits_dropHash (s : string) : digits_spec (dropHash s) = digits_spec s.
Proof.
  destruct s as [| c rest]; [reflexivity | ].
  rewrite dropHash_cons. destruct (Ascii.eqb c "#") eqn:E; [ | reflexivity].
  apply Ascii.eqb_eq in E. subst c. reflexivity.
Qed.

Lemma digits_trimStart (s : string) : digits_spec (trimStart s) = digits_spec s.
Proof.
  induction s as [| c rest IH]; [reflexivity | ].
  cbn [trimStart]. destruct (isWhiteSpace c) eqn:W; [ | reflexivity].
  rewrite IH. cbn [digits_spec]. rewrite (white_no_digit c W). reflexivity.
Qed.

Lemma digits_trimEnd (s : string) : digits_spec (trimEnd s) = digits_spec s.
Proof.
  induction s as [| c rest IH]; [reflexivity | ].
  cbn [trimEnd]. destruct (trimEnd rest) as [| k kept] eqn:E.
  - cbn [digits_spec] in IH. cbn [digits_spec]. rewrite <- IH.
    destruct (isWhiteSpace c) eqn:W; [ | reflexivity].
    rewrite (white_no_digit c W). reflexivity.
  - cbn [digits_spec] in *. rewrite IH. reflexivity.
Qed.

(** Cleaning a string removes no digit. *)
Lemma digits_clean (x : string) : digits_spec (clean x) = digits_spec x.
Proof.
  unfold clean, trim. rewrite digits_trimEnd, digits_trimStart. apply digits_dropHash.
Qed.

Lemma pair_denotes (a b : ascii) (x y : Z) :
  digitValue_spec a = Some x -> digitValue_spec b = Some y ->
  parseInt16 (String a (String b EmptyString)) = num_of_Z (16 * x + y)
  /\ (0 <= 16 * x + y <= 255)%Z.
Proof.
  intros Ha Hb.
  assert (Hall : forallb pairDenotes allAscii = true) by (vm_compute; reflexivity).
  rewrite forallb_forall in Hall. specialize (Hall a (In_allAscii a)).
  unfold pairDenotes in Hall. rewrite forallb_forall in Hall.
  specialize (Hall b (In_allAscii b)). rewrite Ha, Hb in Hall.
  apply andb_prop in Hall. destruct Hall as [Hall Hhi].
  apply andb_prop in Hall. destruct Hall as [Heq Hlo].
  apply FloatAxioms.Leibniz.eqb_spec in Heq.
  split; [exact Heq | lia].
Qed.

(** A valid string is parsed into the channels that its digits denote. *)
Lemma hexToRgb_digits (x : string) :
  validHex x = true ->
  exists r g b : Z,
    channels_spec x = Some (r, g, b)
    /\ (0 <= r <= 255)%Z /\ (0 <= g <= 255)%Z /\ (0 <= b <= 255)%Z
    /\ hexToRgb x
       = Ok {| red := num_of_Z r; green := num_of_Z g; blue := num_of_Z b |}.
Proof.
  unfold validHex, hexToRgb, channels_spec. intros Hv.
  rewrite <- (digits_clean x).
  apply andb_prop in Hv. destruct Hv as [Hlen Hall].
  destruct (clean x) as [| c1 [| c2 [| c3 [| c4 [| c5 [| c6 [| c7 rest]]]]]]];
    try discriminate Hlen.
  cbn [allChars] in Hall.
  repeat (apply andb_prop in Hall; let H := fresh "Hc" in destruct Hall as [H Hall]).
  unfold isHexChar in *. rewrite <- !digitValue_spec_hexDigit in *.
  cbn [String.length Nat.eqb negb slice substring Nat.sub digits_spec].
  destruct (digitValue_spec c1) as [v1 |] eqn:E1; [ | discriminate].
  destruct (digitValue_spec c2) as [v2 |] eqn:E2; [ | discriminate].
  destruct (digitValue_spec c3) as [v3 |] eqn:E3; [ | discriminate].
  destruct (digitValue_spec c4) as [v4 |] eqn:E4; [ | discriminate].
  destruct (digitValue_spec c5) as [v5 |] eqn:E5; [ | discriminate].
  destruct (digitValue_spec c6) as [v6 |] eqn:E6; [ | discriminate].
  destruct (pair_denotes c1 c2 v1 v2 E1 E2) as [P1 B1].
  destruct (pair_denotes c3 c4 v3 v4 E3 E4) as [P2 B2].
  destruct (pair_denotes c5 c6 v5 v6 E5 E6) as [P3 B3].
  exists (16 * v1 + v2)%Z, (16 * v3 + v4)%Z, (16 * v5 + v6)%Z.
  split; [reflexivity | ].
  split; [exact B1 | split; [exact B2 | split; [exact B3 | ]]].
  rewrite P1, P2, P3. reflexivity.
Qed.

(** The field printed for an integer of [0, 255] is two digits that denote
    the integer. *)
Lemma field_denotes (k : Z) :
  (0 <= k <= 255)%Z ->
  exists (a b : ascii) (x y : Z),
    toHex (num_of_Z k) = String a (String b EmptyString)
    /\ digitValue_spec a = Some x /\ digitValue_spec b = Some y
    /\ (16 * x + y = k)%Z.
Proof.
  intros Hk.
  assert (Hall : forallb fieldDenotes (seq 0 256) = true) by (vm_compute; reflexivity).
  rewrite forallb_forall in Hall.
  specialize (Hall (Z.to_nat k) ltac:(apply in_seq; lia)).
  unfold fieldDenotes in Hall. rewrite Z2Nat.id in Hall by lia.
  destruct (toHex (num_of_Z k)) as [| a [| b [| ? ?]]]; try discriminate Hall.
  destruct (digitValue_spec a) as [x |] eqn:Ea; [ | discriminate Hall].
  destruct (digitValue_spec b) as [y |] eqn:Eb; [ | discriminate Hall].
  exists a, b, x, y.
  split; [reflexivity | split; [exact Ea | split; [exact Eb | ]]].
  apply Z.eqb_eq. exact Hall.
Qed.

(** Converting a colour with integer channels of [0, 255] to HSL and
    printing it gives the three fields of the channels. *)
Lemma hslToHex_rgbToHsl_fields (r g b : Z) :
  (0 <= r <= 255)%Z -> (0 <= g <= 255)%Z -> (0 <= b <= 255)%Z ->
  let h := rgbToHsl (num_of_Z r) (num_of_Z g) (num_of_Z b) in
  hslToHex (hue h) (sat h) (lig h)
  = "#" ++ toHex (num_of_Z r) ++ toHex (num_of_Z g) ++ toHex (num_of_Z b).
Proof.
  intros Hr Hg Hb h.
  pose proof (roundTrip_bytes _ _ _ (In_bytes r Hr) (In_bytes g Hg) (In_bytes b Hb)) as Hrt.
  unfold roundTrip in Hrt. fold h in Hrt.
  unfold hslToHex.
  destruct (hslChannels (hue h) (sat h) (lig h)) as [[r' g'] b'].
  apply andb_prop in Hrt. destruct Hrt as [Hrt Hb'].
  apply andb_prop in Hrt. destruct Hrt as [Hr' Hg'].
  rewrite (sameChannel_prints _ _ Hr'), (sameChannel_prints _ _ Hg'),
    (sameChannel_prints _ _ Hb').
  reflexivity.
Qed.

(** C3: for every valid colour string [x], parsing [x], converting to HSL
    and printing gives [#] followed by six characters whose channels (the
    digits read in pairs) each differ by at most 1 from the channels that
    the digits of [x] themselves denote. *)
Theorem hex_hsl_hex_round_trip (x : string) :
  validHex x = true ->
  exists (c : rgb) (d : string) (r g b r' g' b' : Z),
    hexToRgb x = Ok c
    /\ (let h := rgbToHsl (red c) (green c) (blue c) in
        hslToHex (hue h) (sat h) (lig h) = "#" ++ d)
    /\ String.length d = 6%nat
    /\ channels_spec x = Some (r, g, b)
    /\ channels_spec d = Some (r', g', b')
    /\ (Z.abs (r' - r) <= 1)%Z
    /\ (Z.abs (g' - g) <= 1)%Z
    /\ (Z.abs (b' - b) <= 1)%Z.
Proof.
  intros Hv.
  destruct (hexToRgb_digits x Hv) as (r & g & b & Hch & Hr & Hg & Hb & Hparse).
  destruct (field_denotes r Hr) as (a1 & a0 & xr & yr & Tr & Xr & Yr & Er).
  destruct (field_denotes g Hg) as (b1 & b0 & xg & yg & Tg & Xg & Yg & Eg).
  destruct (field_denotes b Hb) as (c1 & c0 & xb & yb & Tb & Xb & Yb & Eb).
  exists {| red := num_of_Z r; green := num_of_Z g; blue := num_of_Z b |},
    (toHex (num_of_Z r) ++ toHex (num_of_Z g) ++ toHex (num_of_Z b)),
    r, g, b, r, g, b.
  split; [exact Hparse | ].
  split; [exact (hslToHex_rgbToHsl_fields r g b Hr Hg Hb) | ].
  split.
  { rewrite Tr, Tg, Tb. reflexivity. }
  split; [exact Hch | ].
  split.
  { rewrite Tr, Tg, Tb. unfold channels_spec.
    cbn [String.append digits_spec]. rewrite Xr, Yr, Xg, Yg, Xb, Yb, Er, Eg, Eb.
    reflexivity. }
  rewrite !Z.sub_diag. cbn. lia.
Qed.

Lemma hex_hsl_hex_round_trip_witness :
  exists (c : rgb) (d : string) (r g b r' g' b' : Z),
    hexToRgb "#D4c7A6  " = Ok c
    /\ (let h := rgbToHsl (red c) (green c) (blue c) in
        hslToHex (hue h) (sat h) (lig h) = "#" ++ d)
    /\ String.length d = 6%nat
    /\ channels_spec "#D4c7A6  " = Some (r, g, b)
    /\ channels_spec d = Some (r', g', b')
    /\ (Z.abs (r' - r) <= 1)%Z
    /\ (Z.abs (g' - g) <= 1)%Z
    /\ (Z.abs (b' - b) <= 1)%Z.
Proof. apply (hex_hsl_hex_round_trip "#D4c7A6  "). vm_compute. reflexivity. Defined.

(** * Hue 360 against hue 0 *)

Local Open Scope Q_scope.

(** [Math.round] moves a number of the range of the channels by at most
    one half. *)
Lemma Math_round_near (y : float) :
  finite y = true -> - (1 # 2) < B2Q y < 255 + (1 # 2) ->
  finite (Math_round y) = true /\ Qabs (B2Q (Math_round y) - B2Q y) <= 1 # 2.
Proof.
  intros Fy [Lo Hi].
  destruct (abs_val y) as [Fa Va]. rewrite Fy in Fa.
  unfold Math_round. cbv beta zeta.
  destruct (abs y <? 0.5)%float eqn:Small.
  - apply ltb_val in Small; [ | exact Fa | reflexivity].
    rewrite Va, B2Q_half in Small.
    assert (Hy : - (1 # 2) < B2Q y < 1 # 2).
    { pose proof (Qabs_ge (B2Q y)) as [G1 G2]. lra. }
    assert (Z0 : B2Q neg_zero == 0) by reflexivity.
    assert (Z1 : B2Q zero == 0) by reflexivity.
    destruct (y <? 0)%float.
    { split; [reflexivity | ]. rewrite Z0. apply Qabs_le. lra. }
    destruct (0 <? y)%float.
    { split; [reflexivity | ]. rewrite Z1. apply Qabs_le. lra. }
    split; [exact Fy | ]. apply Qabs_le. lra.
  - apply ltb_false_val in Small; [ | exact Fa | reflexivity].
    rewrite Va, B2Q_half in Small.
    assert (Hy : 1 # 2 <= B2Q y).
    { destruct (Qlt_le_dec (B2Q y) 0) as [N | P].
      - rewrite Qabs_neg in Small by lra. lra.
      - rewrite Qabs_pos in Small by lra. exact Small. }
    assert (Big : (abs y <? 0x1p52)%float = true).
    { apply ltb_val; [exact Fa | reflexivity | ].
      rewrite Va, B2Q_2p52, Qabs_pos by lra.
      apply Qlt_trans with 256; [lra | ].
      change 256 with (bpow 8). apply bpow_lt. lia. }
    rewrite Big.
    assert (Nz : ~ B2Q y == 0) by (intros E; rewrite E in Hy; lra).
    pose proof (frshiftexp_val y Fy Nz) as Hf.
    destruct (frshiftexp y) as [f e]. destruct Hf as (HM & HV & HE).
    rewrite Qabs_pos in HV by lra.
    change shift with 2101%Z in *.
    assert (Neg : (y <? 0)%float = false).
    { apply ltb_false_val; [exact Fy | reflexivity | rewrite B2Q_zero; lra]. }
    rewrite Neg.
    set (M := Uint63.to_Z (normfr_mantissa f)) in *.
    set (E := (Uint63.to_Z e - 2101)%Z) in *.
    assert (E0 : (0 <= E)%Z).
    { pose proof (scaled_below M (E - 53) 53 (E - 53) ltac:(lia) ltac:(lia) ltac:(lia)) as B.
      rewrite <- HV in B.
      assert (L : bpow (-1) < bpow (53 + (E - 53))).
      { apply Qle_lt_trans with (B2Q y); [ | exact B].
        change (bpow (-1)) with (1 # 2). exact Hy. }
      apply bpow_lt_inv in L. lia. }
    assert (E8 : (E <= 8)%Z).
    { pose proof (scaled_above M (E - 53) 52 ltac:(lia) ltac:(lia)) as B.
      rewrite <- HV in B.
      assert (L : bpow (52 + (E - 53)) < bpow 8).
      { apply Qle_lt_trans with (B2Q y); [exact B | ].
        change (bpow 8) with 256. lra. }
      apply bpow_lt_inv in L. lia. }
    pose proof (Uint63.to_Z_bounded e) as Be.
    assert (W : wB = (2 ^ 63)%Z) by reflexivity.
    change (bias + 53)%uint63 with 2154%uint63.
    set (k := (2154 - e)%uint63).
    assert (Hk : Uint63.to_Z k = (53 - E)%Z).
    { unfold k. rewrite Uint63.sub_spec. change (Uint63.to_Z 2154) with 2154%Z.
      rewrite Z.mod_small; unfold E; lia. }
    set (K := (53 - E)%Z) in *.
    assert (HK : (45 <= K <= 53)%Z) by (unfold K; lia).
    assert (P2K : (2 ^ K = 2 * 2 ^ (K - 1))%Z).
    { rewrite <- Z.pow_succ_r by lia. f_equal. lia. }
    assert (PK1 : (0 < 2 ^ (K - 1))%Z) by (apply Z.pow_pos_nonneg; lia).
    assert (UK : (2 ^ K <= 2 ^ 53)%Z) by (apply Z.pow_le_mono_r; lia).
    assert (Hk1 : Uint63.to_Z (k - 1) = (K - 1)%Z).
    { rewrite Uint63.sub_spec, Hk. change (Uint63.to_Z 1) with 1%Z.
      rewrite Z.mod_small; lia. }
    assert (Hh : Uint63.to_Z (1 << (k - 1)) = (2 ^ (K - 1))%Z).
    { rewrite Uint63.lsl_spec, Hk1. change (Uint63.to_Z 1) with 1%Z.
      rewrite Z.mul_1_l, Z.mod_small; lia. }
    set (n := ((normfr_mantissa f + (1 << (k - 1))) >> k)%uint63).
    assert (Hn : Uint63.to_Z n = ((M + 2 ^ (K - 1)) / 2 ^ K)%Z).
    { unfold n. rewrite Uint63.lsr_spec, Uint63.add_spec, Hh, Hk. fold M.
      rewrite Z.mod_small by lia. reflexivity. }
    set (N := Uint63.to_Z n) in *.
    assert (PK : (0 < 2 ^ K)%Z) by lia.
    pose proof (Z.mul_div_le (M + 2 ^ (K - 1)) (2 ^ K) PK) as D1.
    pose proof (Z.mul_succ_div_gt (M + 2 ^ (K - 1)) (2 ^ K) PK) as D2.
    rewrite <- Hn in D1, D2.
    assert (N53 : (N < 2 ^ 53)%Z).
    { assert (N * 2 ^ K <= 2 ^ 53 * 2 ^ K)%Z by nia.
      assert (N <= 2 ^ 53)%Z by nia.
      assert (N <> 2 ^ 53)%Z by nia. lia. }
    destruct (of_uint63_val n N53) as [Fn Vn]. fold N in Vn.
    split; [exact Fn | ].
    rewrite Vn.
    pose proof (bpow_pos K) as PQ.
    assert (Eb : bpow (E - 53) * bpow K == 1).
    { rewrite <- bpow_add. replace (E - 53 + K)%Z with 0%Z by (unfold K; lia).
      reflexivity. }
    assert (EM : B2Q y * bpow K == inject_Z M).
    { rewrite HV, <- Qmult_assoc, Eb. ring. }
    assert (Q1 : inject_Z N * bpow K <= inject_Z M + (1 # 2) * bpow K).
    { rewrite (bpow_inject K) by lia. rewrite P2K at 2.
      rewrite inject_Z_mult.
      assert (T : inject_Z (2 ^ K) * inject_Z N <= inject_Z M + inject_Z (2 ^ (K - 1))).
      { rewrite <- inject_Z_mult, <- inject_Z_plus, <- Zle_Qle. exact D1. }
      change (inject_Z 2) with 2. lra. }
    assert (Q2 : inject_Z M + (1 # 2) * bpow K < (inject_Z N + 1) * bpow K).
    { rewrite (bpow_inject K) by lia. rewrite P2K at 1.
      rewrite inject_Z_mult.
      assert (T : inject_Z M + inject_Z (2 ^ (K - 1)) < inject_Z (2 ^ K) * inject_Z (Z.succ N)).
      { rewrite <- inject_Z_mult, <- inject_Z_plus, <- Zlt_Qlt. exact D2. }
      unfold Z.succ in T. rewrite inject_Z_plus in T.
      change (inject_Z 2) with 2. change (inject_Z 1) with 1 in T. lra. }
    assert (X : (inject_Z N - B2Q y) * bpow K == inject_Z N * bpow K - inject_Z M).
    { rewrite <- EM. ring. }
    apply Qabs_le. split.
    + apply (Qmult_le_r _ _ (bpow K)); [exact PQ | ]. rewrite X. lra.
    + apply (Qmult_le_r _ _ (bpow K)); [exact PQ | ]. rewrite X. lra.
Qed.

Local Open Scope string_scope.
Local Open Scope float_scope.

(** A rounded channel prints as one of [bytes] does, and has its value. *)
Lemma printed_channel (a : number) :
  a = neg_zero \/ In a bytes ->
  exists a' : number,
    toHex a = toHex a' /\ (B2Q a == B2Q a')%Q /\ parseInt16 (toHex a') = a'.
Proof.
  assert (P : forall b, In b bytes -> parseInt16 (toHex b) = b).
  { intros b Hb. pose proof (printsAs_bytes b Hb) as H. unfold printsAs in H.
    destruct (toHex b) as [| c1 [| c2 [| ? ?]]]; try discriminate H.
    apply andb_prop in H. destruct H as [_ H].
    apply FloatAxioms.Leibniz.eqb_spec in H. exact H. }
  intros [-> | Ha].
  - exists zero. split; [reflexivity | split; [reflexivity | ]].
    apply P. apply (In_bytes 0). lia.
  - exists a. split; [reflexivity | split; [reflexivity | exact (P a Ha)]].
Qed.

(** Two rounded channels that print the same have the same value. *)
Lemma same_field_same_value (a b : number) :
  a = neg_zero \/ In a bytes -> b = neg_zero \/ In b bytes ->
  toHex a = toHex b -> (B2Q a == B2Q b)%Q.
Proof.
  intros Ha Hb E.
  destruct (printed_channel a Ha) as (a' & Ta & Va & Pa).
  destruct (printed_channel b Hb) as (b' & Tb & Vb & Pb).
  assert (E' : a' = b').
  { rewrite <- Pa, <- Pb, <- Ta, <- Tb, E. reflexivity. }
  rewrite Va, Vb, E'. reflexivity.
Qed.

Lemma two_digits_head (a b t t' : string) :
  twoHexDigits a = true -> twoHexDigits b = true -> a ++ t = b ++ t' -> a = b.
Proof.
  intros Ha Hb E.
  destruct a as [| a1 [| a2 [| ? ?]]]; try discriminate Ha.
  destruct b as [| b1 [| b2 [| ? ?]]]; try discriminate Hb.
  cbn [String.append] in E. injection E as -> ->. reflexivity.
Qed.

(** With a chroma [c] of 1/250 or more ([c * 250 >= 1] as the script
    would compute it), the red channel at hue 0 is not the grey of hue
    360: the two values that are rounded are more than 1 apart. *)
Lemma red_sector_differs (s l : number) :
  (0 <=? s) = true -> (s <=? 100) = true ->
  (0 <=? l) = true -> (l <=? 100) = true ->
  (1 <=? chroma s l * 250) = true ->
  hslToHex 360 s l <> hslToHex 0 s l.
Proof.
  intros S0 S100 L0 L100 Hc.
  assert (F0 : finite 0 = true) by reflexivity.
  assert (F100 : finite 100 = true) by reflexivity.
  destruct (between_le 0 100 s F0 F100 S0 S100) as [Fs Bs].
  destruct (between_le 0 100 l F0 F100 L0 L100) as [Fl Bl].
  change (B2Q 0) with 0%Q in *.
  assert (V100 : (B2Q 100 == 100)%Q) by reflexivity.
  rewrite V100 in Bs, Bl.
  assert (Hh : (0 <= B2Q 0 < 360)%Q) by (change (B2Q 0) with 0%Q; lra).
  destruct (channel_bounds 0 s l F0 Fs Fl Hh Bs Bl)
    as (Fc & Fx & Fm & Bc & Bx & Bm & Bsum).
  pose proof (channel_byte 0 s l F0 Fs Fl Hh Bs Bl (chroma s l) (or_introl eq_refl)) as C1.
  pose proof (channel_byte 0 s l F0 Fs Fl Hh Bs Bl (lit 0) (or_intror (or_intror eq_refl)))
    as C0.
  pose proof (channel_byte 0 s l F0 Fs Fl Hh Bs Bl (second 0 s l)
                (or_intror (or_introl eq_refl))) as C2.
  cbv zeta in C0, C1, C2.
  assert (U : (u == 1 # 549755813888)%Q) by reflexivity.
  unfold slack in *.
  assert (F250 : finite 250 = true) by reflexivity.
  assert (V250 : (B2Q 250 == 250)%Q) by reflexivity.
  destruct (mul_step (chroma s l) 250 Fc F250) as [Fp Ep].
  { rewrite V250. apply Qabs_le. lra. }
  rewrite V250 in Ep.
  apply leb_val in Hc; [ | reflexivity | exact Fp].
  assert (V1 : (B2Q 1 == 1)%Q) by reflexivity.
  rewrite V1 in Hc.
  assert (F255 : finite (lit 255) = true) by reflexivity.
  assert (V255 : (B2Q (lit 255) == 255)%Q) by reflexivity.
  (* the value rounded at hue 0 *)
  destruct (add_step (chroma s l) (offset s l) Fc Fm) as [Fa1 Ea1].
  { apply Qabs_le. lra. }
  destruct (mul_step (chroma s l + offset s l) (lit 255) Fa1 F255) as [Fy1 Ey1].
  { rewrite V255. apply Qabs_le. lra. }
  rewrite V255 in Ey1.
  destruct (Math_round_near _ Fy1 ltac:(lra)) as [_ N1].
  (* the value rounded at hue 360 *)
  assert (FL0 : finite (lit 0) = true) by reflexivity.
  destruct (add_step (lit 0) (offset s l) FL0 Fm) as [Fa0 Ea0].
  { change (B2Q (lit 0)) with 0%Q. apply Qabs_le. lra. }
  change (B2Q (lit 0)) with 0%Q in Ea0.
  destruct (mul_step (lit 0 + offset s l) (lit 255) Fa0 F255) as [Fy0 Ey0].
  { rewrite V255. apply Qabs_le. lra. }
  rewrite V255 in Ey0.
  destruct (Math_round_near _ Fy0 ltac:(lra)) as [_ N0].
  apply within in N1, N0.
  (* the two strings *)
  assert (H360 : hslChannels 360 s l
                 = (Math_round ((lit 0 + offset s l) * lit 255),
                    Math_round ((lit 0 + offset s l) * lit 255),
                    Math_round ((lit 0 + offset s l) * lit 255))) by reflexivity.
  assert (H0 : hslChannels 0 s l
               = (Math_round ((chroma s l + offset s l) * lit 255),
                  Math_round ((second 0 s l + offset s l) * lit 255),
                  Math_round ((lit 0 + offset s l) * lit 255))) by reflexivity.
  unfold hslToHex. rewrite H360, H0. intros E.
  injection E as E.
  apply two_digits_head in E;
    [ | apply byte_prints; exact C0 | apply byte_prints; exact C1].
  apply (same_field_same_value _ _ C0 C1) in E.
  unfold number in *. lra.
Qed.


Lemma hueDiffers_grid :
  forallb (fun s => forallb (hueDiffers s) (seq 1 99)) (seq 8 93) = true.
Proof. vm_compute. reflexivity. Qed.

(** C10 (amended): at hue 360, [hh = 6] matches no sector and the chroma
    is dropped: for every [s] and [l] the three channels are the same
    number and the result is the grey of [round(m * 255)] with
    [m = l/100 - c/2] and [c = (1 - |2 (l/100) - 1|) (s/100)].  That grey
    is not the colour at hue 0 whenever the chroma is visible: for all
    numbers [s] and [l] of [[0, 100]] with [c * 250 >= 1], and for all
    integers [s] from 8 to 100 and [l] from 1 to 99; for [s = 100],
    [l = 50] hue 360 gives black and hue 0 gives red. *)
Theorem hue_360_is_achromatic :
  (forall s l : number,
      let c := (1 - abs (2 * (l / 100) - 1)) * (s / 100) in
      let m := l / 100 - c / 2 in
      let grey := Math_round (m * 255) in
      (exists v : number, hslChannels 360 s l = (v, v, v))
      /\ hslToHex 360 s l = "#" ++ toHex grey ++ toHex grey ++ toHex grey)
  /\ (forall s l : number,
        (0 <=? s) = true -> (s <=? 100) = true ->
        (0 <=? l) = true -> (l <=? 100) = true ->
        (1 <=? chroma s l * 250) = true ->
        hslToHex 360 s l <> hslToHex 0 s l)
  /\ (forall s l : Z,
        (8 <= s <= 100)%Z -> (1 <= l <= 99)%Z ->
        hslToHex 360 (num_of_Z s) (num_of_Z l) <> hslToHex 0 (num_of_Z s) (num_of_Z l))
  /\ hslToHex 360 100 50 = "#000000"
  /\ hslToHex 0 100 50 = "#ff0000".
Proof.
  split; [ | split; [exact red_sector_differs | split; [ | split; vm_compute; reflexivity]]].
  - intros s l c m grey.
    assert (Hch : hslChannels 360 s l
                  = (Math_round ((0 + m) * 255), Math_round ((0 + m) * 255),
                     Math_round ((0 + m) * 255))) by reflexivity.
    split; [eexists; exact Hch | ].
    unfold hslToHex. rewrite Hch, toHex_zero_plus. reflexivity.
  - intros s l Hs Hl.
    pose proof hueDiffers_grid as Hall.
    rewrite forallb_forall in Hall.
    specialize (Hall (Z.to_nat s) ltac:(apply in_seq; lia)).
    rewrite forallb_forall in Hall.
    specialize (Hall (Z.to_nat l) ltac:(apply in_seq; lia)).
    unfold hueDiffers in Hall. rewrite !Z2Nat.id in Hall by lia.
    apply negb_true_iff in Hall. intros E. rewrite E, String.eqb_refl in Hall.
    discriminate Hall.
Qed.

Lemma hue_360_is_achromatic_witness :
  (1 <=? chroma 100 50 * 250) = true
  /\ hslToHex 360 100 50 <> hslToHex 0 100 50.
Proof.
  split; [reflexivity | ].
  apply (proj1 (proj2 hue_360_is_achromatic)); reflexivity.
Defined.
